(** * lesson-summarizer: chunker, orchestrator and Markdown renderer

    A shallow embedding of
    - [lesson_summarizer/chunking.py]   ([chunk_text]),
    - [lesson_summarizer/llm/prompts.py] ([build_prompt]),
    - [lesson_summarizer/core.py]       ([summarize_text_to_markdown],
                                         [summarize_long_text_to_markdown]),
    - [lesson_summarizer/pdf_export.py] ([markdown_to_pdf_bytes] up to the
                                         list of flowables handed to ReportLab),
    followed by the properties the specification states about them.

    Conventions.
    - A Python [str] is a list of Unicode code points; [len] is [length].
      The chunker never looks at a character, so it is polymorphic in the
      character type.
    - A Python [int] is a [Z]; a Python [float] that holds a quotient of
      two [int]s is a [binary64].
    - A call that may raise returns an [outcome]; the [while] loop of the
      chunker runs on fuel and [OutOfFuel] is a third, separate outcome,
      shown below never to occur. *)

From Stdlib Require Import ZArith NArith List Lia Bool.
From Stdlib Require String Ascii DecimalString.
Import ListNotations.
Import String.StringSyntax Ascii.AsciiSyntax.

Abbreviation string := String.string.
Delimit Scope string_scope with string.

Set Implicit Arguments.

(* ================================================================== *)
(** * Python values shared by all modules *)
(* ================================================================== *)

Module Py.

(** [ValueError] is the only exception the modelled code raises itself;
    [ZeroDivisionError] and [OverflowError] are what the division of two
    [int]s can raise; [ExternalError] stands for whatever the completion
    service raises (transport, quota, authentication, missing API key). *)
Inductive exn : Type :=
| ValueError (msg : string)
| ZeroDivisionError (msg : string)
| OverflowError (msg : string)
| ExternalError (msg : string).

Arguments ValueError msg%_string.
Arguments ZeroDivisionError msg%_string.
Arguments OverflowError msg%_string.
Arguments ExternalError msg%_string.

Inductive outcome (A : Type) : Type :=
| Ok (a : A)
| Raise (e : exn)
| OutOfFuel.

Arguments Ok {A} a.
Arguments Raise {A} e.
Arguments OutOfFuel {A}.

Definition bind {A B} (m : outcome A) (k : A -> outcome B) : outcome B :=
  match m with
  | Ok a => k a
  | Raise e => Raise e
  | OutOfFuel => OutOfFuel
  end.

(** Index normalisation of a slice bound: negative bounds count from the
    end, and every bound is clipped to [0, n]. *)
Definition clamp_index (n i : Z) : Z :=
  if (i <? 0)%Z then Z.max (i + n) 0 else Z.min i n.

(** [s[lo:hi]] *)
Definition slice {A} (s : list A) (lo hi : Z) : list A :=
  let n := Z.of_nat (length s) in
  let lo' := clamp_index n lo in
  let hi' := clamp_index n hi in
  firstn (Z.to_nat (hi' - lo')) (skipn (Z.to_nat lo') s).

(** [s[lo:]] *)
Definition slice_from {A} (s : list A) (lo : Z) : list A :=
  slice s lo (Z.of_nat (length s)).

(** [sub s a b] is [s[a:b]] for natural bounds [a <= b <= len(s)]. *)
Definition sub {A} (s : list A) (a b : nat) : list A :=
  firstn (b - a) (skipn a s).

(** ** The quotient of two [int]s and [math.ceil]

    [a / b] on two [int]s is the exact quotient rounded once to the
    nearest binary64 number, ties to even.  A finite binary64 number is
    [mant * 2^expo] with [|mant| <= 2^53] and [-1074 <= expo]. *)
Record binary64 : Type := { mant : Z; expo : Z }.

(** [x * 2^k] for [k >= 0], and [x] itself for [k < 0]. *)
Definition scale (x k : Z) : Z := (x * 2 ^ Z.max k 0)%Z.

(** The integer nearest to [a / b], the even one of two that are equally
    near, for [a >= 0] and [b > 0]. *)
Definition round_half_even (a b : Z) : Z :=
  let q := (a / b)%Z in
  let r := (a mod b)%Z in
  if (2 * r <? b)%Z then q
  else if (b <? 2 * r)%Z then (q + 1)%Z
  else if Z.even q then q else (q + 1)%Z.

(** The integer part of the binary logarithm of [a / b], for [a, b > 0]. *)
Definition quotient_log2 (a b : Z) : Z :=
  if (b * 2 ^ Z.log2 a <=? a * 2 ^ Z.log2 b)%Z
  then (Z.log2 a - Z.log2 b)%Z
  else (Z.log2 a - Z.log2 b - 1)%Z.

(** [a / b]: the quotient is rounded to 53 significant bits, or to a
    multiple of [2^-1074] when it is below [2^-1022]; a quotient that
    rounds to [2^1024] or more raises [OverflowError]. *)
Definition int_truediv (a b : Z) : outcome binary64 :=
  if (b =? 0)%Z then Raise (ZeroDivisionError "division by zero")
  else if (a =? 0)%Z then Ok {| mant := 0; expo := 0 |}
  else
    let sign := (Z.sgn a * Z.sgn b)%Z in
    let a := Z.abs a in
    let b := Z.abs b in
    let e := Z.max (quotient_log2 a b - 52) (-1074) in
    let m := round_half_even (scale a (- e)) (scale b e) in
    if (2 ^ 1024 <=? scale m e)%Z
    then Raise (OverflowError "integer division result too large for a float")
    else Ok {| mant := (sign * m)%Z; expo := e |}.

(** [math.ceil(x)]: the least [int] that is not below [x]. *)
Definition math_ceil (x : binary64) : Z :=
  if (0 <=? expo x)%Z then (mant x * 2 ^ expo x)%Z
  else (- ((- mant x) / 2 ^ (- expo x)))%Z.

End Py.

Import Py.

(* ================================================================== *)
(** * Python strings *)
(* ================================================================== *)

Module Str.

Local Open Scope N_scope.

(** A character is a Unicode code point. *)
Definition char : Type := N.
Definition str : Type := list char.

Definition char_eqb (a b : char) : bool := N.eqb a b.

Fixpoint str_eqb (a b : str) : bool :=
  match a, b with
  | [], [] => true
  | x :: a', y :: b' => char_eqb x y && str_eqb a' b'
  | _, _ => false
  end.

(** ** Literals

    A literal of the source is written as a Rocq string, whose bytes are
    the UTF-8 encoding of the text, and decoded to code points. *)
Fixpoint bytes_of_string (s : string) : list N :=
  match s with
  | String.EmptyString => []
  | String.String a s' => Ascii.N_of_ascii a :: bytes_of_string s'
  end.

Fixpoint utf8_decode (bs : list N) : str :=
  match bs with
  | [] => []
  | b0 :: r0 =>
      if b0 <? 128 then b0 :: utf8_decode r0
      else
        match r0 with
        | [] => [b0]
        | b1 :: r1 =>
            if b0 <? 224 then
              ((b0 - 192) * 64 + (b1 - 128)) :: utf8_decode r1
            else
              match r1 with
              | [] => [b0; b1]
              | b2 :: r2 =>
                  if b0 <? 240 then
                    ((b0 - 224) * 4096 + (b1 - 128) * 64 + (b2 - 128))
                      :: utf8_decode r2
                  else
                    match r2 with
                    | [] => [b0; b1; b2]
                    | b3 :: r3 =>
                        ((b0 - 240) * 262144 + (b1 - 128) * 4096
                         + (b2 - 128) * 64 + (b3 - 128))
                          :: utf8_decode r3
                    end
              end
        end
  end.

Definition u (s : string) : str := utf8_decode (bytes_of_string s).

Arguments u s%_string.

Definition LF : char := 10.
Definition CR : char := 13.
Definition SPACE : char := 32.
Definition DQUOTE : char := 34.

(** ** [str(i)] for an [int] *)
Definition str_of_int (i : Z) : str :=
  u (DecimalString.NilZero.string_of_int (Z.to_int i)).

(** ** Truthiness: [a or b] on strings, [o or ""] on an optional string *)
Definition or_str (a b : str) : str :=
  match a with
  | [] => b
  | _ :: _ => a
  end.

Definition or_empty (o : option str) : str :=
  match o with
  | Some s => s
  | None => []
  end.

(** ** [str.isspace] on one character, as [str.strip] uses it *)
Definition is_space (c : char) : bool :=
  ((9 <=? c) && (c <=? 13)) || ((28 <=? c) && (c <=? 32))
  || (c =? 133) || (c =? 160) || (c =? 5760)
  || ((8192 <=? c) && (c <=? 8202))
  || (c =? 8232) || (c =? 8233) || (c =? 8239) || (c =? 8287)
  || (c =? 12288).

Fixpoint lstrip (s : str) : str :=
  match s with
  | [] => []
  | c :: r => if is_space c then lstrip r else s
  end.

Fixpoint rstrip (s : str) : str :=
  match s with
  | [] => []
  | c :: r =>
      match rstrip r with
      | [] => if is_space c then [] else [c]
      | (_ :: _) as r' => c :: r'
      end
  end.

Definition strip (s : str) : str := lstrip (rstrip s).

(** The first, respectively last, character exists and is not white
    space. *)
Definition starts_solid (s : str) : bool :=
  match s with
  | [] => false
  | c :: _ => negb (is_space c)
  end.

Fixpoint ends_solid (s : str) : bool :=
  match s with
  | [] => false
  | [c] => negb (is_space c)
  | _ :: r => ends_solid r
  end.

(** ** [str.splitlines] *)
Definition is_linebreak (c : char) : bool :=
  ((10 <=? c) && (c <=? 13)) || ((28 <=? c) && (c <=? 30))
  || (c =? 133) || (c =? 8232) || (c =? 8233).

Definition cons_to_first (c : char) (ls : list str) : list str :=
  match ls with
  | [] => [[c]]
  | l :: ls' => (c :: l) :: ls'
  end.

Fixpoint splitlines (s : str) : list str :=
  match s with
  | [] => []
  | c :: r =>
      if is_linebreak c then
        match r with
        | c' :: r' =>
            if (c =? CR) && (c' =? LF) then [] :: splitlines r'
            else [] :: splitlines r
        | [] => [[]]
        end
      else cons_to_first c (splitlines r)
  end.

(** ** [str.startswith] *)
Fixpoint startswith (s prefix : str) {struct prefix} : bool :=
  match prefix with
  | [] => true
  | p :: prefix' =>
      match s with
      | c :: s' => char_eqb p c && startswith s' prefix'
      | [] => false
      end
  end.

(** ** [str.replace(old, new)]

    Occurrences are found left to right and do not overlap.  [skip] counts
    the characters of the current occurrence still to be passed over. *)
Fixpoint replace_go (old new : str) (skip : nat) (s : str) : str :=
  match s with
  | [] => []
  | c :: r =>
      match skip with
      | S k => replace_go old new k r
      | O =>
          if startswith s old
          then new ++ replace_go old new (length old - 1) r
          else c :: replace_go old new 0 r
      end
  end.

(** An empty [old] matches between any two characters and at both ends. *)
Definition replace (s old new : str) : str :=
  match old with
  | [] => new ++ flat_map (fun c => c :: new) s
  | _ :: _ => replace_go old new 0 s
  end.

(** ** [sep.join(parts)] *)
Fixpoint join (sep : str) (parts : list str) : str :=
  match parts with
  | [] => []
  | [p] => p
  | p :: rest => p ++ sep ++ join sep rest
  end.

(** ** [needle in s] *)
Fixpoint contains (s needle : str) : bool :=
  startswith s needle
  || match s with
     | [] => false
     | _ :: r => contains r needle
     end.

End Str.

Import Str.

(* ================================================================== *)
(** * chunking.py *)
(* ================================================================== *)

Module Chunking.

Local Open Scope Z_scope.

(** The ceiling of the exact quotient [n / d], for [n >= 0] and [d > 0]:
    the number of windows the [while] loop emits, and the number of
    windows the specification speaks of. *)
Definition ceil_div (n d : Z) : Z := (n + d - 1) / d.

(** [math.ceil(n / chunk_size)] as line 24 computes it, for a text of
    [0 < n < 2^53] characters and [chunk_size > 0].  The quotient is a
    [float]: from [chunk_size = n * 2^1075] on it is rounded to [0.0] and
    the count is 0; below that, the rounded quotient has the ceiling of
    the exact one.  [math_ceil_quotient] in the properties below proves
    this of [math_ceil] and [int_truediv].  (At [2^53] characters and
    more, which no text in memory has, the rounding of the quotient can
    also move the count by one; the model does not follow that.) *)
Definition no_of_chunks (n chunk_size : Z) : Z :=
  if n * 2 ^ 1075 <=? chunk_size then 0 else ceil_div n chunk_size.

(** Number of iterations the [while] loop still runs from [start]. *)
Definition remaining (n step start : Z) : nat :=
  Z.to_nat (ceil_div (n - start) step).

Section ChunkText.
Variable A : Type.

(** [for _ in range(no_of_chunks): parts.append(text[bottom:top]); ...] *)
Fixpoint partition_loop (text : list A) (chunk_size : Z) (count : nat)
         (bottom top : Z) (parts : list (list A)) : list (list A) :=
  match count with
  | O => parts
  | S count' =>
      partition_loop text chunk_size count'
        (bottom + chunk_size) (top + chunk_size)
        (parts ++ [slice text bottom top])
  end.

(** [while start < n: end = min(start + chunk_size, n); ...] *)
Fixpoint window_loop (fuel : nat) (text : list A) (n chunk_size step : Z)
         (start : Z) (parts : list (list A)) : option (list (list A)) :=
  if start <? n then
    match fuel with
    | O => None
    | S fuel' =>
        let end_ := Z.min (start + chunk_size) n in
        window_loop fuel' text n chunk_size step (start + step)
          (parts ++ [slice text start end_])
    end
  else Some parts.

(** [text = text or ""] leaves a [str] as it is. *)
Definition chunk_text (text : list A) (chunk_size overlap : Z)
  : outcome (list (list A)) :=
  if chunk_size <=? 0 then Raise (ValueError "chunk_size must be > 0")
  else if overlap <? 0 then Raise (ValueError "overlap must be >= 0")
  else if overlap >=? chunk_size
       then Raise (ValueError "overlap must be < chunk_size")
  else
    let n := Z.of_nat (length text) in
    if n =? 0 then Ok []
    else if overlap =? 0 then
      let no_of_chunks := no_of_chunks n chunk_size in
      Ok (partition_loop text chunk_size (Z.to_nat no_of_chunks)
            0 chunk_size [])
    else
      let step := chunk_size - overlap in
      match window_loop (length text) text n chunk_size step 0 [] with
      | Some parts => Ok parts
      | None => OutOfFuel
      end.

(** ** The windows, as offsets

    [windows_from m start] lists [m] windows of width [chunk_size]
    starting at [start] and advancing by [step], each clipped to the
    end of the text. *)
Fixpoint windows_from (n chunk_size step : Z) (m : nat) (start : Z)
  : list (Z * Z) :=
  match m with
  | O => []
  | S m' => (start, Z.min (start + chunk_size) n)
              :: windows_from n chunk_size step m' (start + step)
  end.

(** The windows the specification describes: starts [0, step, 2*step,
    ...] while [start < n], that is [ceil(n / step)] of them. *)
Definition chunk_windows (n chunk_size overlap : Z) : list (Z * Z) :=
  let step := chunk_size - overlap in
  windows_from n chunk_size step (Z.to_nat (ceil_div n step)) 0.

Definition cut (text : list A) (w : Z * Z) : list A :=
  slice text (fst w) (snd w).

(** Reassembly as the specification states it: keep the first chunk,
    drop the first [overlap] characters of every later one, and
    concatenate. *)
Definition reassemble (overlap : Z) (chunks : list (list A)) : list A :=
  match chunks with
  | [] => []
  | first :: rest =>
      first ++ concat (map (fun c => slice_from c overlap) rest)
  end.

End ChunkText.

(** Number of characters two consecutive windows have in common. *)
Definition shared (w w' : Z * Z) : Z := snd w - fst w'.

(** "Each window overlaps its successor by exactly [overlap] characters
    except possibly the last": every pair of neighbours other than the
    final pair shares exactly [overlap] characters. *)
Definition neighbours_share_exactly (overlap : Z) (ws : list (Z * Z)) : Prop :=
  forall k w w',
    nth_error ws k = Some w ->
    nth_error ws (S k) = Some w' ->
    (S (S k) < length ws)%nat ->
    shared w w' = overlap.

End Chunking.

(* ================================================================== *)
(** * llm/prompts.py *)
(* ================================================================== *)

Module Prompts.

(** Text written over several source lines: every line ends in a newline. *)
Definition unlines (ls : list str) : str := flat_map (fun l => l ++ [LF]) ls.

(** [d.get(key, default)] on a dict literal. *)
Fixpoint dict_get (d : list (str * str)) (key default : str) : str :=
  match d with
  | [] => default
  | (k, v) :: d' => if str_eqb k key then v else dict_get d' key default
  end.

Definition ROLE_PRESETS : list (str * str) :=
  [ (u "data_scientist",
     u "Actuás como Data Scientist senior en Deep Learning. Priorizás rigor y claridad.");
    (u "philosophy_expert",
     u "Actuás como experto en filosofía, enfocándote en ética y teorías filosóficas clave.");
    (u "history_professor",
     u "Actuás como profesor de historia, destacando eventos y contextos históricos importantes.");
    (u "data_engineer",
     u "Actuás como ingeniero de datos, optimizando flujos y asegurando calidad de datos.");
    (u "ai_engineer",
     u "Actuás como ingeniero de IA, implementando modelos y soluciones de inteligencia artificial.") ].

Definition OUTPUT_PRESETS : list (str * str) :=
  [ (u "apunte_detallado",
     u "Apunte bien detallado, con secciones, definiciones, y bullets claros.");
    (u "resumen",
     u "Resumen conciso del contenido principal, con puntos clave y definiciones esenciales.");
    (u "lista_de_conceptos",
     u "Lista de conceptos importantes mencionados en la lección, sin explicaciones.");
    (u "preguntas_de_revision",
     u "Preguntas de revisión para evaluar la comprensión del material cubierto en la lección.") ].

Definition BASE : str :=
  unlines
    [ u "Sos un asistente académico. Nada de frases de cortesía.";
      u "Tu objetivo es producir un documento útil para estudiar.";
      [];
      u "REGLAS:";
      u "- No inventes hechos. Si falta información, indicá incertidumbre.";
      u "- Priorizá claridad y estructura.";
      u "- Usá Markdown bien formateado (títulos, listas, tablas si aplica)." ].

Definition DEFAULT_ROLE : str :=
  u "Actuás como un asistente académico técnico y claro.".

Definition DEFAULT_OUTPUT : str :=
  u "Generá un apunte detallado, estructurado, sin redundancias.".

Definition build_prompt (language topic : str)
           (role_key role_custom output_key output_custom : option str) : str :=
  let role_txt :=
    or_str (strip (or_empty role_custom))
      (or_str (strip (dict_get ROLE_PRESETS (or_empty role_key) []))
         DEFAULT_ROLE) in
  let out_txt :=
    or_str (strip (or_empty output_custom))
      (or_str (strip (dict_get OUTPUT_PRESETS (or_empty output_key) []))
         DEFAULT_OUTPUT) in
  strip
    (BASE ++ [LF]
     ++ [LF]
     ++ u "IDIOMA: " ++ language ++ [LF]
     ++ u "TEMA/MATERIA: " ++ topic ++ [LF]
     ++ [LF]
     ++ u "ROL (contexto):" ++ [LF]
     ++ role_txt ++ [LF]
     ++ [LF]
     ++ u "TIPO DE SALIDA (requisitos):" ++ [LF]
     ++ out_txt ++ [LF]).

End Prompts.

(* ================================================================== *)
(** * llm/gemini_client.py and core.py *)
(* ================================================================== *)

Module Core.
Import Prompts Chunking.
Local Open Scope Z_scope.

(** Keyword arguments of both entry points; [None] is "not supplied" for
    the arguments that have a default other than [None]. *)
Record kwargs : Type := {
  language : option str;
  topic : option str;
  role_key : option str;
  role_custom : option str;
  output_key : option str;
  output_custom : option str;
  model : option str;
  chunk_size_chars : option Z;
  overlap_chars : option Z
}.

Definition arg_or {T} (default : T) (supplied : option T) : T :=
  match supplied with
  | Some v => v
  | None => default
  end.

Definition DEFAULT_LANGUAGE : str := u "es".
Definition DEFAULT_TOPIC : str := u "Clase".
Definition DEFAULT_MODEL : str := u "gemini-2.5-flash".
Definition DEFAULT_CHUNK_SIZE_CHARS : Z := 10000.
Definition DEFAULT_OVERLAP_CHARS : Z := 0.

(** The pair [(chunk_size, overlap)] the orchestrator hands to
    [chunk_text]. *)
Definition chunker_args (kw : kwargs) : Z * Z :=
  (arg_or DEFAULT_CHUNK_SIZE_CHARS (chunk_size_chars kw),
   arg_or DEFAULT_OVERLAP_CHARS (overlap_chars kw)).

(** [f"\nIMPORTANTE: Esta es la parte {i}/{total}. " "Mantené ..."] *)
Definition part_directive (i total : Z) : str :=
  [LF] ++ u "IMPORTANTE: Esta es la parte " ++ str_of_int i ++ u "/"
  ++ str_of_int total ++ u ". "
  ++ u "Mantené la salida breve y estructurada (máx ~1–2 páginas).".

(** The [output_custom] the loop builds for chunk [i]. *)
Definition per_chunk_output_custom (output_custom : option str) (i total : Z)
  : str :=
  let base := strip (or_empty output_custom) in
  let base := match base with
              | [] => base
              | _ :: _ => base ++ [LF]
              end in
  base ++ part_directive i total.

(** [f"## Parte {i}/{total}\n\n{md_i}"] *)
Definition part_heading (i total : Z) : str :=
  u "## Parte " ++ str_of_int i ++ u "/" ++ str_of_int total.

Definition SEPARATOR : str := [LF; LF] ++ u "---" ++ [LF; LF].

Definition TRIPLE_QUOTE : str := [DQUOTE; DQUOTE; DQUOTE].

Section Completion.
(** The completion service is external: it may answer differently each
    time and may raise.  [world] is whatever it depends on and changes. *)
Variable world : Type.

(** [get_client().models.generate_content(model=..., contents=...).text];
    the text of a response may be [None]. *)
Variable generate_content :
  str -> str -> world -> outcome (option str) * world.

Definition M (T : Type) : Type := world -> outcome T * world.

Definition ret {T} (x : T) : M T := fun w => (Ok x, w).

Definition raise {T} (e : exn) : M T := fun w => (Raise e, w).

Definition mbind {T U} (m : M T) (k : T -> M U) : M U :=
  fun w =>
    match m w with
    | (Ok x, w') => k x w'
    | (Raise e, w') => (Raise e, w')
    | (OutOfFuel, w') => (OutOfFuel, w')
    end.

Notation "x <- m ;; k" := (mbind m (fun x => k))
  (at level 61, m at next level, right associativity).

Definition lift {T} (o : outcome T) : M T := fun w => (o, w).

(** The completion service answers every call. *)
Definition always_answers : Prop :=
  forall model_name contents w, exists r w',
    generate_content model_name contents w = (Ok r, w').

(** gemini_client.py *)
Definition generate_text (prompt model_name : str) : M str :=
  resp_text <- generate_content model_name prompt ;;
  ret (strip (or_empty resp_text)).

Definition full_prompt (instructions text : str) : str :=
  strip
    (instructions ++ [LF]
     ++ [LF]
     ++ u "TEXTO:" ++ [LF]
     ++ TRIPLE_QUOTE ++ text ++ TRIPLE_QUOTE ++ [LF]
     ++ [LF]
     ++ u "INSTRUCCIONES:" ++ [LF]
     ++ u "- Generá la salida solicitada en Markdown." ++ [LF]
     ++ u "- No agregues saludos ni cierres." ++ [LF]).

Definition summarize_text_to_markdown (text : str) (kw : kwargs) : M str :=
  let text := strip text in
  match text with
  | [] => raise (ValueError "Input text is empty.")
  | _ :: _ =>
      let instructions :=
        build_prompt
          (arg_or DEFAULT_LANGUAGE (language kw))
          (arg_or DEFAULT_TOPIC (topic kw))
          (role_key kw) (role_custom kw)
          (output_key kw) (output_custom kw) in
      md <- generate_text (full_prompt instructions text)
              (arg_or DEFAULT_MODEL (model kw)) ;;
      ret (strip md)
  end.

(** The keyword arguments of the call made for chunk [i]: everything is
    passed on, except [output_custom]. *)
Definition per_chunk_kwargs (kw : kwargs) (i total : Z) : kwargs :=
  {| language := Some (arg_or DEFAULT_LANGUAGE (language kw));
     topic := Some (arg_or DEFAULT_TOPIC (topic kw));
     role_key := role_key kw;
     role_custom := role_custom kw;
     output_key := output_key kw;
     output_custom := Some (per_chunk_output_custom (output_custom kw) i total);
     model := Some (arg_or DEFAULT_MODEL (model kw));
     chunk_size_chars := None;
     overlap_chars := None |}.

(** [for i, ch in enumerate(chunks, start=1): ...] *)
Fixpoint summarize_chunks (kw : kwargs) (total : Z) (i : Z)
         (chunks : list str) (parts : list str) : M (list str) :=
  match chunks with
  | [] => ret parts
  | ch :: chunks' =>
      md_i <- summarize_text_to_markdown ch (per_chunk_kwargs kw i total) ;;
      summarize_chunks kw total (i + 1) chunks'
        (parts ++ [strip (part_heading i total ++ [LF; LF] ++ md_i)])
  end.

Definition summarize_long_text_to_markdown (text : str) (kw : kwargs)
  : M str :=
  let text := strip text in
  match text with
  | [] => raise (ValueError "Input text is empty.")
  | _ :: _ =>
      chunks <- lift (chunk_text text (fst (chunker_args kw))
                        (snd (chunker_args kw))) ;;
      match chunks with
      | [] => ret []
      | _ :: _ =>
          let total := Z.of_nat (length chunks) in
          parts <- summarize_chunks kw total 1 chunks [] ;;
          ret (strip (join SEPARATOR parts))
      end
  end.

(** The parts the loop appends, given the completion of each chunk. *)
Fixpoint sections (total : Z) (i : Z) (bodies : list str) : list str :=
  match bodies with
  | [] => []
  | md_i :: bodies' =>
      strip (part_heading i total ++ [LF; LF] ++ md_i)
        :: sections total (i + 1) bodies'
  end.

End Completion.

Arguments sections total i bodies : clear implicits.

(** The same call with other chunking arguments. *)
Definition with_chunking (kw : kwargs) (chunk_size overlap : option Z)
  : kwargs :=
  {| language := language kw; topic := topic kw;
     role_key := role_key kw; role_custom := role_custom kw;
     output_key := output_key kw; output_custom := output_custom kw;
     model := model kw;
     chunk_size_chars := chunk_size; overlap_chars := overlap |}.

(** The same call with another output preset. *)
Definition with_output_key (kw : kwargs) (key : option str) : kwargs :=
  {| language := language kw; topic := topic kw;
     role_key := role_key kw; role_custom := role_custom kw;
     output_key := key; output_custom := output_custom kw;
     model := model kw;
     chunk_size_chars := chunk_size_chars kw;
     overlap_chars := overlap_chars kw |}.

(** No keyword argument supplied. *)
Definition no_kwargs : kwargs :=
  {| language := None; topic := None; role_key := None; role_custom := None;
     output_key := None; output_custom := None; model := None;
     chunk_size_chars := None; overlap_chars := None |}.

(** A completion service that records every prompt it is sent and answers
    with a fixed text. *)
Definition recording (answer : str) (model_name contents : str)
           (log : list str) : outcome (option str) * list str :=
  (Ok (Some answer), log ++ [contents]).

End Core.

(* ================================================================== *)
(** * pdf_export.py *)
(* ================================================================== *)

Module PdfExport.

Local Open Scope N_scope.

Definition AMP : char := 38.        (* & *)
Definition LT : char := 60.         (* < *)
Definition GT : char := 62.         (* > *)
Definition STAR : char := 42.       (* * *)
Definition BACKTICK : char := 96.
Definition HYPHEN : char := 45.     (* - *)
Definition HASH : char := 35.       (* # *)
Definition BULLET : char := 8226.   (* U+2022 *)
Definition EN_DASH : char := 8211.  (* U+2013 *)
Definition EM_DASH : char := 8212.  (* U+2014 *)

(** ** Regular expressions

    [re.sub(pattern, repl, s)] scans [s] from the left; at each position it
    tries the pattern, and on a match emits the replacement and resumes
    after the match, otherwise it copies the character.  None of the three
    patterns used here matches the empty string.

    A pattern is given by [match_at prev s]: whether it matches at the
    head of [s], where [prev] is the character before (for the
    look-behind), and if so its group 1 and the length of the match.
    [repl] is the replacement callback, with the state it keeps. *)
Section ReSub.
Variable St : Type.
Variable match_at : option char -> str -> option (str * nat).
Variable repl : St -> str -> St * str.

Fixpoint re_sub_go (skip : nat) (prev : option char) (st : St) (s : str)
  : St * str :=
  match s with
  | [] => (st, [])
  | c :: r =>
      match skip with
      | S k => re_sub_go k (Some c) st r
      | O =>
          match match_at prev s with
          | Some (group1, len) =>
              let (st', out) := repl st group1 in
              let (st'', rest) := re_sub_go (len - 1) (Some c) st' r in
              (st'', out ++ rest)
          | None =>
              let (st', rest) := re_sub_go 0 (Some c) st r in
              (st', c :: rest)
          end
      end
  end.

Definition re_sub (st : St) (s : str) : St * str := re_sub_go 0 None st s.
End ReSub.

(** The longest prefix without [stop], and what follows it: what a greedy
    [[^stop]*] consumes. *)
Fixpoint span_until (stop : char) (s : str) : str * str :=
  match s with
  | [] => ([], [])
  | c :: r =>
      if char_eqb c stop then ([], s)
      else let (g, rest) := span_until stop r in (c :: g, rest)
  end.

(** Inline code: a backtick, one or more characters other than a
    backtick, a backtick. *)
Definition match_code (prev : option char) (s : str) : option (str * nat) :=
  match s with
  | c :: r =>
      if char_eqb c BACKTICK then
        match span_until BACKTICK r with
        | ((_ :: _) as g, c' :: _) =>
            if char_eqb c' BACKTICK then Some (g, (length g + 2)%nat) else None
        | _ => None
        end
      else None
  | [] => None
  end.

(** Bold: two stars, one or more characters other than a star, two
    stars. *)
Definition match_bold (prev : option char) (s : str) : option (str * nat) :=
  match s with
  | c1 :: c2 :: r =>
      if char_eqb c1 STAR && char_eqb c2 STAR then
        match span_until STAR r with
        | ((_ :: _) as g, d1 :: d2 :: _) =>
            if char_eqb d1 STAR && char_eqb d2 STAR
            then Some (g, (length g + 4)%nat) else None
        | _ => None
        end
      else None
  | _ => None
  end.

Definition is_star (o : option char) : bool :=
  match o with
  | Some c => char_eqb c STAR
  | None => false
  end.

(** Italic: a star that no star precedes, one or more characters other
    than a star, and a star that no star follows. *)
Definition match_italic (prev : option char) (s : str) : option (str * nat) :=
  match s with
  | c :: r =>
      if negb (is_star prev) && char_eqb c STAR then
        match span_until STAR r with
        | ((_ :: _) as g, d :: after) =>
            if char_eqb d STAR && negb (is_star (hd_error after))
            then Some (g, (length g + 2)%nat) else None
        | _ => None
        end
      else None
  | [] => None
  end.

(** ** Inline formatting *)

Definition esc (s : str) : str :=
  replace (replace (replace s [AMP] (u "&amp;")) [LT] (u "&lt;"))
    [GT] (u "&gt;").

(** [f"@@CODE{i}@@"] *)
Definition code_placeholder (i : nat) : str :=
  u "@@CODE" ++ str_of_int (Z.of_nat i) ++ u "@@".

(** [_code_repl]: append the span to [code_spans], return its placeholder. *)
Definition _code_repl (code_spans : list str) (group1 : str)
  : list str * str :=
  let code_spans' := code_spans ++ [group1] in
  (code_spans', code_placeholder (length code_spans' - 1)).

(** A replacement template [open \1 close]. *)
Definition wrap (open close : str) (st : unit) (group1 : str) : unit * str :=
  (st, open ++ group1 ++ close).

Definition FONT_OPEN : str :=
  u "<font face=" ++ [DQUOTE] ++ u "Courier" ++ [DQUOTE] ++ u ">".
Definition FONT_CLOSE : str := u "</font>".

(** [for i, code in enumerate(code_spans): s = s.replace(...)] *)
Fixpoint restore_code_spans (i : nat) (code_spans : list str) (s : str) : str :=
  match code_spans with
  | [] => s
  | code :: rest =>
      restore_code_spans (S i) rest
        (replace s (code_placeholder i) (FONT_OPEN ++ code ++ FONT_CLOSE))
  end.

Definition extract_code (s : str) : list str * str :=
  re_sub match_code _code_repl [] s.
Definition sub_bold (s : str) : str :=
  snd (re_sub match_bold (wrap (u "<b>") (u "</b>")) tt s).
Definition sub_italic (s : str) : str :=
  snd (re_sub match_italic (wrap (u "<i>") (u "</i>")) tt s).

(** Everything [md_inline_to_rl] does after escaping. *)
Definition insert_tags (s : str) : str :=
  let (code_spans, s) := extract_code s in
  let s := sub_bold s in
  let s := sub_italic s in
  restore_code_spans 0 code_spans s.

Definition md_inline_to_rl (s : str) : str := insert_tags (esc s).

(** ** Blocks *)

Inductive style : Type := h1 | h2 | h3 | h4 | h5 | h6 | body.

(** The ReportLab flowables the renderer builds.  [ListFlowable] is always
    built with [bulletType="bullet"]. *)
#[local] Set Warnings "-register-all".
Inductive flowable : Type :=
| Paragraph (markup : str) (st : style)
| Spacer (width height : Z)
| ListItem (content : flowable)
| ListFlowable (items : list flowable) (leftIndent : Z).

(** Preprocessing of one raw line. *)
Definition normalize_line (ln : str) : str :=
  let s := rstrip ln in
  replace (replace (replace s [BULLET; SPACE] [HYPHEN; SPACE])
             [EN_DASH; SPACE] [HYPHEN; SPACE])
    [EM_DASH; SPACE] [HYPHEN; SPACE].

(** The two variables the main loop updates. *)
Record state : Type := {
  story : list flowable;
  pending_bullets : list str
}.

Definition append (f : flowable) (st : state) : state :=
  {| story := story st ++ [f]; pending_bullets := pending_bullets st |}.

Definition flush_bullets (st : state) : state :=
  match pending_bullets st with
  | [] => st
  | _ :: _ =>
      {| story :=
           story st
           ++ [ListFlowable
                 (map (fun item => ListItem (Paragraph (md_inline_to_rl item) body))
                    (pending_bullets st))
                 18;
               Spacer 1 8];
         pending_bullets := [] |}
  end.

Definition heading_prefixes : list (str * style) :=
  [ (u "# ", h1); (u "## ", h2); (u "### ", h3);
    (u "#### ", h4); (u "##### ", h5); (u "###### ", h6) ].

(** The chain of [if line.startswith("#... "): ...; continue] and the final
    paragraph. *)
Fixpoint heading_or_paragraph (prefixes : list (str * style)) (line : str)
  : flowable :=
  match prefixes with
  | [] => Paragraph (md_inline_to_rl line) body
  | (prefix, st) :: rest =>
      if startswith line prefix
      then Paragraph (md_inline_to_rl (slice_from line (Z.of_nat (length prefix)))) st
      else heading_or_paragraph rest line
  end.

(** One iteration of [for raw in lines]. *)
Definition render_line (st : state) (raw : str) : state :=
  let line := strip raw in
  match line with
  | [] => append (Spacer 1 10) (flush_bullets st)
  | _ :: _ =>
      if str_eqb line (u "---") then append (Spacer 1 14) (flush_bullets st)
      else if startswith line (u "- ") || startswith line (u "* ") then
        {| story := story st;
           pending_bullets := pending_bullets st ++ [strip (slice_from line 2)] |}
      else append (heading_or_paragraph heading_prefixes line) (flush_bullets st)
  end.

(** The list handed to [doc.build].  What ReportLab then does with it,
    the parsing of each paragraph's markup included, is outside the model. *)
Definition markdown_to_story (md : str) : list flowable :=
  let md := strip md in
  let lines := map normalize_line (splitlines md) in
  let st := fold_left render_line lines
              {| story := []; pending_bullets := [] |} in
  story (flush_bullets st).

Section Build.
(** ReportLab's layout of a story into the bytes of a PDF is external. *)
Variable doc_build : str -> list flowable -> list N.

Definition markdown_to_pdf_bytes (md : str) (title : option str) : list N :=
  doc_build (Core.arg_or (u "Resumen") title) (markdown_to_story md).
End Build.

(** ** The blocks of the specification *)

Inductive block : Type :=
| Heading (level : nat) (text : str)
| ParagraphBlock (text : str)
| BulletList (items : list str)
| Break (height : Z).

Definition style_level (st : style) : option nat :=
  match st with
  | h1 => Some 1%nat | h2 => Some 2%nat | h3 => Some 3%nat
  | h4 => Some 4%nat | h5 => Some 5%nat | h6 => Some 6%nat
  | body => None
  end.

Definition item_text (f : flowable) : str :=
  match f with
  | ListItem (Paragraph markup _) => markup
  | _ => []
  end.

Definition block_of (f : flowable) : block :=
  match f with
  | Paragraph markup st =>
      match style_level st with
      | Some level => Heading level markup
      | None => ParagraphBlock markup
      end
  | Spacer _ height => Break height
  | ListItem _ => BulletList [item_text f]
  | ListFlowable items _ => BulletList (map item_text items)
  end.

Definition is_break (b : block) : bool :=
  match b with
  | Break _ => true
  | _ => false
  end.

(** The blocks other than spacing, in order. *)
Definition content_blocks (fs : list flowable) : list block :=
  filter (fun b => negb (is_break b)) (map block_of fs).

(** ** Markup produced by the inline formatter

    A well-escaped markup string is a sequence of: characters other than
    [&], [<], [>]; the three entities; and the six tags the formatter
    inserts. *)
Definition is_markup_char (c : char) : bool :=
  char_eqb c AMP || char_eqb c LT || char_eqb c GT.

Definition entities : list str := [u "&amp;"; u "&lt;"; u "&gt;"].

Definition tags : list str :=
  [u "<b>"; u "</b>"; u "<i>"; u "</i>"; FONT_OPEN; FONT_CLOSE].

Inductive well_escaped : str -> Prop :=
| we_nil : well_escaped []
| we_char c s :
    is_markup_char c = false -> well_escaped s -> well_escaped (c :: s)
| we_entity e s :
    In e entities -> well_escaped s -> well_escaped (e ++ s)
| we_tag t s :
    In t tags -> well_escaped s -> well_escaped (t ++ s).

(** A delimiter is a character that is no markup character and occurs in
    no entity and in no inserted tag: wherever it stands in well-escaped
    markup, it stands for itself. *)
Definition avoids (d : char) (t : str) : bool := negb (existsb (char_eqb d) t).

Definition is_delim (d : char) : bool :=
  negb (is_markup_char d) && forallb (avoids d) (entities ++ tags).

Definition AT_SIGN : char := 64.

(** [str.replace] as a scan: the pattern is the literal [old], the
    replacement ignores the match. *)
Definition match_literal (old : str) (prev : option char) (s : str)
  : option (str * nat) :=
  if startswith s old then Some ([], length old) else None.

Definition put (new : str) (st : unit) (group1 : str) : unit * str := (st, new).

(** What [esc] does to one character. *)
Definition esc_char (c : char) : str :=
  if char_eqb c AMP then u "&amp;"
  else if char_eqb c LT then u "&lt;"
  else if char_eqb c GT then u "&gt;"
  else [c].

(** A byte of a decimal numeral: ASCII, and no markup character. *)
Definition digitish (b : N) : Prop := b < 128 /\ is_markup_char b = false.

(** The output of [esc]: no tag at all. *)
Inductive escaped_text : str -> Prop :=
| et_nil : escaped_text []
| et_char c s :
    is_markup_char c = false -> escaped_text s -> escaped_text (c :: s)
| et_entity e s :
    In e entities -> escaped_text s -> escaped_text (e ++ s).

(** ** The preprocessing, character by character

    A glyph that a space follows becomes a hyphen; nothing else changes. *)
Definition is_glyph (c : char) : bool :=
  char_eqb c BULLET || char_eqb c EN_DASH || char_eqb c EM_DASH.

Definition next_is_space (r : str) : bool :=
  match r with
  | c :: _ => char_eqb c SPACE
  | [] => false
  end.

(** One of the three replacements. *)
Fixpoint dashify_one (g : char) (s : str) : str :=
  match s with
  | [] => []
  | c :: r =>
      (if char_eqb c g && next_is_space r then HYPHEN else c) :: dashify_one g r
  end.

(** The three together. *)
Fixpoint dashify (s : str) : str :=
  match s with
  | [] => []
  | c :: r =>
      (if is_glyph c && next_is_space r then HYPHEN else c) :: dashify r
  end.

End PdfExport.

(* ================================================================== *)
(** * Parts of the prompt and of a run, named *)
(* ================================================================== *)

Module PromptParts.
Import Prompts.

(** The [role_txt] of [build_prompt]. *)
Definition role_text (role_key role_custom : option str) : str :=
  or_str (strip (or_empty role_custom))
    (or_str (strip (dict_get ROLE_PRESETS (or_empty role_key) []))
       DEFAULT_ROLE).

(** The [out_txt] of [build_prompt]. *)
Definition output_text (output_key output_custom : option str) : str :=
  or_str (strip (or_empty output_custom))
    (or_str (strip (dict_get OUTPUT_PRESETS (or_empty output_key) []))
       DEFAULT_OUTPUT).

(** The keys of a dict literal. *)
Definition keys (d : list (str * str)) : list str := map fst d.

End PromptParts.

Module RunParts.
Import Prompts Core.
Local Open Scope Z_scope.

(** A completion service that raises [e] on every call. *)
Definition failing (world : Type) (e : exn) (model_name contents : str)
           (w : world) : outcome (option str) * world :=
  (Raise e, w).

(** The prompt [summarize_text_to_markdown] sends for chunk [i]. *)
Definition chunk_prompt (kw : kwargs) (total i : Z) (ch : str) : str :=
  let pk := per_chunk_kwargs kw i total in
  full_prompt
    (build_prompt (arg_or DEFAULT_LANGUAGE (language pk))
       (arg_or DEFAULT_TOPIC (topic pk))
       (role_key pk) (role_custom pk) (output_key pk) (output_custom pk))
    (strip ch).

(** The prompts of a whole run, chunk by chunk from index [i]. *)
Fixpoint chunk_prompts (kw : kwargs) (total i : Z) (chunks : list str)
  : list str :=
  match chunks with
  | [] => []
  | ch :: chunks' => chunk_prompt kw total i ch :: chunk_prompts kw total (i + 1) chunks'
  end.

(** The message of the error raised for a blank text. *)
Definition EMPTY_INPUT : exn := ValueError "Input text is empty.".

End RunParts.

(* ================================================================== *)
(** * Views of a story *)
(* ================================================================== *)

Module RenderParts.
Import PdfExport.

(** A character the inline formatter gives no meaning to. *)
Definition is_inert (c : char) : bool :=
  negb (is_markup_char c || char_eqb c STAR || char_eqb c BACKTICK).

(** A character other than [&]. *)
Definition no_amp (c : char) : Prop := c <> AMP.

(** The characters the insertion of tags looks for or writes: the two
    delimiters, the characters of the placeholders and those of the six
    tags. *)
Definition insertion_alphabet : str :=
  [STAR; BACKTICK] ++ u "@CODE-0123456789" ++ concat tags.

Definition in_alphabet (c : char) : bool :=
  existsb (char_eqb c) insertion_alphabet.

(** Writing [z] for [&] and [&] for [z]. *)
Definition swap_amp (z c : char) : char :=
  if char_eqb c AMP then z else if char_eqb c z then AMP else c.

(** A match in a renamed text. *)
Definition rename_match (rho : char -> char) (m : option (str * nat))
  : option (str * nat) :=
  option_map (fun p => (map rho (fst p), snd p)) m.

(** How often a character occurs in a text. *)
Definition count_char (d : char) (s : str) : nat :=
  length (filter (char_eqb d) s).

(** The style of a heading with [k] hashes, if there is one. *)
Definition heading_style (k : nat) : option style :=
  match k with
  | 1 => Some h1 | 2 => Some h2 | 3 => Some h3
  | 4 => Some h4 | 5 => Some h5 | 6 => Some h6
  | _ => None
  end.

(** The three kinds of line the main loop tells apart besides headings and
    paragraphs. *)
Definition is_blank_line (raw : str) : bool :=
  match strip raw with
  | [] => true
  | _ :: _ => false
  end.

Definition is_rule_line (raw : str) : bool := str_eqb (strip raw) (u "---").

Definition is_bullet_line (raw : str) : bool :=
  startswith (strip raw) (u "- ") || startswith (strip raw) (u "* ").

(** A line that becomes a heading or a paragraph. *)
Definition is_text_line (raw : str) : bool :=
  negb (is_blank_line raw) && negb (is_rule_line raw)
  && negb (is_bullet_line raw).

(** The markup of the item a bullet line becomes. *)
Definition item_markup (raw : str) : str :=
  md_inline_to_rl (strip (slice_from (strip raw) 2)).

(** The markup of all list items of a story, in order. *)
Definition story_items (fs : list flowable) : list str :=
  flat_map (fun f => match f with
                     | ListFlowable items _ => map item_text items
                     | _ => []
                     end) fs.

(** The paragraphs and headings of a story, in order. *)
Definition story_paragraphs (fs : list flowable) : list flowable :=
  filter (fun f => match f with
                   | Paragraph _ _ => true
                   | _ => false
                   end) fs.

(** The lines the main loop iterates over. *)
Definition story_lines (md : str) : list str :=
  map normalize_line (splitlines (strip md)).

(** The heading or paragraph a text line becomes. *)
Definition text_block (raw : str) : flowable :=
  heading_or_paragraph heading_prefixes (strip raw).

(** What the loop has built after some lines: the items in the story and
    the pending ones are the bullet lines so far, and the paragraphs and
    headings of the story are the blocks of the text lines so far. *)
Definition story_invariant (st : state) (lines : list str) : Prop :=
  story_items (story st) ++ map md_inline_to_rl (pending_bullets st)
  = map item_markup (filter is_bullet_line lines)
  /\ story_paragraphs (story st) = map text_block (filter is_text_line lines).

End RenderParts.

(* ================================================================== *)
(** * app/streamlit_app.py: file names *)
(* ================================================================== *)

Module StreamlitApp.
Import PdfExport.
Local Open Scope N_scope.

Definition in_range (lo hi c : char) : bool := (lo <=? c) && (c <=? hi).

(** The class "A-Za-z0-9._-". *)
Definition is_safe_char (c : char) : bool :=
  in_range 65 90 c || in_range 97 122 c || in_range 48 57 c
  || (c =? 46) || (c =? 95) || (c =? 45).

(** The longest prefix of characters satisfying [p], and what follows. *)
Fixpoint span_while (p : char -> bool) (s : str) : str * str :=
  match s with
  | [] => ([], [])
  | c :: r =>
      if p c then let (g, rest) := span_while p r in (c :: g, rest)
      else ([], s)
  end.

(** One or more white-space characters, as many as there are.  In a [str]
    pattern the white-space class is the one of [str.isspace]. *)
Definition match_spaces (prev : option char) (s : str) : option (str * nat) :=
  match span_while is_space s with
  | ([], _) => None
  | ((_ :: _) as g, _) => Some ([], length g)
  end.

(** One character outside the safe class. *)
Definition match_unsafe (prev : option char) (s : str) : option (str * nat) :=
  match s with
  | [] => None
  | c :: _ => if is_safe_char c then None else Some ([], 1%nat)
  end.

Definition DOCUMENTO : str := u "documento".

(** The two substitutions seen as one pass over the trimmed name: every
    run of white space gives a single underscore ([in_run] says that the
    previous character was white space), and of the result the safe
    characters are kept.  [safe_filename_pass] proves that this is what
    the two [re.sub] calls compute. *)
Fixpoint underscore_runs (in_run : bool) (s : str) : str :=
  match s with
  | [] => []
  | c :: r =>
      if is_space c
      then if in_run then underscore_runs true r
           else 95 :: underscore_runs true r
      else c :: underscore_runs false r
  end.

(** A character that is neither safe nor white space. *)
Definition is_junk (c : char) : bool := negb (is_safe_char c) && negb (is_space c).

(** [name or ""] leaves a [str] as it is. *)
Definition _safe_filename (name : str) : str :=
  let name := strip name in
  match name with
  | [] => DOCUMENTO
  | _ :: _ =>
      let name := snd (re_sub match_spaces (put (u "_")) tt name) in
      let name := snd (re_sub match_unsafe (put []) tt name) in
      or_str name DOCUMENTO
  end.

End StreamlitApp.

(* ================================================================== *)
(** * transcription/audio.py and transcription/youtube.py *)
(* ================================================================== *)

Module Transcription.
Import PdfExport.

(** The exceptions of these two files: the two they raise themselves and
    whatever yt-dlp or Whisper raise. *)
Inductive exc : Type :=
| ValueError (msg : str)
| FileNotFoundError (msg : str)
| LibraryError (msg : string).

Arguments LibraryError msg%_string.

Inductive res (A : Type) : Type :=
| Done (a : A)
| Raised (e : exc).

Arguments Done {A} a.
Arguments Raised {A} e.

(** ** Cleaning a WebVTT file *)

(** A tag: [<], one or more characters other than [>], and [>]. *)
Definition match_tag (prev : option char) (s : str) : option (str * nat) :=
  match s with
  | c :: r =>
      if char_eqb c LT then
        match span_until GT r with
        | ((_ :: _) as g, c' :: _) =>
            if char_eqb c' GT then Some ([], (length g + 2)%nat) else None
        | _ => None
        end
      else None
  | [] => None
  end.

Definition strip_tags (s : str) : str := snd (re_sub match_tag (put []) tt s).

Section Vtt.
(** Membership in the digit class of a [str] pattern, that is the Unicode
    decimal digits; the table belongs to Python. *)
Variable is_decimal : char -> bool.

(** [re.fullmatch] of one or more digits. *)
Definition is_cue_index (s : str) : bool :=
  match s with
  | [] => false
  | _ :: _ => forallb is_decimal s
  end.

(** The body of the loop: the text a raw line contributes, if any. *)
Definition vtt_line (raw : str) : option str :=
  let s := strip raw in
  match s with
  | [] => None
  | _ :: _ =>
      if startswith s (u "WEBVTT") then None
      else if contains s (u "-->") then None
      else if is_cue_index s then None
      else Some (strip_tags s)
  end.

Definition _clean_vtt_to_text (vtt : str) : str :=
  let lines :=
    fold_left (fun lines raw =>
                 match vtt_line raw with
                 | Some s => lines ++ [s]
                 | None => lines
                 end)
      (splitlines vtt) [] in
  strip (join [SPACE] lines).

(** Subtitles that are missing, or that clean to nothing. *)
Definition no_text (r : option str) : Prop :=
  r = None \/ exists vtt, r = Some vtt /\ _clean_vtt_to_text vtt = [].
End Vtt.

(** ** Transcribing an audio file *)

Record WhisperConfig : Type := {
  model_size : str;
  device : str;
  compute_type : str
}.

Definition default_config : WhisperConfig :=
  {| model_size := u "small"; device := u "cpu"; compute_type := u "int8" |}.

(** [[seg.text.strip() for seg in segments if seg.text and seg.text.strip()]] *)
Definition text_parts (segment_texts : list (option str)) : list str :=
  flat_map (fun o =>
              match o with
              | Some ((_ :: _) as t) =>
                  match strip t with
                  | [] => []
                  | _ :: _ => [strip t]
                  end
              | _ => []
              end) segment_texts.

(** The options handed to yt-dlp, without the output template, which names
    a temporary directory. *)
Record ydl_opts : Type := {
  skip_download : bool;
  quiet : bool;
  writesubtitles : bool;
  writeautomaticsub : bool;
  subtitlesformat : str;
  subtitleslangs : option (list str)
}.

Definition subtitle_opts (prefer_manual : bool) (lang : option str) : ydl_opts :=
  {| skip_download := true;
     quiet := true;
     writesubtitles := prefer_manual;
     writeautomaticsub := negb prefer_manual;
     subtitlesformat := u "vtt";
     subtitleslangs :=
       match lang with
       | Some ((_ :: _) as l) =>
           Some [l; l ++ u "-ES"; l ++ u "-419"; l ++ u "-US"]
       | _ => None
       end |}.

Section Effects.
Variable world : Type.
Variable is_decimal : char -> bool.

(** [os.path.exists] *)
Variable path_exists : str -> world -> bool.

(** The cached Whisper model applied to a file with [vad_filter=True]: the
    [text] of each segment, in order. *)
Variable whisper_segments :
  WhisperConfig -> str -> option str -> world -> res (list (option str)) * world.

(** yt-dlp run with the given options into a fresh temporary directory: the
    contents of the first "subs*.vtt" file in sorted order, if there is
    one. *)
Variable ydl_first_vtt : str -> ydl_opts -> world -> res (option str) * world.

(** [_download_audio_for_whisper]: the path of a WAV file that outlives the
    download directory. *)
Variable _download_audio_for_whisper : str -> world -> res str * world.

(** [os.remove] with its [OSError] swallowed. *)
Variable remove_quietly : str -> world -> world.

Definition T (A : Type) : Type := world -> res A * world.

Definition tret {A} (x : A) : T A := fun w => (Done x, w).
Definition traise {A} (e : exc) : T A := fun w => (Raised e, w).
Definition tbind {A B} (m : T A) (k : A -> T B) : T B :=
  fun w =>
    match m w with
    | (Done x, w') => k x w'
    | (Raised e, w') => (Raised e, w')
    end.

(** [try: return body finally: cleanup] *)
Definition finally {A} (body : T A) (cleanup : world -> world) : T A :=
  fun w => let (r, w') := body w in (r, cleanup w').

Definition transcribe_audio_file (file_path : str) (language : option str)
           (cfg : WhisperConfig) : T str :=
  fun w =>
    match file_path with
    | [] => (Raised (FileNotFoundError (u "No existe el archivo: " ++ file_path)), w)
    | _ :: _ =>
        if negb (path_exists file_path w)
        then (Raised (FileNotFoundError (u "No existe el archivo: " ++ file_path)), w)
        else
          tbind (whisper_segments cfg file_path language)
            (fun texts => tret (strip (join [SPACE] (text_parts texts)))) w
    end.

(** [x or None] *)
Definition or_none (s : str) : option str :=
  match s with
  | [] => None
  | _ :: _ => Some s
  end.

Definition _download_subtitles (url : str) (prefer_manual : bool)
           (lang : option str) : T (option str) :=
  tbind (ydl_first_vtt url (subtitle_opts prefer_manual lang))
    (fun vtt =>
       match vtt with
       | None => tret None
       | Some vtt_text => tret (or_none (_clean_vtt_to_text is_decimal vtt_text))
       end).

(** [if txt:] on an optional string *)
Definition truthy (txt : option str) : bool :=
  match txt with
  | Some (_ :: _) => true
  | _ => false
  end.

Definition EMPTY_URL : exc := ValueError (u "URL de YouTube vacía.").

Definition get_youtube_text (url : str) (subtitles_lang whisper_lang : option str)
  : T str :=
  let url := strip url in
  match url with
  | [] => traise EMPTY_URL
  | _ :: _ =>
      tbind (_download_subtitles url true subtitles_lang) (fun txt =>
      if truthy txt then tret (or_empty txt)
      else
        tbind (_download_subtitles url false subtitles_lang) (fun txt =>
        if truthy txt then tret (or_empty txt)
        else
          tbind (_download_audio_for_whisper url) (fun wav_path =>
          finally (transcribe_audio_file wav_path whisper_lang default_config)
            (remove_quietly wav_path))))
  end.

End Effects.

End Transcription.

(* ================================================================== *)
(** * A scripted environment for the transcription code *)
(* ================================================================== *)

Module Scripted.
Import Transcription.

(** The world is the log of what was done to it. *)
Definition world : Type := list string.

Definition ascii_digit (c : char) : bool := StreamlitApp.in_range 48%N 57%N c.

Definition every_file_exists (path : str) (w : world) : bool := true.

Definition no_file_exists (path : str) (w : world) : bool := false.

Definition segments (texts : res (list (option str)))
           (cfg : WhisperConfig) (path : str) (language : option str)
           (w : world) : res (list (option str)) * world :=
  (texts, w ++ ["whisper"%string]).

Definition subtitles (manual auto : res (option str))
           (url : str) (opts : ydl_opts) (w : world)
  : res (option str) * world :=
  if writesubtitles opts then (manual, w ++ ["manual"%string])
  else (auto, w ++ ["auto"%string]).

Definition audio_at (path : str) (url : str) (w : world) : res str * world :=
  (Done path, w ++ ["audio"%string]).

Definition remove_logged (path : str) (w : world) : world :=
  w ++ ["remove"%string].

End Scripted.

(* ================================================================== *)
(** * Properties *)
(* ================================================================== *)

(** ** Slices *)

Section SliceFacts.
Context {A : Type}.
Implicit Types (s : list A) (a b c k : nat).

Lemma slice_sub s (lo hi : Z) :
  (0 <= lo)%Z -> (0 <= hi)%Z ->
  slice s lo hi =
    sub s (Nat.min (Z.to_nat lo) (length s)) (Nat.min (Z.to_nat hi) (length s)).
Proof.
  intros Hlo Hhi. unfold slice, sub, clamp_index.
  destruct (Z.ltb_spec lo 0); [lia|]. destruct (Z.ltb_spec hi 0); [lia|].
  f_equal; [|f_equal]; lia.
Qed.

Lemma firstn_plus (l : list A) p q :
  firstn (p + q) l = firstn p l ++ firstn q (skipn p l).
Proof.
  revert l. induction p as [|p IH]; intros [|x l]; simpl; trivial.
  - now rewrite firstn_nil.
  - now rewrite IH.
Qed.

Lemma sub_length s a b : a <= b -> b <= length s -> length (sub s a b) = b - a.
Proof.
  intros Hab Hb. unfold sub. rewrite length_firstn, length_skipn. lia.
Qed.

Lemma sub_app s a b c : a <= b -> b <= c -> sub s a b ++ sub s b c = sub s a c.
Proof.
  intros Hab Hbc. unfold sub.
  replace (c - a) with ((b - a) + (c - b)) by lia.
  rewrite firstn_plus, skipn_skipn.
  replace (b - a + a) with b by lia. reflexivity.
Qed.

Lemma sub_all s : sub s 0 (length s) = s.
Proof. unfold sub. rewrite Nat.sub_0_r. simpl. apply firstn_all. Qed.

Lemma sub_skipn s a b k :
  a <= b -> b <= length s -> skipn k (sub s a b) = sub s (Nat.min (a + k) b) b.
Proof.
  intros Hab Hb. unfold sub.
  rewrite skipn_firstn_comm, skipn_skipn.
  destruct (Nat.le_ge_cases (a + k) b) as [Hk|Hk].
  - rewrite Nat.min_l by lia.
    replace (k + a) with (a + k) by lia.
    f_equal. lia.
  - rewrite Nat.min_r by lia.
    replace (b - a - k) with 0 by lia.
    replace (b - b) with 0 by lia. reflexivity.
Qed.

Lemma slice_length s (lo hi : Z) :
  (0 <= lo <= hi)%Z -> (hi <= Z.of_nat (length s))%Z ->
  Z.of_nat (length (slice s lo hi)) = (hi - lo)%Z.
Proof.
  intros H1 H2. rewrite slice_sub by lia. rewrite sub_length by lia. lia.
Qed.

Lemma slice_clip s (lo hi : Z) :
  (0 <= lo)%Z -> (0 <= hi)%Z ->
  slice s lo hi = slice s lo (Z.min hi (Z.of_nat (length s))).
Proof.
  intros. rewrite !slice_sub by lia. f_equal. lia.
Qed.

Lemma slice_app s (x y z : Z) :
  (0 <= x <= y)%Z -> (y <= z)%Z ->
  slice s x y ++ slice s y z = slice s x z.
Proof.
  intros. rewrite !slice_sub by lia. apply sub_app; lia.
Qed.

Lemma slice_empty s (x : Z) : (0 <= x)%Z -> slice s x x = [].
Proof.
  intros. rewrite slice_sub by lia. unfold sub.
  now replace (_ - _) with 0 by lia.
Qed.

Lemma slice_all s : slice s 0 (Z.of_nat (length s)) = s.
Proof.
  rewrite slice_sub by lia. rewrite Nat2Z.id, Nat.min_id. simpl. apply sub_all.
Qed.

(** Dropping the first [k] characters of a window. *)
Lemma slice_from_slice s (x y k : Z) :
  (0 <= x <= y)%Z -> (y <= Z.of_nat (length s))%Z -> (0 <= k)%Z ->
  slice_from (slice s x y) k = slice s (Z.min (x + k) y) y.
Proof.
  intros Hxy Hy Hk. unfold slice_from.
  rewrite (slice_sub (slice s x y)) by lia.
  rewrite !(slice_sub s) by lia.
  rewrite sub_length by lia.
  set (a := Nat.min (Z.to_nat x) (length s)).
  set (b := Nat.min (Z.to_nat y) (length s)).
  rewrite Nat2Z.id, Nat.min_id.
  unfold sub at 1.
  rewrite firstn_all2 by (rewrite length_skipn, sub_length by lia; lia).
  rewrite sub_skipn by lia.
  f_equal. lia.
Qed.

End SliceFacts.

(** ** The floating-point quotient *)

Section QuotientFacts.
Import Chunking.
Local Open Scope Z_scope.

(** What rounding to the nearest integer, ties to even, guarantees. *)
Lemma round_half_even_cases a b :
  0 <= a -> 0 < b ->
  let m := round_half_even a b in
  0 <= m
  /\ (forall N, a <= N * b -> m <= N)
  /\ (forall N, (2 * N + 1) * b < 2 * a -> N + 1 <= m)
  /\ (2 * a <= b -> m = 0).
Proof.
  intros Ha Hb m. subst m. unfold round_half_even.
  pose proof (Z.div_mod a b ltac:(lia)) as E.
  pose proof (Z.mod_pos_bound a b Hb) as R.
  assert (Q : 0 <= a / b) by (apply Z.div_pos; lia).
  set (q := a / b) in *. set (r := a mod b) in *.
  repeat split.
  - destruct (2 * r <? b); [lia|]. destruct (b <? 2 * r); [lia|].
    destruct (Z.even q); lia.
  - intros N HN.
    assert (q <= N) by nia.
    destruct (Z.ltb_spec (2 * r) b); [lia|].
    assert (q < N) by nia.
    destruct (b <? 2 * r); [lia|]. destruct (Z.even q); lia.
  - intros N HN.
    assert (N <= q) by nia.
    destruct (Z.ltb_spec (2 * r) b); [nia|].
    destruct (Z.ltb_spec b (2 * r)); [lia|].
    assert (b = 2 * r) by lia. assert (N + 1 <= q) by nia.
    destruct (Z.even q); lia.
  - intros H2.
    assert (q = 0) by nia. assert (r = a) by nia.
    destruct (Z.ltb_spec (2 * r) b); [lia|].
    destruct (Z.ltb_spec b (2 * r)); [lia|].
    subst q. rewrite H. reflexivity.
Qed.

(** The exponent of the quotient, as three inequalities. *)
Lemma exponent_facts a b :
  0 < a < 2 ^ 53 -> 0 < b ->
  let k := - Z.max (quotient_log2 a b - 52) (-1074) in
  0 <= k <= 1074
  /\ a * 2 ^ k < b * 2 ^ 53
  /\ (b * 2 ^ 52 <= a * 2 ^ k \/ (k = 1074 /\ a * 2 ^ 1074 < b * 2 ^ 52)).
Proof.
  intros Ha Hb k.
  pose proof (Z.log2_spec a ltac:(lia)) as La.
  pose proof (Z.log2_spec b ltac:(lia)) as Lb.
  pose proof (Z.log2_nonneg a) as La0. pose proof (Z.log2_nonneg b) as Lb0.
  assert (La52 : Z.log2 a <= 52).
  { assert (Z.log2 a < 53); [|lia]. apply Z.log2_lt_pow2; lia. }
  set (la := Z.log2 a) in *. set (lb := Z.log2 b) in *.
  rewrite Z.pow_succ_r in La, Lb by lia.
  (* u, v with lg = u - v *)
  assert (UV : exists u v, 0 <= u <= 52 /\ 0 <= v
             /\ quotient_log2 a b = u - v
             /\ b * 2 ^ u <= a * 2 ^ v /\ a * 2 ^ v < b * (2 * 2 ^ u)).
  { unfold quotient_log2. fold la lb.
    assert (0 < 2 ^ la) by (apply Z.pow_pos_nonneg; lia).
    assert (0 < 2 ^ lb) by (apply Z.pow_pos_nonneg; lia).
    destruct (Z.leb_spec (b * 2 ^ la) (a * 2 ^ lb)) as [T|T].
    - exists la, lb. repeat split; try lia. nia.
    - exists la, (lb + 1). rewrite Z.pow_add_r by lia.
      repeat split; try lia. nia. }
  destruct UV as (u & v & Hu & Hv & Hlg & P1 & P2).
  subst k. rewrite Hlg.
  assert (Pu : 0 < 2 ^ u) by (apply Z.pow_pos_nonneg; lia).
  assert (Pv : 0 < 2 ^ v) by (apply Z.pow_pos_nonneg; lia).
  destruct (Z.le_gt_cases (-1074) (u - v - 52)) as [Hn|Hs].
  - (* normal *)
    rewrite Z.max_l by lia.
    replace (- (u - v - 52)) with (v + (52 - u)) by lia.
    rewrite Z.pow_add_r by lia.
    assert (P52 : 0 < 2 ^ (52 - u)) by (apply Z.pow_pos_nonneg; lia).
    assert (E52 : 2 ^ 52 = 2 ^ u * 2 ^ (52 - u))
      by (rewrite <- Z.pow_add_r by lia; f_equal; lia).
    assert (E53 : 2 ^ 53 = 2 * 2 ^ 52) by reflexivity.
    split; [lia|]. rewrite E53, E52. split; [nia|]. left. nia.
  - (* subnormal *)
    rewrite Z.max_r by lia. replace (- -1074) with 1074 by lia.
    split; [lia|].
    assert (Ev : 2 ^ v = 2 ^ (v - 1023 - u) * (2 ^ 1023 * 2 ^ u)).
    { rewrite <- !Z.pow_add_r by lia. f_equal. lia. }
    assert (Pw : 0 < 2 ^ (v - 1023 - u)) by (apply Z.pow_pos_nonneg; lia).
    assert (H1 : a * 2 ^ 1023 < b * 2).
    { rewrite Ev in P2. 
      assert (a * (2 ^ 1023 * 2 ^ u) <= a * (2 ^ (v - 1023 - u) * (2 ^ 1023 * 2 ^ u))) by nia.
      nia. }
    assert (E1 : 2 ^ 1074 = 2 ^ 1023 * 2 ^ 51) by reflexivity.
    assert (E2 : 2 ^ 52 = 2 * 2 ^ 51) by reflexivity.
    assert (E3 : 2 ^ 53 = 4 * 2 ^ 51) by reflexivity.
    assert (P51 : 0 < 2 ^ 51) by reflexivity.
    assert (H2 : a * 2 ^ 1074 < b * 2 ^ 52) by (rewrite E1, E2; nia).
    split; [rewrite E3; rewrite E2 in H2; nia|]. right. split; [reflexivity|exact H2].
Qed.

(** [math.ceil(n / chunk_size)] on a text of fewer than [2^53] characters:
    the division raises nothing and the ceiling of the rounded quotient is
    [no_of_chunks]. *)
Lemma math_ceil_quotient a b :
  0 < a < 2 ^ 53 -> 0 < b ->
  exists x, int_truediv a b = Ok x /\ math_ceil x = no_of_chunks a b.
Proof.
  intros Ha Hb.
  destruct (@exponent_facts a b Ha Hb) as (Hk & F2 & F3). cbv zeta in *.
  unfold int_truediv.
  destruct (Z.eqb_spec b 0); [lia|]. destruct (Z.eqb_spec a 0); [lia|].
  rewrite (Z.abs_eq a), (Z.abs_eq b) by lia.
  rewrite (Z.sgn_pos a), (Z.sgn_pos b) by lia.
  set (e := Z.max (quotient_log2 a b - 52) (-1074)) in *.
  assert (He : e <= 0) by lia.
  assert (Hsb : scale b e = b).
  { unfold scale. rewrite Z.max_r by lia. simpl. lia. }
  assert (Hsa : scale a (- e) = a * 2 ^ (- e)).
  { unfold scale. now rewrite Z.max_l by lia. }
  rewrite Hsb, Hsa.
  set (k := - e) in *. set (K := 2 ^ k) in *.
  assert (HK : 0 < K) by (apply Z.pow_pos_nonneg; lia).
  destruct (@round_half_even_cases (a * K) b ltac:(nia) Hb) as (M0 & Mle & Mge & Mz).
  cbv zeta in *. set (m := round_half_even (a * K) b) in *.
  assert (Hsm : scale m e = m).
  { unfold scale. rewrite Z.max_r by lia. simpl. lia. }
  rewrite Hsm.
  assert (Hm53 : m <= 2 ^ 53) by (apply Mle; lia).
  destruct (Z.leb_spec (2 ^ 1024) m) as [Hov|_].
  { exfalso. assert (2 ^ 53 < 2 ^ 1024) by reflexivity. lia. }
  eexists. split; [reflexivity|].
  (* the ceiling *)
  assert (Hceil : math_ceil {| mant := 1 * 1 * m; expo := e |} = - ((- m) / K)).
  { replace (1 * 1 * m) with m by lia. unfold math_ceil. cbn [mant expo].
    destruct (Z.leb_spec 0 e).
    - assert (e = 0) by lia. subst K k. replace e with 0 by lia. simpl.
      rewrite Z.div_1_r. lia.
    - reflexivity. }
  rewrite Hceil. unfold no_of_chunks, ceil_div.
  set (c := (a + b - 1) / b).
  assert (Hc : (c - 1) * b < a <= c * b).
  { subst c. pose proof (Z.div_mod (a + b - 1) b ltac:(lia)).
    pose proof (Z.mod_pos_bound (a + b - 1) b Hb). nia. }
  assert (Hup : m <= c * K) by (apply Mle; nia).
  assert (Hfin : forall t, (t - 1) * K < m <= t * K -> - ((- m) / K) = t).
  { intros t Ht. assert (E : (- m) / K = - t); [|lia].
    symmetry. apply Z.div_unique_pos with (r := t * K - m); lia. }
  assert (E1075 : 2 ^ 1075 = 2 * 2 ^ 1074) by reflexivity.
  destruct F3 as [Fn|[Fk Fs]].
  - (* normal numbers: the half unit is below 1/b *)
    assert (Hb2 : b < 2 * K).
    { assert (E53 : 2 ^ 53 = 2 * 2 ^ 52) by reflexivity.
      assert (0 < 2 ^ 52) by reflexivity. nia. }
    assert (K <= 2 ^ 1074) by (apply Z.pow_le_mono_r; lia).
    destruct (Z.leb_spec (a * 2 ^ 1075) b) as [U|U]; [nia|].
    apply Hfin. split; [|exact Hup].
    assert (c - 1 + 0 <= c) by lia.
    assert ((c - 1) * K + 1 <= m); [|lia].
    apply Mge. nia.
  - (* subnormal numbers *)
    assert (EK : K = 2 ^ 1074) by (subst K; now rewrite Fk).
    assert (a < b). { assert (0 < 2 ^ 52) by reflexivity.
      assert (2 ^ 52 < 2 ^ 1074) by reflexivity. nia. }
    assert (c = 1) by nia. subst c.
    destruct (Z.leb_spec (a * 2 ^ 1075) b) as [U|U].
    + rewrite Mz by (rewrite EK; lia). reflexivity.
    + apply Hfin. rewrite H0 in *. split; [|lia].
      assert (0 + 1 <= m); [|lia]. apply Mge. rewrite EK. lia.
Qed.

End QuotientFacts.

(** ** The chunker *)

Section ChunkerFacts.
Import Chunking.
Context {A : Type}.
Local Open Scope Z_scope.

Implicit Types (text : list A) (n chunk_size overlap step start : Z).

Lemma remaining_done n step start :
  0 < step -> n <= start -> remaining n step start = 0%nat.
Proof.
  intros Hs Hn. unfold remaining, ceil_div.
  assert ((n - start + step - 1) / step < 1)
    by (apply Z.div_lt_upper_bound; lia).
  lia.
Qed.

Lemma remaining_step n step start :
  0 < step -> start < n ->
  remaining n step start = S (remaining n step (start + step)).
Proof.
  intros Hs Hn. unfold remaining, ceil_div.
  replace (n - start + step - 1) with ((n - start - 1) + 1 * step) by lia.
  rewrite Z.div_add by lia.
  replace (n - (start + step) + step - 1) with (n - start - 1) by lia.
  assert (0 <= (n - start - 1) / step) by (apply Z.div_pos; lia).
  lia.
Qed.

Lemma remaining_le_length n step :
  0 < step -> 0 <= n -> (remaining n step 0 <= Z.to_nat n)%nat.
Proof.
  intros Hs Hn. unfold remaining, ceil_div. rewrite Z.sub_0_r.
  destruct (Z.eq_dec n 0) as [->|Hne].
  - rewrite Z.div_small by lia. simpl. lia.
  - assert ((n + step - 1) / step < n + 1)
      by (apply Z.div_lt_upper_bound; nia).
    lia.
Qed.

(** The [while] loop emits exactly the remaining windows, provided the
    fuel covers them. *)
Lemma window_loop_spec text chunk_size step :
  0 < step ->
  forall fuel start parts,
    (remaining (Z.of_nat (length text)) step start <= fuel)%nat ->
    window_loop fuel text (Z.of_nat (length text)) chunk_size step start parts
    = Some (parts ++ map (cut text)
              (windows_from (Z.of_nat (length text)) chunk_size step
                 (remaining (Z.of_nat (length text)) step start) start)).
Proof.
  intros Hs. induction fuel as [|fuel IH]; intros start parts Hfuel.
  - simpl. destruct (Z.ltb_spec start (Z.of_nat (length text))) as [Hlt|Hge].
    + rewrite remaining_step in Hfuel by lia. lia.
    + rewrite remaining_done by lia. simpl. now rewrite app_nil_r.
  - simpl. destruct (Z.ltb_spec start (Z.of_nat (length text))) as [Hlt|Hge].
    + rewrite (remaining_step (n := Z.of_nat (length text)) (start := start)) in * by lia.
      rewrite IH by lia. simpl. now rewrite <- app_assoc.
    + rewrite remaining_done by lia. simpl. now rewrite app_nil_r.
Qed.

(** The [for] loop of the [overlap == 0] branch emits [count] windows. *)
Lemma partition_loop_spec text chunk_size :
  0 < chunk_size ->
  forall count bottom parts,
    0 <= bottom ->
    partition_loop text chunk_size count bottom (bottom + chunk_size) parts
    = parts ++ map (cut text)
        (windows_from (Z.of_nat (length text)) chunk_size chunk_size count bottom).
Proof.
  intros Hc. induction count as [|count IH]; intros bottom parts Hb; simpl.
  - now rewrite app_nil_r.
  - rewrite IH by lia. rewrite <- app_assoc. simpl.
    unfold cut at 2. simpl.
    now rewrite <- slice_clip by lia.
Qed.

Lemma Some_ne_None (B : Type) (b : B) : Some b <> None.
Proof. discriminate. Qed.

(** The [k]-th window. *)
Lemma windows_from_nth n chunk_size step :
  forall m start k,
    (k < m)%nat ->
    nth_error (windows_from n chunk_size step m start) k
    = Some (start + Z.of_nat k * step,
            Z.min (start + Z.of_nat k * step + chunk_size) n).
Proof.
  induction m as [|m IH]; intros start k Hk; [lia|].
  destruct k as [|k]; cbn [windows_from nth_error].
  - do 2 f_equal; lia.
  - rewrite IH by lia. rewrite Nat2Z.inj_succ.
    do 2 f_equal; [|f_equal]; lia.
Qed.

Lemma windows_from_length n chunk_size step m start :
  length (windows_from n chunk_size step m start) = m.
Proof. revert start. induction m; simpl; intros; [|rewrite IHm]; reflexivity. Qed.

Lemma chunk_windows_nth n chunk_size overlap k w :
  nth_error (chunk_windows n chunk_size overlap) k = Some w ->
  w = (Z.of_nat k * (chunk_size - overlap),
       Z.min (Z.of_nat k * (chunk_size - overlap) + chunk_size) n).
Proof.
  intros H. unfold chunk_windows in H.
  assert (Hk : (k < Z.to_nat (ceil_div n (chunk_size - overlap)))%nat).
  { pose proof (proj1 (nth_error_Some _ k) (eq_ind_r (fun o => o <> None)
                    (@Some_ne_None _ w) H)) as Hlen.
    now rewrite windows_from_length in Hlen. }
  rewrite windows_from_nth in H by exact Hk. simpl in H.
  now injection H as <-.
Qed.

(** Every window starts inside the text. *)
Lemma chunk_windows_start n chunk_size overlap k :
  0 < chunk_size - overlap -> 0 <= n ->
  (k < length (chunk_windows n chunk_size overlap))%nat ->
  Z.of_nat k * (chunk_size - overlap) < n.
Proof.
  intros Hs Hn Hk. unfold chunk_windows in Hk.
  rewrite windows_from_length in Hk. unfold ceil_div in Hk.
  set (step := chunk_size - overlap) in *.
  destruct (Z.eq_dec n 0) as [->|Hne].
  - rewrite Z.div_small in Hk by lia. simpl in Hk. lia.
  - replace (n + step - 1) with ((n - 1) + 1 * step) in Hk by lia.
    rewrite Z.div_add in Hk by lia.
    assert (0 <= (n - 1) / step) by (apply Z.div_pos; lia).
    assert (Z.of_nat k <= (n - 1) / step) by lia.
    assert (step * ((n - 1) / step) <= n - 1)
      by (apply Z.mul_div_le; lia).
    nia.
Qed.

(** *** The count of the [overlap == 0] branch *)
Lemma no_of_chunks_exact n chunk_size :
  chunk_size < n * 2 ^ 1075 -> no_of_chunks n chunk_size = ceil_div n chunk_size.
Proof.
  intros H. unfold no_of_chunks.
  destruct (Z.leb_spec (n * 2 ^ 1075) chunk_size); [lia|reflexivity].
Qed.

Lemma no_of_chunks_underflow n chunk_size :
  n * 2 ^ 1075 <= chunk_size -> no_of_chunks n chunk_size = 0.
Proof.
  intros H. unfold no_of_chunks.
  destruct (Z.leb_spec (n * 2 ^ 1075) chunk_size); [reflexivity|lia].
Qed.

(** *** The closed form of [chunk_text]

    It holds in the [while] branch always, and in the [for] branch where
    the quotient of line 24 is not rounded to zero. *)
Lemma chunk_text_windows text chunk_size overlap :
  0 < chunk_size -> 0 <= overlap < chunk_size ->
  (overlap = 0 -> 0 < Z.of_nat (length text) ->
   chunk_size < Z.of_nat (length text) * 2 ^ 1075) ->
  chunk_text text chunk_size overlap
  = Ok (map (cut text)
          (chunk_windows (Z.of_nat (length text)) chunk_size overlap)).
Proof.
  intros Hc Ho Hq. unfold chunk_text, chunk_windows.
  destruct (Z.leb_spec chunk_size 0); [lia|].
  destruct (Z.ltb_spec overlap 0); [lia|].
  destruct (Z.geb_spec overlap chunk_size); [lia|].
  destruct (Z.eqb_spec (Z.of_nat (length text)) 0) as [Hz|Hnz].
  - rewrite Hz. unfold ceil_div. rewrite Z.div_small by lia. reflexivity.
  - destruct (Z.eqb_spec overlap 0) as [->|Hov].
    + rewrite Z.sub_0_r. rewrite no_of_chunks_exact by (apply Hq; lia).
      rewrite (partition_loop_spec text Hc _ (bottom := 0)) by lia.
      reflexivity.
    + pose proof (@remaining_le_length (Z.of_nat (length text))
                    (chunk_size - overlap)) as Hfuel.
      rewrite window_loop_spec.
      * unfold remaining. rewrite Z.sub_0_r. reflexivity.
      * lia.
      * rewrite Nat2Z.id in Hfuel. apply Hfuel; lia.
Qed.

(** Where the quotient is rounded to zero the [for] loop does not run. *)
Lemma chunk_text_underflow text chunk_size :
  0 < Z.of_nat (length text) ->
  Z.of_nat (length text) * 2 ^ 1075 <= chunk_size ->
  chunk_text text chunk_size 0 = Ok [].
Proof.
  intros Hn Hq. unfold chunk_text.
  destruct (Z.leb_spec chunk_size 0); [lia|].
  destruct (Z.geb_spec 0 chunk_size); [lia|]. cbn [Z.ltb Z.compare Z.eqb].
  destruct (Z.eqb_spec (Z.of_nat (length text)) 0); [lia|].
  now rewrite no_of_chunks_underflow by exact Hq.
Qed.

(** With valid arguments the chunks are the windows, or there is none. *)
Lemma chunk_text_cases text chunk_size overlap :
  0 < chunk_size -> 0 <= overlap < chunk_size ->
  chunk_text text chunk_size overlap
  = Ok (map (cut text)
          (chunk_windows (Z.of_nat (length text)) chunk_size overlap))
  \/ (overlap = 0 /\ 0 < Z.of_nat (length text)
      /\ Z.of_nat (length text) * 2 ^ 1075 <= chunk_size
      /\ chunk_text text chunk_size overlap = Ok []).
Proof.
  intros Hc Ho.
  destruct (Z.eq_dec overlap 0) as [->|Hov];
    [|left; apply chunk_text_windows; lia].
  destruct (Z.le_gt_cases (Z.of_nat (length text)) 0) as [Hz|Hn];
    [left; apply chunk_text_windows; lia|].
  destruct (Z.le_gt_cases (Z.of_nat (length text) * 2 ^ 1075) chunk_size)
    as [Hq|Hq]; [|left; apply chunk_text_windows; lia].
  right. repeat split; try assumption. now apply chunk_text_underflow.
Qed.

(** *** Reassembly *)
Lemma trimmed_windows_concat text chunk_size overlap :
  let n := Z.of_nat (length text) in
  let step := chunk_size - overlap in
  0 <= overlap < chunk_size ->
  forall m start,
    0 <= start ->
    concat (map (fun c => slice_from c overlap)
              (map (cut text) (windows_from n chunk_size step m start)))
    = slice text (Z.min (start + overlap) n)
                 (Z.min (start + overlap + Z.of_nat m * step) n).
Proof.
  intros n step Ho.
  assert (Hn : n = Z.of_nat (length text)) by reflexivity.
  assert (Hstep : step = chunk_size - overlap) by reflexivity.
  clearbody n step.
  induction m as [|m IH]; intros start Hs.
  - cbn [windows_from map concat]. rewrite Z.mul_0_l, Z.add_0_r.
    now rewrite slice_empty by lia.
  - cbn [windows_from map concat]. rewrite IH by lia.
    unfold cut. cbn [fst snd]. rewrite Nat2Z.inj_succ.
    destruct (Z.le_gt_cases n start) as [Hout|Hin].
    + (* a window that starts at or after the end is empty *)
      rewrite !(Z.min_r _ n) by nia.
      rewrite (slice_sub text (lo := start)) by lia.
      unfold slice_from, sub.
      replace (Nat.min (Z.to_nat n) (length text)
               - Nat.min (Z.to_nat start) (length text))%nat
        with 0%nat by lia.
      cbn [firstn]. unfold slice at 1. rewrite skipn_nil, firstn_nil.
      now rewrite slice_empty by lia.
    + rewrite slice_from_slice by lia.
      replace (Z.min (start + step + overlap) n)
        with (Z.min (start + chunk_size) n) by (f_equal; lia).
      rewrite slice_app by nia.
      f_equal; nia.
Qed.

End ChunkerFacts.

Section ChunkerClaims.
Import Chunking.
Local Open Scope Z_scope.

Lemma ceil_div_covers n step :
  0 < step -> 0 <= n -> n <= Z.of_nat (Z.to_nat (ceil_div n step)) * step.
Proof.
  intros Hs Hn. unfold ceil_div.
  assert (0 <= (n + step - 1) / step) by (apply Z.div_pos; lia).
  pose proof (Z.mul_succ_div_gt (n + step - 1) step Hs).
  rewrite Z2Nat.id by lia. nia.
Qed.

(** Reassembly.  With valid arguments, and in the [overlap == 0] branch a
    quotient that is not rounded to zero, [chunk_text] returns a list of
    chunks, and concatenating them in order after dropping the first
    [overlap] characters of every chunk but the first gives back the
    text. *)
Lemma chunk_text_reassemble_exact
      (A : Type) (text : list A) (chunk_size overlap : Z) :
  0 < chunk_size -> 0 <= overlap < chunk_size ->
  (overlap = 0 -> 0 < Z.of_nat (length text) ->
   chunk_size < Z.of_nat (length text) * 2 ^ 1075) ->
  exists chunks,
    chunk_text text chunk_size overlap = Ok chunks
    /\ reassemble overlap chunks = text.
Proof.
  intros Hc Ho Hq. eexists. split; [now apply chunk_text_windows|].
  unfold chunk_windows.
  set (n := Z.of_nat (length text)).
  set (step := chunk_size - overlap).
  pose proof (@ceil_div_covers n step ltac:(unfold step; lia) ltac:(unfold n; lia))
    as Hcover.
  destruct (Z.to_nat (ceil_div n step)) as [|m] eqn:Hm.
  - (* no window: the text is empty *)
    simpl in Hcover. destruct text; [reflexivity|].
    unfold n in Hcover. simpl in Hcover. lia.
  - cbn [windows_from map reassemble].
    pose proof (@trimmed_windows_concat A text chunk_size overlap Ho m
                  (0 + step) ltac:(unfold step; lia)) as Htail.
    cbv zeta in Htail. fold n step in Htail. rewrite Htail.
    unfold cut. cbn [fst snd].
    rewrite Nat2Z.inj_succ in Hcover.
    replace (Z.min (0 + step + overlap) n) with (Z.min (0 + chunk_size) n)
      by (f_equal; unfold step; lia).
    rewrite slice_app by nia.
    rewrite (Z.min_r _ n) by nia.
    apply slice_all.
Qed.

(** C1, a defect of the [overlap == 0] branch.  The count of line 24 is
    the ceiling of a floating-point quotient: for the five-character text
    and [chunk_size = 2^1080] the quotient [5 / 2^1080] is rounded to zero,
    its ceiling is 0, the loop does not run and no chunk is returned, so
    that nothing of the text can be reassembled.  The [while] branch has
    no such count: with the same [chunk_size] and [overlap = 1] it returns
    the text as its single chunk.  The least such [chunk_size] for this
    text is [5 * 2^1075]: one below it the quotient is rounded to the least
    positive [float], the count is 1 and the text comes back whole. *)
Theorem chunk_text_loses_text_on_underflow :
  int_truediv 5 (2 ^ 1080) = Ok {| mant := 0; expo := -1074 |}
  /\ math_ceil {| mant := 0; expo := -1074 |} = 0
  /\ no_of_chunks 5 (2 ^ 1080) = 0
  /\ chunk_text (u "abcde") (2 ^ 1080) 0 = Ok []
  /\ reassemble 0 (@nil str) <> u "abcde"
  /\ chunk_text (u "abcde") (2 ^ 1080) 1 = Ok [u "abcde"]
  /\ reassemble 1 [u "abcde"] = u "abcde"
  /\ int_truediv 5 (5 * 2 ^ 1075) = Ok {| mant := 0; expo := -1074 |}
  /\ chunk_text (u "abcde") (5 * 2 ^ 1075) 0 = Ok []
  /\ int_truediv 5 (5 * 2 ^ 1075 - 1) = Ok {| mant := 1; expo := -1074 |}
  /\ math_ceil {| mant := 1; expo := -1074 |} = 1
  /\ chunk_text (u "abcde") (5 * 2 ^ 1075 - 1) 0 = Ok [u "abcde"].
Proof.
  split; [vm_compute; reflexivity|]. split; [reflexivity|].
  split; [vm_compute; reflexivity|]. split; [vm_compute; reflexivity|].
  split; [discriminate|]. repeat split; vm_compute; reflexivity.
Qed.

(** C6.  With [chunk_size <= 0], [overlap < 0] or [overlap >= chunk_size]
    the call raises [ValueError] (the specification's [InvalidArgument])
    for every text, the empty one included, and the outcome is the same
    whatever the text. *)
Theorem chunk_text_invalid_arguments
        (A : Type) (text : list A) (chunk_size overlap : Z) :
  chunk_size <= 0 \/ overlap < 0 \/ overlap >= chunk_size ->
  (exists msg, chunk_text text chunk_size overlap = Raise (ValueError msg))
  /\ chunk_text (@nil A) chunk_size overlap = chunk_text text chunk_size overlap
  /\ forall text', chunk_text text' chunk_size overlap
                   = chunk_text text chunk_size overlap.
Proof.
  intros H. unfold chunk_text.
  destruct (Z.leb_spec chunk_size 0); [eauto|].
  destruct (Z.ltb_spec overlap 0); [eauto|].
  destruct (Z.geb_spec overlap chunk_size); [eauto|].
  lia.
Qed.

Lemma chunk_text_invalid_arguments_witness :
  (exists msg, chunk_text (u "abc") 3 3 = Raise (ValueError msg))
  /\ chunk_text (@nil char) 3 3 = chunk_text (u "abc") 3 3
  /\ forall text', chunk_text text' 3 3 = chunk_text (u "abc") 3 3.
Proof. apply chunk_text_invalid_arguments. right. right. lia. Defined.

(** The fuel given to the [while] loop is never used up. *)
Lemma chunk_text_never_out_of_fuel (A : Type) (text : list A) (chunk_size overlap : Z) :
  chunk_text text chunk_size overlap <> OutOfFuel.
Proof.
  destruct (Z.le_gt_cases chunk_size 0) as [H|H];
    [|destruct (Z.lt_ge_cases overlap 0) as [H0|H0];
      [|destruct (Z.le_gt_cases chunk_size overlap) as [H1|H1]]].
  4: destruct (@chunk_text_cases A text chunk_size overlap) as [->|(_ & _ & _ & ->)];
       try lia; discriminate.
  all: unfold chunk_text;
    destruct (Z.leb_spec chunk_size 0); [discriminate|];
    destruct (Z.ltb_spec overlap 0); [discriminate|];
    destruct (Z.geb_spec overlap chunk_size); [discriminate|lia].
Qed.

(** Neighbouring windows share [min(overlap, n - next start)] characters. *)
Lemma chunk_windows_shared n chunk_size overlap k w w' :
  0 <= overlap < chunk_size -> 0 <= n ->
  nth_error (chunk_windows n chunk_size overlap) k = Some w ->
  nth_error (chunk_windows n chunk_size overlap) (S k) = Some w' ->
  shared w w' = Z.min overlap (n - fst w').
Proof.
  intros Ho Hn Hw Hw'.
  apply chunk_windows_nth in Hw. apply chunk_windows_nth in Hw'.
  subst w w'. unfold shared. cbn [fst snd].
  rewrite Nat2Z.inj_succ. lia.
Qed.

(** C2, the overlap rule as the specification words it, fails: with
    [chunk_size = 4] and [overlap = 3] the five-character text yields five
    windows, and the third and fourth, which are not the final pair,
    share two characters, not three. *)
Lemma chunk_text_overlap_rule_counterexample :
  chunk_text (u "abcde") 4 3
  = Ok [u "abcd"; u "bcde"; u "cde"; u "de"; u "e"]
  /\ chunk_windows 5 4 3 = [(0, 4); (1, 5); (2, 5); (3, 5); (4, 5)]
  /\ ~ neighbours_share_exactly 3 (chunk_windows 5 4 3).
Proof.
  split; [reflexivity|]. split; [reflexivity|].
  intros H. specialize (H 2%nat (2, 5) (3, 5) eq_refl eq_refl).
  unfold shared in H. simpl in H.
  assert (2 = 3) by (apply H; lia). discriminate.
Qed.

(** C2, amended.  For valid parameters, and with [overlap = 0] a text of
    fewer than [2^53] characters and [chunk_size < n * 2^1075] (where the
    floating-point count of line 24 is the exact one), [chunk_text]
    returns the windows [text[start : min(start + chunk_size, n)]] for
    [start = 0, step, 2*step, ...] while [start < n], with
    [step = chunk_size - overlap]: there are [ceil(n / step)] of them;
    with [overlap = 0] every window but the final one has exactly
    [chunk_size] characters and neighbours share none; in general
    neighbours share [min(overlap, n - next start)] characters, which is
    exactly [overlap] whenever the earlier window has its full width; and
    the empty text gives the empty list.  Under the condition stated for
    [overlap = 0] the division of line 24 raises nothing and the ceiling
    of its rounded quotient is [ceil(n / chunk_size)]. *)
Theorem chunk_text_windows_rule (text : str) (chunk_size overlap : Z) :
  0 < chunk_size -> 0 <= overlap < chunk_size ->
  (overlap = 0 -> 0 < Z.of_nat (length text) ->
   Z.of_nat (length text) < 2 ^ 53
   /\ chunk_size < Z.of_nat (length text) * 2 ^ 1075) ->
  let n := Z.of_nat (length text) in
  let step := chunk_size - overlap in
  let ws := chunk_windows n chunk_size overlap in
  chunk_text text chunk_size overlap
  = Ok (map (fun w => slice text (fst w) (snd w)) ws)
  /\ length ws = Z.to_nat (ceil_div n step)
  /\ (forall k w, nth_error ws k = Some w ->
        w = (Z.of_nat k * step, Z.min (Z.of_nat k * step + chunk_size) n)
        /\ 0 <= fst w < n
        /\ Z.of_nat (length (slice text (fst w) (snd w))) = snd w - fst w)
  /\ (overlap = 0 ->
      forall k w w', nth_error ws k = Some w -> nth_error ws (S k) = Some w' ->
        snd w - fst w = chunk_size /\ shared w w' = 0)
  /\ (forall k w w', nth_error ws k = Some w -> nth_error ws (S k) = Some w' ->
        shared w w' = Z.min overlap (n - fst w')
        /\ (snd w - fst w = chunk_size -> shared w w' = overlap))
  /\ chunk_text (@nil char) chunk_size overlap = Ok []
  /\ (overlap = 0 -> 0 < n ->
      exists x, int_truediv n chunk_size = Ok x
                /\ math_ceil x = ceil_div n chunk_size).
Proof.
  intros Hc Ho Hq n step ws.
  assert (Hstart : forall k w, nth_error ws k = Some w ->
            w = (Z.of_nat k * step, Z.min (Z.of_nat k * step + chunk_size) n)
            /\ 0 <= fst w < n).
  { intros k w Hw. pose proof Hw as Hw0.
    apply chunk_windows_nth in Hw. split; [exact Hw|].
    assert (Hk : (k < length ws)%nat)
      by (apply nth_error_Some; rewrite Hw0; discriminate).
    apply chunk_windows_start in Hk; [|lia|unfold n; lia].
    subst w. cbn [fst]. fold step in Hk. unfold step in *. nia. }
  split; [apply chunk_text_windows; try assumption; intros; now apply Hq|].
  split; [apply windows_from_length|].
  split.
  { intros k w Hw. destruct (Hstart k w Hw) as [Hw1 Hw2].
    split; [exact Hw1|]. split; [exact Hw2|].
    apply slice_length; subst w; cbn [fst snd] in *; fold n; unfold step in *; nia. }
  split.
  { intros -> k w w' Hw Hw'.
    pose proof (@chunk_windows_shared n chunk_size 0 k w w' Ho
                  ltac:(unfold n; lia) Hw Hw') as Hsh.
    destruct (Hstart k w Hw) as [Hw1 _].
    destruct (Hstart (S k) w' Hw') as [Hw1' Hw2'].
    split; [|lia].
    subst w w'. cbn [fst snd] in *. rewrite Nat2Z.inj_succ in *.
    unfold step in *. lia. }
  split.
  { intros k w w' Hw Hw'.
    pose proof (@chunk_windows_shared n chunk_size overlap k w w' Ho
                  ltac:(unfold n; lia) Hw Hw') as Hsh.
    split; [exact Hsh|]. intros Hfull.
    destruct (Hstart k w Hw) as [Hw1 _].
    destruct (Hstart (S k) w' Hw') as [Hw1' Hw2'].
    rewrite Hsh. subst w w'. cbn [fst snd] in *. rewrite Nat2Z.inj_succ in *.
    unfold step in *. lia. }
  split.
  { rewrite chunk_text_windows by (simpl; lia). simpl.
    unfold chunk_windows, ceil_div. rewrite Z.div_small by lia. reflexivity. }
  intros Hov Hn. destruct (Hq Hov Hn) as [H53 Hlt]. fold n in H53, Hlt.
  destruct (@math_ceil_quotient n chunk_size ltac:(lia) Hc) as (x & Hx & Hceil).
  exists x. split; [exact Hx|].
  rewrite Hceil. now apply no_of_chunks_exact.
Qed.

Lemma chunk_text_windows_rule_witness :
  let text := u "abcdefghij" in
  let n := Z.of_nat (length text) in
  let step := 4 - 0 in
  let ws := chunk_windows n 4 0 in
  chunk_text text 4 0
  = Ok (map (fun w => slice text (fst w) (snd w)) ws)
  /\ length ws = Z.to_nat (ceil_div n step)
  /\ (forall k w, nth_error ws k = Some w ->
        w = (Z.of_nat k * step, Z.min (Z.of_nat k * step + 4) n)
        /\ 0 <= fst w < n
        /\ Z.of_nat (length (slice text (fst w) (snd w))) = snd w - fst w)
  /\ (0 = 0 ->
      forall k w w', nth_error ws k = Some w -> nth_error ws (S k) = Some w' ->
        snd w - fst w = 4 /\ shared w w' = 0)
  /\ (forall k w w', nth_error ws k = Some w -> nth_error ws (S k) = Some w' ->
        shared w w' = Z.min 0 (n - fst w')
        /\ (snd w - fst w = 4 -> shared w w' = 0))
  /\ chunk_text (@nil char) 4 0 = Ok []
  /\ (0 = 0 -> 0 < n ->
      exists x, int_truediv n 4 = Ok x /\ math_ceil x = ceil_div n 4).
Proof.
  apply (@chunk_text_windows_rule (u "abcdefghij") 4 0); try lia.
  intros _ _. split; reflexivity.
Defined.

End ChunkerClaims.

(** ** The renderer on the two documents of the specification *)

Section RendererExamples.
Import PdfExport.

Let title_doc : str :=
  u "## Title" ++ [LF] ++ [LF] ++ u "- a" ++ [LF] ++ u "- b" ++ [LF] ++ [LF]
  ++ u "plain text".

Let start : state := {| story := []; pending_bullets := [] |}.

(** C7.  On the six-line document the story is a level-2 heading, a
    bullet list with the items "a" and "b", and a paragraph "plain text",
    in this order, with spacing between them; the two bullet lines only
    fill the pending buffer, and the blank line that follows turns it into
    one list. *)
Theorem title_bullets_paragraph_story :
  markdown_to_story title_doc
  = [ Paragraph (u "Title") h2;
      Spacer 1 10;
      ListFlowable [ ListItem (Paragraph (u "a") body);
                     ListItem (Paragraph (u "b") body) ] 18;
      Spacer 1 8;
      Spacer 1 10;
      Paragraph (u "plain text") body ]
  /\ content_blocks (markdown_to_story title_doc)
     = [ Heading 2 (u "Title");
         BulletList [u "a"; u "b"];
         ParagraphBlock (u "plain text") ]
  /\ fold_left render_line [u "## Title"; []; u "- a"; u "- b"] start
     = {| story := [Paragraph (u "Title") h2; Spacer 1 10];
          pending_bullets := [u "a"; u "b"] |}
  /\ story (fold_left render_line [u "## Title"; []; u "- a"; u "- b"; []] start)
     = [ Paragraph (u "Title") h2;
         Spacer 1 10;
         ListFlowable [ ListItem (Paragraph (u "a") body);
                        ListItem (Paragraph (u "b") body) ] 18;
         Spacer 1 8;
         Spacer 1 10 ].
Proof. repeat split; vm_compute; reflexivity. Qed.

Let emphasis_line : str :=
  u "**bold** and *italic* and "
  ++ [BACKTICK] ++ u "code *not italic*" ++ [BACKTICK].

(** C8.  On the line with bold, italic and a code span, "bold" comes out
    inside [<b>], "italic" inside [<i>], and the code span inside the
    Courier font tag with its asterisks untouched and no tag inside; the
    code span is taken out first, so the bold and italic passes only see
    its placeholder. *)
Theorem emphasis_and_code_line :
  md_inline_to_rl emphasis_line
  = u "<b>bold</b> and <i>italic</i> and "
    ++ FONT_OPEN ++ u "code *not italic*" ++ FONT_CLOSE
  /\ extract_code (esc emphasis_line)
     = ([u "code *not italic*"], u "**bold** and *italic* and @@CODE0@@")
  /\ sub_italic (sub_bold (u "**bold** and *italic* and @@CODE0@@"))
     = u "<b>bold</b> and <i>italic</i> and @@CODE0@@".
Proof. repeat split; vm_compute; reflexivity. Qed.

End RendererExamples.

(** ** Defaults of the orchestrator *)

Section OrchestratorDefaults.
Import Core.
Local Open Scope Z_scope.

Lemma summarize_chunks_ext (world : Type)
      (gc : str -> str -> world -> outcome (option str) * world)
      (kw kw' : kwargs) (total : Z) :
  (forall i, per_chunk_kwargs kw i total = per_chunk_kwargs kw' i total) ->
  forall chunks i parts w,
    summarize_chunks gc kw total i chunks parts w
    = summarize_chunks gc kw' total i chunks parts w.
Proof.
  intros Hkw. induction chunks as [|ch chunks IH]; intros i parts w.
  - reflexivity.
  - cbn [summarize_chunks]. unfold mbind. rewrite Hkw.
    destruct (summarize_text_to_markdown gc ch (per_chunk_kwargs kw' i total) w)
      as [[md|e|] w']; [apply IH|reflexivity|reflexivity].
Qed.

(** A text of 10,001 characters tells an overlap of 0 from one of 500. *)
Let long_text : str := repeat 97%N (Z.to_nat 10001).

(** C4 as stated fails: with no chunking argument supplied the chunker is
    not called with an overlap of 500, and the prompts the completion
    service receives are not those of a call with overlap 500. *)
Lemma default_overlap_counterexample :
  chunker_args no_kwargs <> (10000, 500)
  /\ snd (summarize_long_text_to_markdown (recording (u "ok")) long_text
            no_kwargs [])
     <> snd (summarize_long_text_to_markdown (recording (u "ok")) long_text
               (with_chunking no_kwargs (Some 10000) (Some 500)) []).
Proof.
  split; [discriminate|].
  assert (E0 : map (fun p => Z.of_nat (length p))
                 (snd (summarize_long_text_to_markdown (recording (u "ok"))
                         long_text no_kwargs []))
               = [10622; 623])
    by (vm_compute; reflexivity).
  assert (E500 : map (fun p => Z.of_nat (length p))
                   (snd (summarize_long_text_to_markdown (recording (u "ok"))
                           long_text
                           (with_chunking no_kwargs (Some 10000) (Some 500)) []))
                 = [10622; 1123])
    by (vm_compute; reflexivity).
  intros H. rewrite H in E0. rewrite E0 in E500. discriminate E500.
Qed.

(** C4, amended.  When the caller supplies neither [chunk_size_chars] nor
    [overlap_chars], the orchestrator calls the chunker with chunk size
    10,000 and overlap 0, and behaves as a call that supplies these. *)
Theorem default_chunker_arguments (world : Type)
        (gc : str -> str -> world -> outcome (option str) * world)
        (text : str) (kw : kwargs) (w : world) :
  chunker_args (with_chunking kw None None) = (10000, 0)
  /\ summarize_long_text_to_markdown gc text (with_chunking kw None None) w
     = summarize_long_text_to_markdown gc text
         (with_chunking kw (Some 10000) (Some 0)) w.
Proof.
  split; [reflexivity|].
  unfold summarize_long_text_to_markdown.
  destruct (strip text) as [|c t]; [reflexivity|].
  cbn [chunker_args with_chunking chunk_size_chars overlap_chars arg_or fst snd].
  unfold mbind.
  destruct (lift _ w) as [[[|ch chunks]|e|] w']; try reflexivity.
  unfold mbind. now rewrite (@summarize_chunks_ext world gc
    (with_chunking kw None None) (with_chunking kw (Some 10000) (Some 0))).
Qed.

(** C5 at a failing input: the caller picks the preset "resumen" and gives
    no custom text.  The one prompt sent for the text "hola" has neither the
    preset's text nor the default directive in it, only the part directive;
    the single-call entry point, given the same arguments, does send the
    preset's text. *)
Theorem output_preset_lost_per_chunk :
  let kw := with_output_key no_kwargs (Some (u "resumen")) in
  let preset := Prompts.dict_get Prompts.OUTPUT_PRESETS (u "resumen") [] in
  preset = u "Resumen conciso del contenido principal, con puntos clave y definiciones esenciales."
  /\ (exists prompt,
        snd (summarize_long_text_to_markdown (recording (u "ok")) (u "hola")
               (with_chunking kw (Some 10000) (Some 500)) [])
        = [prompt]
        /\ contains prompt preset = false
        /\ contains prompt Prompts.DEFAULT_OUTPUT = false
        /\ contains prompt (part_directive 1 1) = true)
  /\ (exists prompt,
        snd (summarize_text_to_markdown (recording (u "ok")) (u "hola") kw [])
        = [prompt]
        /\ contains prompt preset = true).
Proof.
  split; [reflexivity|]. split.
  - eexists. split; [vm_compute; reflexivity|].
    repeat split; vm_compute; reflexivity.
  - eexists. split; [vm_compute; reflexivity|]. vm_compute; reflexivity.
Qed.

End OrchestratorDefaults.

(** ** [strip] *)

Section StripFacts.

Lemma lstrip_solid s : starts_solid s = true -> lstrip s = s.
Proof.
  destruct s as [|c r]; [discriminate|]. simpl.
  now destruct (is_space c).
Qed.

Lemma lstrip_cases s : lstrip s = [] \/ starts_solid (lstrip s) = true.
Proof.
  induction s as [|c r IH]; [now left|]. simpl.
  destruct (is_space c) eqn:E; [exact IH|]. right. simpl. now rewrite E.
Qed.

Lemma starts_solid_app a b : starts_solid a = true -> starts_solid (a ++ b) = true.
Proof. now destruct a. Qed.

Lemma ends_solid_cons c s : s <> [] -> ends_solid (c :: s) = ends_solid s.
Proof. destruct s; [congruence|reflexivity]. Qed.

Lemma ends_solid_nonempty s : ends_solid s = true -> s <> [].
Proof. now destruct s. Qed.

Lemma ends_solid_app a b : b <> [] -> ends_solid (a ++ b) = ends_solid b.
Proof.
  intros Hb. induction a as [|c a IH]; [reflexivity|].
  simpl app. rewrite ends_solid_cons; [exact IH|].
  destruct a; simpl; [exact Hb|discriminate].
Qed.

Lemma rstrip_app_solid h x : ends_solid h = true -> rstrip (h ++ x) = h ++ rstrip x.
Proof.
  induction h as [|c h IH]; [discriminate|]. intros Hh.
  destruct h as [|c' h'].
  - simpl in Hh. simpl. destruct (rstrip x); [|reflexivity].
    now destruct (is_space c).
  - rewrite ends_solid_cons in Hh by discriminate.
    change (rstrip ((c :: c' :: h') ++ x))
      with (match rstrip ((c' :: h') ++ x) with
            | [] => if is_space c then [] else [c]
            | (_ :: _) as r' => c :: r'
            end).
    rewrite (IH Hh). reflexivity.
Qed.

Lemma rstrip_solid s : ends_solid s = true -> rstrip s = s.
Proof.
  intros H. rewrite <- (app_nil_r s) at 1.
  rewrite rstrip_app_solid by exact H. apply app_nil_r.
Qed.

Lemma rstrip_cases s : rstrip s = [] \/ ends_solid (rstrip s) = true.
Proof.
  induction s as [|c r IH]; [now left|]. simpl.
  destruct (rstrip r) as [|c' r'] eqn:E.
  - destruct (is_space c) eqn:Ec; [now left|]. right. simpl. now rewrite Ec.
  - right. destruct IH as [IH|IH]; [discriminate|].
    now rewrite ends_solid_cons by discriminate.
Qed.

Lemma lstrip_ends_solid s : ends_solid s = true -> ends_solid (lstrip s) = true.
Proof.
  induction s as [|c r IH]; [discriminate|]. intros H. simpl lstrip.
  destruct (is_space c) eqn:E; [|exact H].
  destruct r as [|c' r']; [simpl in H; now rewrite E in H|].
  apply IH. now rewrite ends_solid_cons in H by discriminate.
Qed.

(** A stripped string is empty or has solid ends. *)
Lemma strip_cases s :
  strip s = [] \/ (starts_solid (strip s) = true /\ ends_solid (strip s) = true).
Proof.
  unfold strip. destruct (rstrip_cases s) as [->|He]; [now left|].
  right. pose proof (lstrip_ends_solid _ He) as He'.
  split; [|exact He'].
  destruct (lstrip_cases (rstrip s)) as [Hn|Hs]; [|exact Hs].
  rewrite Hn in He'. discriminate.
Qed.

Lemma strip_solid s : starts_solid s = true -> ends_solid s = true -> strip s = s.
Proof.
  intros Hs He. unfold strip. rewrite rstrip_solid by exact He.
  now apply lstrip_solid.
Qed.

(** Stripping never eats into a prefix with solid ends. *)
Lemma strip_app_solid h x :
  starts_solid h = true -> ends_solid h = true -> strip (h ++ x) = h ++ rstrip x.
Proof.
  intros Hs He. unfold strip. rewrite rstrip_app_solid by exact He.
  apply lstrip_solid. destruct h; [discriminate|exact Hs].
Qed.

Lemma strip_nonblank_l s : starts_solid s = true -> strip s <> [].
Proof.
  destruct s as [|c r]; [discriminate|]. intros H.
  change (c :: r) with ([c] ++ r). unfold strip.
  rewrite rstrip_app_solid by exact H.
  simpl app. rewrite lstrip_solid by exact H. discriminate.
Qed.

Lemma strip_nonblank_r s : ends_solid s = true -> strip s <> [].
Proof.
  intros H. unfold strip. rewrite rstrip_solid by exact H.
  apply ends_solid_nonempty. now apply lstrip_ends_solid.
Qed.

Lemma startswith_app h x : startswith (h ++ x) h = true.
Proof.
  induction h as [|c h IH]; [now destruct x|].
  simpl. unfold char_eqb. now rewrite N.eqb_refl.
Qed.

End StripFacts.

(** ** The orchestrator on a text of 25,000 characters *)

Section LongText.
Import Core Chunking.
Local Open Scope Z_scope.

Variable world : Type.
Variable gc : str -> str -> world -> outcome (option str) * world.

Hypothesis Hgc : always_answers gc.

Lemma summarize_text_answers ch kw w :
  strip ch <> [] ->
  exists md w', summarize_text_to_markdown gc ch kw w = (Ok md, w').
Proof.
  intros Hch. unfold summarize_text_to_markdown.
  destruct (strip ch) as [|c t]; [congruence|].
  unfold mbind, generate_text, mbind, ret.
  match goal with
  | |- context [gc ?m ?p w] => destruct (Hgc m p w) as (r & w' & ->)
  end.
  eauto.
Qed.

Lemma summarize_chunks_answers kw total chunks :
  Forall (fun ch => strip ch <> []) chunks ->
  forall i parts w,
  exists bodies w',
    length bodies = length chunks
    /\ summarize_chunks gc kw total i chunks parts w
       = (Ok (parts ++ sections total i bodies), w').
Proof.
  induction 1 as [|ch chunks Hch _ IH]; intros i parts w.
  - exists [], w. split; [reflexivity|]. simpl. unfold ret. now rewrite app_nil_r.
  - cbn [summarize_chunks]. unfold mbind.
    destruct (summarize_text_answers ch (per_chunk_kwargs kw i total) w Hch)
      as (md & w1 & ->).
    destruct (IH (i + 1) (parts ++ [strip (part_heading i total ++ [LF; LF] ++ md)]) w1)
      as (bodies & w2 & Hlen & ->).
    exists (md :: bodies), w2. split; [simpl; now rewrite Hlen|].
    simpl. now rewrite <- app_assoc.
Qed.

(** A section is its heading followed by what is left of the body. *)
Lemma section_shape i total md :
  starts_solid (part_heading i total) = true ->
  ends_solid (part_heading i total) = true ->
  let s := strip (part_heading i total ++ [LF; LF] ++ md) in
  startswith s (part_heading i total) = true
  /\ starts_solid s = true /\ ends_solid s = true.
Proof.
  intros Hs He s. subst s. rewrite strip_app_solid by assumption.
  split; [apply startswith_app|]. split.
  - destruct (part_heading i total); [discriminate|exact Hs].
  - destruct (rstrip_cases ([LF; LF] ++ md)) as [->|Hr].
    + now rewrite app_nil_r.
    + rewrite ends_solid_app; [exact Hr|]. now apply ends_solid_nonempty.
Qed.

End LongText.

(** *** The per-chunk prompt does not depend on the output preset *)

Section PerChunkPrompt.
Import Core Prompts.

Lemma per_chunk_output_custom_nonblank output_custom i total :
  strip (per_chunk_output_custom output_custom i total) <> [].
Proof.
  apply strip_nonblank_r. unfold per_chunk_output_custom, part_directive.
  rewrite !app_assoc. rewrite ends_solid_app; [reflexivity|discriminate].
Qed.

(** Whatever [output_key] the caller chooses, the instruction block built
    for chunk [i] is the one built without any. *)
Lemma per_chunk_prompt_ignores_output_key
      (kw : kwargs) (key : option str) (i total : Z) :
  let pk := per_chunk_kwargs (with_output_key kw key) i total in
  build_prompt (arg_or DEFAULT_LANGUAGE (language pk))
    (arg_or DEFAULT_TOPIC (topic pk))
    (role_key pk) (role_custom pk) (output_key pk) (output_custom pk)
  = build_prompt (arg_or DEFAULT_LANGUAGE (language pk))
      (arg_or DEFAULT_TOPIC (topic pk))
      (role_key pk) (role_custom pk) None (output_custom pk).
Proof.
  cbv zeta. unfold build_prompt.
  cbn [per_chunk_kwargs with_output_key output_custom output_key or_empty].
  pose proof (per_chunk_output_custom_nonblank (output_custom kw) i total) as H.
  destruct (strip (per_chunk_output_custom (output_custom kw) i total));
    [congruence|reflexivity].
Qed.

End PerChunkPrompt.

Section LongTextClaims.
Import Core Chunking.
Local Open Scope Z_scope.

Let text_25000 : str := repeat 97%N (Z.to_nat 25000).

(** C3 as stated fails: on 25,000 letters with chunk size 10,000 and
    overlap 500 the three chunks have 10,000, 10,000 and 6,000 characters;
    the last one does not have 5,000. *)
Lemma chunks_of_25000_counterexample :
  exists chunks,
    chunk_text (strip text_25000) 10000 500 = Ok chunks
    /\ map (fun c => Z.of_nat (length c)) chunks = [10000; 10000; 6000]
    /\ map (fun c => Z.of_nat (length c)) chunks <> [10000; 10000; 5000].
Proof.
  eexists. split; [apply chunk_text_windows; lia|].
  assert (E : forall l, l = [10000; 10000; 6000] -> l <> [10000; 10000; 5000])
    by (intros l -> ; discriminate).
  split; [|apply E]; vm_compute; reflexivity.
Qed.

Lemma firstn_starts_solid (s : str) k :
  (0 < k)%nat -> starts_solid s = true -> starts_solid (firstn k s) = true.
Proof. destruct k; [lia|]. now destruct s. Qed.

Lemma skipn_ends_solid (s : str) k :
  (k < length s)%nat -> ends_solid s = true -> ends_solid (skipn k s) = true.
Proof.
  intros Hk Hs. rewrite <- (firstn_skipn k s) in Hs.
  rewrite ends_solid_app in Hs; [exact Hs|].
  intros E. apply (f_equal (@length _)) in E.
  rewrite length_skipn in E. simpl in E. lia.
Qed.

(** C3, amended.  Take a text whose stripped form has 25,000 characters and
    a non-blank middle window, chunk size 10,000, overlap 500, and a
    completion service that answers every call.  The chunker returns three
    chunks of 10,000, 10,000 and 6,000 characters, and the orchestrator
    returns three sections joined by the separator, the [i]-th starting
    with the heading "## Parte i/3". *)
Theorem long_text_three_parts
        (world : Type)
        (gc : str -> str -> world -> outcome (option str) * world)
        (text : str) (kw : kwargs) (w : world) :
  Z.of_nat (length (strip text)) = 25000 ->
  chunker_args kw = (10000, 500) ->
  strip (slice (strip text) 9500 19500) <> [] ->
  always_answers gc ->
  (exists c1 c2 c3,
      chunk_text (strip text) 10000 500 = Ok [c1; c2; c3]
      /\ Z.of_nat (length c1) = 10000
      /\ Z.of_nat (length c2) = 10000
      /\ Z.of_nat (length c3) = 6000)
  /\ (exists s1 s2 s3 w',
        summarize_long_text_to_markdown gc text kw w
        = (Ok (s1 ++ SEPARATOR ++ s2 ++ SEPARATOR ++ s3), w')
        /\ SEPARATOR = [LF; LF] ++ u "---" ++ [LF; LF]
        /\ startswith s1 (u "## Parte 1/3") = true
        /\ startswith s2 (u "## Parte 2/3") = true
        /\ startswith s3 (u "## Parte 3/3") = true).
Proof.
  intros Hlen Hargs Hmid Hgc.
  set (t := strip text) in *.
  assert (Hchunks : chunk_text t 10000 500
                    = Ok [slice t 0 10000; slice t 9500 19500;
                          slice t 19000 25000]).
  { rewrite chunk_text_windows by lia. rewrite Hlen. reflexivity. }
  split.
  { do 3 eexists. split; [exact Hchunks|].
    repeat split; rewrite slice_length; lia. }
  (* the stripped text has solid ends *)
  assert (Hne : t <> []) by (intros E; rewrite E in Hlen; discriminate).
  destruct (strip_cases text) as [E|[Hs He]]; [contradiction|]. fold t in Hs, He.
  assert (Hblank : Forall (fun ch => strip ch <> [])
                     [slice t 0 10000; slice t 9500 19500; slice t 19000 25000]).
  { repeat constructor.
    - apply strip_nonblank_l. rewrite slice_sub by lia. unfold sub. simpl skipn.
      apply firstn_starts_solid; [lia|exact Hs].
    - exact Hmid.
    - apply strip_nonblank_r. rewrite slice_sub by lia. unfold sub.
      rewrite firstn_all2 by (rewrite length_skipn; lia).
      apply skipn_ends_solid; [lia|exact He]. }
  unfold summarize_long_text_to_markdown. fold t.
  destruct t as [|c0 t0] eqn:Et; [congruence|]. rewrite <- Et in *.
  rewrite Hargs. cbn [fst snd]. unfold mbind at 1. unfold lift.
  rewrite Hchunks. cbn [length Z.of_nat].
  unfold mbind.
  destruct (@summarize_chunks_answers world gc Hgc kw 3 _ Hblank 1 [] w)
    as (bodies & w' & Hb & Hrun).
  change (Z.pos (Pos.of_succ_nat 2)) with 3. rewrite Hrun.
  destruct bodies as [|b1 [|b2 [|b3 [|b4 bodies]]]]; try discriminate Hb.
  cbn [sections join]. rewrite app_nil_l. unfold ret.
  change (1 + 1) with 2. change (2 + 1) with 3.
  destruct (@section_shape 1 3 b1 eq_refl eq_refl) as (P1 & S1 & _).
  destruct (@section_shape 2 3 b2 eq_refl eq_refl) as (P2 & _ & _).
  destruct (@section_shape 3 3 b3 eq_refl eq_refl) as (P3 & _ & E3).
  cbv zeta in P1, S1, P2, P3, E3.
  set (s1 := strip (part_heading 1 3 ++ [LF; LF] ++ b1)) in *.
  set (s2 := strip (part_heading 2 3 ++ [LF; LF] ++ b2)) in *.
  set (s3 := strip (part_heading 3 3 ++ [LF; LF] ++ b3)) in *.
  clearbody s1 s2 s3.
  exists s1, s2, s3, w'. split; [|auto].
  change (join SEPARATOR [s1; s2; s3])
    with (s1 ++ SEPARATOR ++ s2 ++ SEPARATOR ++ s3).
  rewrite strip_solid; [reflexivity| |].
  - now apply starts_solid_app.
  - rewrite !app_assoc. rewrite ends_solid_app; [exact E3|].
    now apply ends_solid_nonempty.
Qed.

Lemma long_text_three_parts_witness :
  (exists c1 c2 c3,
      chunk_text (strip text_25000) 10000 500 = Ok [c1; c2; c3]
      /\ Z.of_nat (length c1) = 10000
      /\ Z.of_nat (length c2) = 10000
      /\ Z.of_nat (length c3) = 6000)
  /\ (exists s1 s2 s3 w',
        summarize_long_text_to_markdown (recording (u "ok")) text_25000
          (with_chunking no_kwargs (Some 10000) (Some 500)) []
        = (Ok (s1 ++ SEPARATOR ++ s2 ++ SEPARATOR ++ s3), w')
        /\ SEPARATOR = [LF; LF] ++ u "---" ++ [LF; LF]
        /\ startswith s1 (u "## Parte 1/3") = true
        /\ startswith s2 (u "## Parte 2/3") = true
        /\ startswith s3 (u "## Parte 3/3") = true).
Proof.
  apply long_text_three_parts.
  - vm_compute; reflexivity.
  - reflexivity.
  - vm_compute; discriminate.
  - intros m p w0. do 2 eexists. reflexivity.
Defined.

End LongTextClaims.

(** ** Preprocessing of bullet glyphs *)

Section GlyphFacts.
Import PdfExport.

Lemma replace_go_skip old new : forall k s,
  replace_go old new k s = replace_go old new 0 (skipn k s).
Proof.
  induction k as [|k IH]; intros [|c r]; try reflexivity.
  simpl. apply IH.
Qed.

(** Replacing the pair "glyph, space" is [dashify_one]. *)
Lemma replace_glyph g s :
  char_eqb SPACE g = false ->
  replace s [g; SPACE] [HYPHEN; SPACE] = dashify_one g s.
Proof.
  intros Hg. unfold replace.
  assert (H : forall n s, (length s <= n)%nat ->
            replace_go [g; SPACE] [HYPHEN; SPACE] 0 s = dashify_one g s).
  { induction n as [|n IH]; intros [|c r] Hlen; try reflexivity;
      [simpl in Hlen; lia|].
    cbn [replace_go dashify_one startswith length Nat.sub].
    unfold char_eqb in *. rewrite (N.eqb_sym g c).
    destruct (N.eqb_spec c g) as [->|Hc]; cbn [andb].
    - destruct r as [|c' r']; cbn [startswith next_is_space].
      + now rewrite IH by (simpl in *; lia).
      + unfold char_eqb. rewrite (N.eqb_sym SPACE c').
        destruct (N.eqb_spec c' SPACE) as [->|Hc']; cbn [andb].
        * rewrite replace_go_skip. cbn [skipn app dashify_one].
          rewrite IH by (simpl in *; lia).
          unfold char_eqb. now rewrite Hg.
        * now rewrite IH by (simpl in *; lia).
    - now rewrite IH by (simpl in *; lia). }
  now apply (H (length s)).
Qed.

Lemma next_is_space_dashify_one g r :
  char_eqb SPACE g = false ->
  next_is_space (dashify_one g r) = next_is_space r.
Proof.
  intros Hg. destruct r as [|c r]; [reflexivity|].
  cbn [dashify_one next_is_space]. unfold char_eqb in *.
  destruct (N.eqb_spec c g) as [->|]; [|reflexivity].
  destruct (next_is_space r); cbn [andb]; [|reflexivity].
  now rewrite (N.eqb_sym g SPACE), Hg.
Qed.

Lemma dashify_one_thrice s :
  dashify_one EM_DASH (dashify_one EN_DASH (dashify_one BULLET s)) = dashify s.
Proof.
  induction s as [|c r IH]; [reflexivity|].
  cbn [dashify_one dashify]. rewrite IH.
  rewrite !next_is_space_dashify_one by reflexivity.
  f_equal. unfold is_glyph, char_eqb.
  destruct (next_is_space r); rewrite ?andb_false_r, ?andb_true_r.
  - destruct (N.eqb_spec c BULLET) as [->|]; [reflexivity|].
    destruct (N.eqb_spec c EN_DASH) as [->|]; [reflexivity|].
    now destruct (N.eqb_spec c EM_DASH).
  - now rewrite ?andb_false_r.
Qed.

(** The preprocessed line, character by character. *)
Lemma normalize_line_dashify ln : normalize_line ln = dashify (rstrip ln).
Proof.
  unfold normalize_line.
  rewrite !replace_glyph by reflexivity. apply dashify_one_thrice.
Qed.

Lemma dashify_length s : length (dashify s) = length s.
Proof. induction s; simpl; congruence. Qed.

Lemma dashify_app a x :
  next_is_space x = false -> dashify (a ++ x) = dashify a ++ dashify x.
Proof.
  intros Hx. induction a as [|c a IH]; [reflexivity|].
  cbn [app dashify]. rewrite IH. f_equal.
  destruct a as [|c' a']; [|reflexivity].
  cbn [app next_is_space]. rewrite Hx. now rewrite andb_false_r.
Qed.

Lemma rstrip_nonblank b : forallb is_space b = false -> rstrip b <> [].
Proof.
  induction b as [|c r IH]; [discriminate|]. cbn [forallb rstrip]. intros H.
  destruct (rstrip r) eqn:E; [|discriminate].
  destruct (is_space c); [|discriminate].
  now apply IH.
Qed.

Lemma rstrip_app_nonblank a b : rstrip b <> [] -> rstrip (a ++ b) = a ++ rstrip b.
Proof.
  intros Hb. induction a as [|c a IH]; [reflexivity|].
  cbn [app rstrip]. rewrite IH.
  destruct (a ++ rstrip b) eqn:E; [|reflexivity].
  apply app_eq_nil in E. tauto.
Qed.

(** A glyph followed by a space and then by something other than white
    space, wherever it stands in the line. *)
Lemma normalize_line_glyph (a b : str) (g : char) :
  is_glyph g = true ->
  forallb is_space b = false ->
  normalize_line (a ++ g :: SPACE :: b)
  = dashify a ++ HYPHEN :: SPACE :: dashify (rstrip b).
Proof.
  intros Hg Hb. rewrite normalize_line_dashify.
  assert (Hr : rstrip (g :: SPACE :: b) = g :: SPACE :: rstrip b).
  { apply rstrip_nonblank in Hb.
    change (g :: SPACE :: b) with ([g; SPACE] ++ b).
    now rewrite rstrip_app_nonblank. }
  rewrite rstrip_app_nonblank by (rewrite Hr; discriminate).
  rewrite Hr.
  assert (Hsp : char_eqb g SPACE = false).
  { unfold is_glyph, char_eqb in *.
    destruct (N.eqb_spec g SPACE) as [->|]; [discriminate Hg|reflexivity]. }
  rewrite dashify_app by exact Hsp.
  cbn [dashify next_is_space]. rewrite Hg.
  replace (char_eqb SPACE SPACE) with true by reflexivity.
  cbn [andb]. reflexivity.
Qed.

Lemma rstrip_forallb (p : char -> bool) : forall s,
  forallb p s = true -> forallb p (rstrip s) = true.
Proof.
  induction s as [|c r IH]; [reflexivity|]. cbn [forallb rstrip]. intros H.
  apply andb_prop in H as [Hc Hr]. specialize (IH Hr).
  destruct (rstrip r) as [|x r'].
  - destruct (is_space c); [reflexivity|]. cbn [forallb]. now rewrite Hc.
  - cbn [forallb] in *. now rewrite Hc.
Qed.

Lemma dashify_forallb (p : char -> bool) : forall s,
  p HYPHEN = true -> forallb p s = true -> forallb p (dashify s) = true.
Proof.
  intros s Hh. induction s as [|c r IH]; [reflexivity|]. cbn [forallb dashify].
  intros H. apply andb_prop in H as [Hc Hr]. rewrite (IH Hr), andb_true_r.
  now destruct (is_glyph c && next_is_space r).
Qed.

End GlyphFacts.

(** ** Well-escaped markup *)

Section MarkupFacts.
Import PdfExport.

Lemma escaped_text_well_escaped s : escaped_text s -> well_escaped s.
Proof. induction 1; [constructor|now apply we_char|now apply we_entity]. Qed.

Lemma well_escaped_app a b : well_escaped a -> well_escaped b -> well_escaped (a ++ b).
Proof.
  induction 1 as [|c s Hc _ IH|e s He _ IH|t s Ht _ IH]; intros Hb.
  - exact Hb.
  - simpl. apply we_char; auto.
  - rewrite <- app_assoc. apply we_entity; auto.
  - rewrite <- app_assoc. apply we_tag; auto.
Qed.

Lemma plain_well_escaped s :
  Forall (fun c => is_markup_char c = false) s -> well_escaped s.
Proof. induction 1; [constructor|now apply we_char]. Qed.

Lemma token_nonempty t : In t (entities ++ tags) -> t <> [].
Proof.
  intros H E. subst t. simpl in H.
  repeat (destruct H as [H|H]; [vm_compute in H; discriminate H|]).
  exact H.
Qed.

Lemma delim_avoids d t :
  is_delim d = true -> In t (entities ++ tags) -> ~ In d t.
Proof.
  unfold is_delim. intros H Ht Hin.
  apply andb_prop in H as [_ H].
  rewrite forallb_forall in H. specialize (H t Ht).
  unfold avoids in H. apply negb_true_iff in H.
  assert (existsb (char_eqb d) t = true); [|congruence].
  apply existsb_exists. exists d. split; [exact Hin|].
  unfold char_eqb. apply N.eqb_refl.
Qed.

Lemma delim_plain d : is_delim d = true -> is_markup_char d = false.
Proof.
  unfold is_delim. intros H. apply andb_prop in H as [H _].
  now apply negb_true_iff in H.
Qed.

(** A prefix that does not contain [d] ends before the first [d]. *)
Lemma prefix_before (d : char) : forall (t s a b : str),
  t ++ s = a ++ d :: b -> ~ In d t ->
  exists a', a = t ++ a' /\ s = a' ++ d :: b.
Proof.
  induction t as [|x t IH]; intros s a b E Hd.
  - exists a. auto.
  - destruct a as [|y a].
    + simpl in E. injection E as -> _. exfalso. apply Hd. now left.
    + simpl in E. injection E as -> E.
      destruct (IH s a b E) as (a' & -> & ->).
      * intros H. apply Hd. now right.
      * exists a'. auto.
Qed.

(** Well-escaped markup can be cut at a delimiter. *)
Lemma well_escaped_split d : is_delim d = true ->
  forall x, well_escaped x ->
  forall a b, x = a ++ d :: b -> well_escaped a /\ well_escaped b.
Proof.
  intros Hd. induction 1 as [|c s Hc Hs IH|e s He Hs IH|t s Ht Hs IH];
    intros a b E.
  - now destruct a.
  - destruct a as [|y a]; simpl in E; injection E as -> ->.
    + split; [constructor|exact Hs].
    + destruct (IH a b eq_refl). split; [now apply we_char|assumption].
  - destruct (@prefix_before d e s a b E) as (a' & -> & ->).
    { apply delim_avoids; [exact Hd|]. apply in_or_app. now left. }
    destruct (IH a' b eq_refl). split; [now apply we_entity|assumption].
  - destruct (@prefix_before d t s a b E) as (a' & -> & ->).
    { apply delim_avoids; [exact Hd|]. apply in_or_app. now right. }
    destruct (IH a' b eq_refl). split; [now apply we_tag|assumption].
Qed.

Lemma skipn_length_app (A : Type) (a b : list A) : skipn (length a) (a ++ b) = b.
Proof. induction a; simpl; auto. Qed.

End MarkupFacts.

(** ** The scan of [re.sub] keeps markup well-escaped *)

Section ScanFacts.
Import PdfExport.

Variable St : Type.
Variable match_at : option char -> str -> option (str * nat).
Variable repl : St -> str -> St * str.

(** What holds of the callback's state. *)
Variable Inv : St -> Prop.

(** The character every match starts with. *)
Variable d0 : char.

Hypothesis d0_delim : is_delim d0 = true.

Hypothesis match_first : forall prev c r g len,
  match_at prev (c :: r) = Some (g, len) -> c = d0.

Hypothesis match_sound : forall prev s g len,
  well_escaped s -> match_at prev s = Some (g, len) ->
  well_escaped g /\ well_escaped (skipn len s) /\ (1 <= len)%nat.

Hypothesis repl_sound : forall st g,
  Inv st -> well_escaped g ->
  Inv (fst (repl st g)) /\ well_escaped (snd (repl st g)).

Lemma re_sub_go_skip : forall k s prev st,
  exists prev',
    re_sub_go match_at repl k prev st s
    = re_sub_go match_at repl 0 prev' st (skipn k s).
Proof.
  induction k as [|k IH]; intros s prev st.
  - exists prev. reflexivity.
  - destruct s as [|c r]; [exists prev; reflexivity|].
    cbn [re_sub_go skipn]. apply IH.
Qed.

(** A stretch without [d0] is copied. *)
Lemma re_sub_go_copy : forall x, ~ In d0 x ->
  forall s' prev st,
  exists prev',
    re_sub_go match_at repl 0 prev st (x ++ s')
    = (fst (re_sub_go match_at repl 0 prev' st s'),
       x ++ snd (re_sub_go match_at repl 0 prev' st s')).
Proof.
  induction x as [|c x IH]; intros Hx s' prev st.
  - exists prev. simpl. now destruct (re_sub_go match_at repl 0 prev st s').
  - cbn [app re_sub_go].
    destruct (match_at prev (c :: x ++ s')) as [[g len]|] eqn:E.
    + apply match_first in E. exfalso. apply Hx. now left.
    + destruct (IH (fun H => Hx (or_intror H)) s' (Some c) st) as (prev' & ->).
      exists prev'. reflexivity.
Qed.

Lemma re_sub_go_well_escaped : forall n s,
  (length s <= n)%nat -> well_escaped s ->
  forall prev st, Inv st ->
    Inv (fst (re_sub_go match_at repl 0 prev st s))
    /\ well_escaped (snd (re_sub_go match_at repl 0 prev st s)).
Proof.
  induction n as [|n IH]; intros s Hlen Hs prev st Hst.
  { destruct s; [|simpl in Hlen; lia]. simpl. split; [exact Hst|constructor]. }
  assert (Htoken : forall t s1, In t (entities ++ tags) -> s = t ++ s1 ->
            well_escaped s1 ->
            (forall out, well_escaped out -> well_escaped (t ++ out)) ->
            Inv (fst (re_sub_go match_at repl 0 prev st s))
            /\ well_escaped (snd (re_sub_go match_at repl 0 prev st s))).
  { intros t s1 Ht -> Hs1 Hput.
    destruct (@re_sub_go_copy t (delim_avoids _ d0_delim Ht) s1 prev st)
      as (prev' & ->).
    pose proof (token_nonempty Ht) as Hne.
    assert (Hlen1 : (length s1 <= n)%nat).
    { rewrite length_app in Hlen. destruct t; [congruence|simpl in Hlen; lia]. }
    destruct (IH s1 Hlen1 Hs1 prev' st Hst) as [H1 H2].
    split; [exact H1|]. cbn [snd]. now apply Hput. }
  inversion Hs as [E|c s1 Hc Hs1 E|e s1 He Hs1 E|t s1 Ht Hs1 E].
  - simpl. split; [exact Hst|constructor].
  - subst s. cbn [re_sub_go].
    destruct (match_at prev (c :: s1)) as [[g len]|] eqn:Em.
    + destruct (match_sound Hs Em) as (Hg & Hrest & Hpos).
      destruct (repl_sound Hst Hg) as [Hst' Hout].
      destruct (repl st g) as [st' out]. cbn [fst snd] in *.
      destruct (@re_sub_go_skip (len - 1) s1 (Some c) st') as (prev' & ->).
      assert (Hskip : skipn (len - 1) s1 = skipn len (c :: s1)).
      { destruct len; [lia|]. simpl. now rewrite Nat.sub_0_r. }
      rewrite Hskip.
      assert (Hl : (length (skipn len (c :: s1)) <= n)%nat).
      { rewrite length_skipn. cbn [length] in Hlen |- *. lia. }
      destruct (IH _ Hl Hrest prev' st' Hst') as [H1 H2].
      destruct (re_sub_go match_at repl 0 prev' st' (skipn len (c :: s1)))
        as [st'' rest]. cbn [fst snd] in *.
      split; [exact H1|now apply well_escaped_app].
    + assert (Hl : (length s1 <= n)%nat) by (simpl in Hlen; lia).
      destruct (IH s1 Hl Hs1 (Some c) st Hst) as [H1 H2].
      destruct (re_sub_go match_at repl 0 (Some c) st s1) as [st' rest].
      cbn [fst snd] in *. split; [exact H1|now apply we_char].
  - rewrite E. apply (Htoken e s1); [|now symmetry|exact Hs1|].
    + apply in_or_app. now left.
    + intros out Hout. now apply we_entity.
  - rewrite E. apply (Htoken t s1); [|now symmetry|exact Hs1|].
    + apply in_or_app. now right.
    + intros out Hout. now apply we_tag.
Qed.

(** The scan started as [re.sub] starts it. *)
Lemma re_sub_well_escaped s st :
  well_escaped s -> Inv st ->
  Inv (fst (re_sub match_at repl st s))
  /\ well_escaped (snd (re_sub match_at repl st s)).
Proof. intros. now apply (@re_sub_go_well_escaped (length s)). Qed.

End ScanFacts.

(** ** The three patterns, the placeholders and [esc] *)

Section InlineFacts.
Import PdfExport.

Lemma char_eqb_eq a b : char_eqb a b = true -> a = b.
Proof. apply N.eqb_eq. Qed.

Lemma span_until_spec d : forall s g rest,
  span_until d s = (g, rest) -> s = g ++ rest /\ ~ In d g.
Proof.
  induction s as [|c r IH]; intros g rest E; simpl in E.
  - injection E as <- <-. auto.
  - destruct (char_eqb c d) eqn:Ec.
    + injection E as <- <-. auto.
    + destruct (span_until d r) as [g' rest'] eqn:Er.
      injection E as <- <-. destruct (IH g' rest' eq_refl) as [-> Hg].
      split; [reflexivity|]. intros [->|H]; [|auto].
      unfold char_eqb in Ec. now rewrite N.eqb_refl in Ec.
Qed.

Lemma backtick_delim : is_delim BACKTICK = true.
Proof. reflexivity. Qed.

Lemma star_delim : is_delim STAR = true.
Proof. reflexivity. Qed.

Lemma at_sign_delim : is_delim AT_SIGN = true.
Proof. reflexivity. Qed.

Lemma match_code_first prev c r g len :
  match_code prev (c :: r) = Some (g, len) -> c = BACKTICK.
Proof.
  unfold match_code. destruct (char_eqb c BACKTICK) eqn:E; [|discriminate].
  intros _. now apply char_eqb_eq.
Qed.

Lemma skipn_whole (a rest : str) len :
  len = length a -> skipn len (a ++ rest) = rest.
Proof. intros ->. apply skipn_length_app. Qed.

Ltac skip_match a :=
  match goal with
  | |- well_escaped (skipn _ ?s) =>
      replace s with a by (cbn [app]; now rewrite <- ?app_assoc);
      rewrite skipn_whole;
      [|cbn [length app]; rewrite ?length_app; cbn [length]; lia]
  end.

Lemma match_code_sound prev s g len :
  well_escaped s -> match_code prev s = Some (g, len) ->
  well_escaped g /\ well_escaped (skipn len s) /\ (1 <= len)%nat.
Proof.
  intros Hs E. unfold match_code in E.
  destruct s as [|c r]; [discriminate|].
  destruct (char_eqb c BACKTICK) eqn:Ec; [|discriminate].
  apply char_eqb_eq in Ec. subst c.
  destruct (span_until BACKTICK r) as [g' rest] eqn:Er.
  destruct g' as [|x g']; [discriminate|].
  destruct rest as [|c' rest]; [discriminate|].
  destruct (char_eqb c' BACKTICK) eqn:Ec'; [|discriminate].
  apply char_eqb_eq in Ec'. subst c'. injection E as <- <-.
  apply span_until_spec in Er as [-> _].
  destruct (@well_escaped_split _ backtick_delim _ Hs [] _ eq_refl) as [_ H1].
  destruct (@well_escaped_split _ backtick_delim _ H1 _ _ eq_refl) as [Hg Hrest].
  split; [exact Hg|]. split; [|lia].
  skip_match ((BACKTICK :: (x :: g') ++ [BACKTICK]) ++ rest). exact Hrest.
Qed.

Lemma match_bold_first prev c r g len :
  match_bold prev (c :: r) = Some (g, len) -> c = STAR.
Proof.
  unfold match_bold. destruct r as [|c2 r]; [discriminate|].
  destruct (char_eqb c STAR) eqn:E; [|discriminate].
  intros _. now apply char_eqb_eq.
Qed.

Lemma match_bold_sound prev s g len :
  well_escaped s -> match_bold prev s = Some (g, len) ->
  well_escaped g /\ well_escaped (skipn len s) /\ (1 <= len)%nat.
Proof.
  intros Hs E. unfold match_bold in E.
  destruct s as [|c1 [|c2 r]]; try discriminate.
  destruct (char_eqb c1 STAR) eqn:E1; [|discriminate].
  destruct (char_eqb c2 STAR) eqn:E2; [|discriminate].
  apply char_eqb_eq in E1, E2. subst c1 c2. cbn [andb] in E.
  destruct (span_until STAR r) as [g' rest] eqn:Er.
  destruct g' as [|x g']; [discriminate|].
  destruct rest as [|d1 [|d2 rest]]; try discriminate.
  destruct (char_eqb d1 STAR) eqn:F1; [|discriminate].
  destruct (char_eqb d2 STAR) eqn:F2; [|discriminate].
  apply char_eqb_eq in F1, F2. subst d1 d2. injection E as <- <-.
  apply span_until_spec in Er as [-> _].
  destruct (@well_escaped_split _ star_delim _ Hs [] _ eq_refl) as [_ H1].
  destruct (@well_escaped_split _ star_delim _ H1 [] _ eq_refl) as [_ H2].
  destruct (@well_escaped_split _ star_delim _ H2 _ _ eq_refl) as [Hg H3].
  destruct (@well_escaped_split _ star_delim _ H3 [] _ eq_refl) as [_ Hrest].
  split; [exact Hg|]. split; [|lia].
  skip_match ((STAR :: STAR :: (x :: g') ++ [STAR; STAR]) ++ rest). exact Hrest.
Qed.

Lemma match_italic_first prev c r g len :
  match_italic prev (c :: r) = Some (g, len) -> c = STAR.
Proof.
  unfold match_italic. destruct (negb (is_star prev)); [|discriminate].
  destruct (char_eqb c STAR) eqn:E; [|discriminate].
  intros _. now apply char_eqb_eq.
Qed.

Lemma match_italic_sound prev s g len :
  well_escaped s -> match_italic prev s = Some (g, len) ->
  well_escaped g /\ well_escaped (skipn len s) /\ (1 <= len)%nat.
Proof.
  intros Hs E. unfold match_italic in E.
  destruct s as [|c r]; [discriminate|].
  destruct (negb (is_star prev)); [|discriminate].
  destruct (char_eqb c STAR) eqn:Ec; [|discriminate].
  apply char_eqb_eq in Ec. subst c. cbn [andb] in E.
  destruct (span_until STAR r) as [g' rest] eqn:Er.
  destruct g' as [|x g']; [discriminate|].
  destruct rest as [|d rest]; [discriminate|].
  destruct (char_eqb d STAR) eqn:Ed; [|discriminate].
  apply char_eqb_eq in Ed. subst d.
  destruct (negb (is_star (hd_error rest))); [|discriminate].
  injection E as <- <-.
  apply span_until_spec in Er as [-> _].
  destruct (@well_escaped_split _ star_delim _ Hs [] _ eq_refl) as [_ H1].
  destruct (@well_escaped_split _ star_delim _ H1 _ _ eq_refl) as [Hg Hrest].
  split; [exact Hg|]. split; [|lia].
  skip_match ((STAR :: (x :: g') ++ [STAR]) ++ rest). exact Hrest.
Qed.

(** A replacement template built from two inserted tags. *)
Lemma wrap_sound open close st g :
  In open tags -> In close tags ->
  True -> well_escaped g ->
  True /\ well_escaped (snd (wrap open close st g)).
Proof.
  intros Ho Hc _ Hg. split; [exact I|]. cbn [wrap snd].
  apply we_tag; [exact Ho|]. apply well_escaped_app; [exact Hg|].
  rewrite <- (app_nil_r close). apply we_tag; [exact Hc|constructor].
Qed.

Lemma sub_bold_well_escaped s : well_escaped s -> well_escaped (sub_bold s).
Proof.
  intros Hs. unfold sub_bold.
  apply (@re_sub_well_escaped unit match_bold (wrap (u "<b>") (u "</b>"))
           (fun _ => True) STAR star_delim match_bold_first match_bold_sound);
    [|exact Hs|exact I].
  intros st g. apply wrap_sound; simpl; auto.
Qed.

Lemma sub_italic_well_escaped s : well_escaped s -> well_escaped (sub_italic s).
Proof.
  intros Hs. unfold sub_italic.
  apply (@re_sub_well_escaped unit match_italic (wrap (u "<i>") (u "</i>"))
           (fun _ => True) STAR star_delim match_italic_first match_italic_sound);
    [|exact Hs|exact I].
  intros st g. apply wrap_sound; simpl; auto.
Qed.

(** *** Decimal numerals are plain text *)

Lemma uint_digitish d :
  Forall digitish (bytes_of_string (DecimalString.NilEmpty.string_of_uint d)).
Proof.
  induction d; simpl; constructor; try exact IHd; split; reflexivity.
Qed.

Lemma int_digitish i :
  Forall digitish (bytes_of_string (DecimalString.NilZero.string_of_int i)).
Proof.
  assert (H : forall d, Forall digitish
            (bytes_of_string (DecimalString.NilZero.string_of_uint d))).
  { intros d. unfold DecimalString.NilZero.string_of_uint.
    destruct d; try apply uint_digitish.
    simpl. constructor; [split; reflexivity|constructor]. }
  destruct i as [d|d]; simpl; [apply H|].
  constructor; [split; reflexivity|apply H].
Qed.

Lemma utf8_decode_ascii bs :
  Forall digitish bs ->
  Forall (fun c => is_markup_char c = false) (utf8_decode bs).
Proof.
  induction 1 as [|b bs [Hb Hp] _ IH]; [constructor|].
  cbn [utf8_decode]. apply N.ltb_lt in Hb. rewrite Hb.
  now constructor.
Qed.

Lemma str_of_int_plain z :
  Forall (fun c => is_markup_char c = false) (str_of_int z).
Proof. apply utf8_decode_ascii, int_digitish. Qed.

(** *** Placeholders *)

Lemma code_placeholder_shape i :
  exists mid, code_placeholder i = AT_SIGN :: mid ++ [AT_SIGN].
Proof.
  exists (u "@CODE" ++ str_of_int (Z.of_nat i) ++ [AT_SIGN]).
  unfold code_placeholder.
  change (u "@@CODE") with (AT_SIGN :: u "@CODE").
  change (u "@@") with ([AT_SIGN] ++ [AT_SIGN]).
  cbn [app]. now rewrite <- !app_assoc.
Qed.

Lemma plain_of_forallb s :
  forallb (fun c => negb (is_markup_char c)) s = true ->
  Forall (fun c => is_markup_char c = false) s.
Proof.
  intros H. apply Forall_forall. intros c Hc.
  rewrite forallb_forall in H. apply negb_true_iff. now apply H.
Qed.

Lemma code_placeholder_well_escaped i : well_escaped (code_placeholder i).
Proof.
  apply plain_well_escaped. unfold code_placeholder.
  apply Forall_app. split; [now apply plain_of_forallb|].
  apply Forall_app. split; [apply str_of_int_plain|now apply plain_of_forallb].
Qed.

Lemma extract_code_well_escaped s :
  well_escaped s ->
  Forall well_escaped (fst (extract_code s))
  /\ well_escaped (snd (extract_code s)).
Proof.
  intros Hs. unfold extract_code.
  apply (@re_sub_well_escaped (list str) match_code _code_repl
           (Forall well_escaped) BACKTICK backtick_delim
           match_code_first match_code_sound);
    [|exact Hs|constructor].
  intros st g Hst Hg. cbn [_code_repl fst snd]. split.
  - apply Forall_app. split; [exact Hst|]. now constructor.
  - apply code_placeholder_well_escaped.
Qed.

(** *** [str.replace] as a scan *)

Lemma replace_go_scan old new : forall s k prev,
  replace_go old new k s
  = snd (re_sub_go (match_literal old) (put new) k prev tt s).
Proof.
  induction s as [|c r IH]; intros k prev; [reflexivity|].
  cbn [replace_go re_sub_go]. destruct k as [|k]; [|apply IH].
  unfold match_literal at 1.
  destruct (startswith (c :: r) old).
  - cbn [put]. rewrite (IH (length old - 1)%nat (Some c)).
    now destruct (re_sub_go _ _ _ _ _ r).
  - rewrite (IH 0%nat (Some c)).
    now destruct (re_sub_go _ _ _ _ _ r).
Qed.

Lemma startswith_spec : forall old s,
  startswith s old = true -> exists rest, s = old ++ rest.
Proof.
  induction old as [|p old IH]; intros s H.
  - exists s. reflexivity.
  - destruct s as [|c s]; [discriminate|]. cbn [startswith] in H.
    apply andb_prop in H as [Hc H]. apply char_eqb_eq in Hc. subst c.
    destruct (IH s H) as [rest ->]. exists rest. reflexivity.
Qed.

(** Replacing a text that begins and ends with a delimiter by well-escaped
    markup keeps markup well-escaped. *)
Lemma replace_well_escaped d0 d1 mid new s :
  is_delim d0 = true -> is_delim d1 = true ->
  well_escaped new -> well_escaped s ->
  well_escaped (replace s (d0 :: mid ++ [d1]) new).
Proof.
  intros Hd0 Hd1 Hnew Hs. unfold replace.
  rewrite (replace_go_scan (d0 :: mid ++ [d1]) new s 0 None).
  apply (@re_sub_go_well_escaped unit (match_literal (d0 :: mid ++ [d1]))
           (put new) (fun _ => True) d0 Hd0) with (n := length s);
    auto.
  - intros prev c r g len E. unfold match_literal in E.
    destruct (startswith (c :: r) (d0 :: mid ++ [d1])) eqn:Es; [|discriminate].
    cbn [startswith] in Es. apply andb_prop in Es as [Es _].
    apply char_eqb_eq in Es. now subst.
  - intros prev s' g len Hs' E. unfold match_literal in E.
    destruct (startswith s' (d0 :: mid ++ [d1])) eqn:Es; [|discriminate].
    injection E as <- <-.
    apply startswith_spec in Es as [rest ->].
    split; [constructor|]. split; [|simpl; lia].
    rewrite (@skipn_whole (d0 :: mid ++ [d1]) rest) by reflexivity.
    assert (E : (d0 :: mid ++ [d1]) ++ rest = (d0 :: mid) ++ d1 :: rest)
      by (cbn [app]; now rewrite <- app_assoc).
    rewrite E in Hs'.
    now destruct (@well_escaped_split _ Hd1 _ Hs' _ _ eq_refl).
Qed.

Lemma restore_code_spans_well_escaped : forall code_spans i s,
  Forall well_escaped code_spans -> well_escaped s ->
  well_escaped (restore_code_spans i code_spans s).
Proof.
  induction code_spans as [|code rest IH]; intros i s Hcs Hs; [exact Hs|].
  inversion Hcs as [|? ? Hcode Hrest]; subst.
  cbn [restore_code_spans]. apply IH; [exact Hrest|].
  destruct (code_placeholder_shape i) as [mid ->].
  apply replace_well_escaped; try reflexivity; [|exact Hs].
  apply we_tag; [simpl; tauto|].
  apply well_escaped_app; [exact Hcode|].
  rewrite <- (app_nil_r FONT_CLOSE). apply we_tag; [simpl; tauto|constructor].
Qed.

Lemma insert_tags_well_escaped s : well_escaped s -> well_escaped (insert_tags s).
Proof.
  intros Hs. unfold insert_tags.
  destruct (extract_code_well_escaped Hs) as [Hspans Hs1].
  destruct (extract_code s) as [code_spans s1]. cbn [fst snd] in *.
  apply restore_code_spans_well_escaped; [exact Hspans|].
  now apply sub_italic_well_escaped, sub_bold_well_escaped.
Qed.

(** *** [esc] *)

Lemma replace_char c0 new s :
  replace s [c0] new = flat_map (fun c => if char_eqb c0 c then new else [c]) s.
Proof.
  unfold replace. induction s as [|c r IH]; [reflexivity|].
  cbn [replace_go startswith flat_map length Nat.sub].
  rewrite andb_true_r. rewrite IH. now destruct (char_eqb c0 c).
Qed.

Lemma esc_cons c r : esc (c :: r) = esc_char c ++ esc r.
Proof.
  unfold esc. rewrite !replace_char. cbn [flat_map].
  rewrite !flat_map_app. f_equal.
  unfold esc_char, char_eqb.
  rewrite (N.eqb_sym c AMP), (N.eqb_sym c LT), (N.eqb_sym c GT).
  destruct (N.eqb_spec AMP c) as [<-|_]; [reflexivity|].
  cbn [flat_map app].
  destruct (N.eqb_spec LT c) as [<-|_]; [reflexivity|].
  cbn [flat_map app].
  now destruct (N.eqb_spec GT c).
Qed.

Lemma esc_escaped_text s : escaped_text (esc s).
Proof.
  induction s as [|c r IH]; [constructor|].
  rewrite esc_cons. unfold esc_char, char_eqb.
  destruct (N.eqb_spec c AMP); [apply et_entity; [simpl; tauto|exact IH]|].
  destruct (N.eqb_spec c LT); [apply et_entity; [simpl; tauto|exact IH]|].
  destruct (N.eqb_spec c GT); [apply et_entity; [simpl; tauto|exact IH]|].
  apply et_char; [|exact IH].
  unfold is_markup_char, char_eqb.
  now rewrite (proj2 (N.eqb_neq c AMP)), (proj2 (N.eqb_neq c LT)),
    (proj2 (N.eqb_neq c GT)).
Qed.

(** *** Where [&] and [<] can stand in well-escaped markup *)

Lemma not_in_of_existsb d t : existsb (char_eqb d) t = false -> ~ In d t.
Proof.
  intros H Hin. assert (existsb (char_eqb d) t = true); [|congruence].
  apply existsb_exists. exists d. split; [exact Hin|apply N.eqb_refl].
Qed.

Lemma entity_shape e :
  In e entities -> exists e', e = AMP :: e' /\ ~ In AMP e' /\ ~ In LT e.
Proof.
  intros H. simpl in H.
  repeat (destruct H as [<-|H];
          [eexists; split; [reflexivity|];
           split; now apply not_in_of_existsb|]).
  contradiction.
Qed.

Lemma tag_shape t :
  In t tags -> exists t', t = LT :: t' /\ ~ In LT t' /\ ~ In AMP t.
Proof.
  intros H. simpl in H.
  repeat (destruct H as [<-|H];
          [eexists; split; [reflexivity|];
           split; now apply not_in_of_existsb|]).
  contradiction.
Qed.

(** In well-escaped markup every [<] opens an inserted tag. *)
Lemma well_escaped_lt x : well_escaped x ->
  forall a b, x = a ++ LT :: b ->
  exists t, In t tags /\ startswith (LT :: b) t = true.
Proof.
  induction 1 as [|c s Hc Hs IH|e s He Hs IH|t s Ht Hs IH]; intros a b E.
  - now destruct a.
  - destruct a as [|y a]; simpl in E; injection E as -> ->.
    + discriminate Hc.
    + now apply (IH a b).
  - destruct (entity_shape He) as (e' & _ & _ & Hlt).
    destruct (@prefix_before LT e s a b E Hlt) as (a' & _ & ->).
    now apply (IH a' b).
  - destruct a as [|y a].
    + exists t. split; [exact Ht|]. simpl in E. rewrite <- E.
      apply startswith_app.
    + destruct (tag_shape Ht) as (t' & -> & Hlt & _).
      simpl in E. injection E as _ E.
      destruct (@prefix_before LT t' s a b E Hlt) as (a' & _ & ->).
      now apply (IH a' b).
Qed.

(** In well-escaped markup every [&] opens an entity. *)
Lemma well_escaped_amp x : well_escaped x ->
  forall a b, x = a ++ AMP :: b ->
  exists e, In e entities /\ startswith (AMP :: b) e = true.
Proof.
  induction 1 as [|c s Hc Hs IH|e s He Hs IH|t s Ht Hs IH]; intros a b E.
  - now destruct a.
  - destruct a as [|y a]; simpl in E; injection E as -> ->.
    + discriminate Hc.
    + now apply (IH a b).
  - destruct a as [|y a].
    + exists e. split; [exact He|]. simpl in E. rewrite <- E.
      apply startswith_app.
    + destruct (entity_shape He) as (e' & -> & Hamp & _).
      simpl in E. injection E as _ E.
      destruct (@prefix_before AMP e' s a b E Hamp) as (a' & _ & ->).
      now apply (IH a' b).
  - destruct (tag_shape Ht) as (t' & _ & _ & Hamp).
    destruct (@prefix_before AMP t s a b E Hamp) as (a' & _ & ->).
    now apply (IH a' b).
Qed.

End InlineFacts.

(* ================================================================== *)
(** * Further properties of the chunker *)
(* ================================================================== *)

Section ChunkerMore.
Import Chunking.
Local Open Scope Z_scope.

Lemma chunk_windows_count n chunk_size overlap :
  length (chunk_windows n chunk_size overlap)
  = Z.to_nat (ceil_div n (chunk_size - overlap)).
Proof. apply windows_from_length. Qed.

(** The [k]-th window lies inside the text and is not empty. *)
Lemma chunk_windows_bounds n chunk_size overlap k w :
  0 < chunk_size -> 0 <= overlap < chunk_size -> 0 <= n ->
  nth_error (chunk_windows n chunk_size overlap) k = Some w ->
  w = (Z.of_nat k * (chunk_size - overlap),
       Z.min (Z.of_nat k * (chunk_size - overlap) + chunk_size) n)
  /\ 0 <= fst w < snd w /\ snd w <= n /\ snd w - fst w <= chunk_size.
Proof.
  intros Hc Ho Hn Hw. pose proof Hw as Hk.
  apply chunk_windows_nth in Hw. split; [exact Hw|].
  assert (Hlt : (k < length (chunk_windows n chunk_size overlap))%nat)
    by (apply nth_error_Some; rewrite Hk; discriminate).
  apply chunk_windows_start in Hlt; [|lia|lia].
  subst w. cbn [fst snd].
  assert (0 <= Z.of_nat k * (chunk_size - overlap))
    by (apply Z.mul_nonneg_nonneg; lia).
  lia.
Qed.

(** Every chunk has at least one and at most [chunk_size] characters. *)
Theorem chunk_text_chunk_sizes (A : Type) (text : list A) (chunk_size overlap : Z) :
  0 < chunk_size -> 0 <= overlap < chunk_size ->
  exists chunks,
    chunk_text text chunk_size overlap = Ok chunks
    /\ Forall (fun c => 0 < Z.of_nat (length c) <= chunk_size) chunks.
Proof.
  intros Hc Ho.
  destruct (@chunk_text_cases A text chunk_size overlap Hc Ho)
    as [E|(_ & _ & _ & E)]; rewrite E; eexists; (split; [reflexivity|]);
    [|constructor].
  apply Forall_forall. intros c Hin.
  apply in_map_iff in Hin as (w & <- & Hw).
  apply In_nth_error in Hw as [k Hk].
  destruct (@chunk_windows_bounds (Z.of_nat (length text)) chunk_size overlap
              k w Hc Ho ltac:(lia) Hk) as (_ & H1 & H2 & H3).
  unfold cut. rewrite slice_length by lia. lia.
Qed.

Lemma chunk_text_chunk_sizes_witness :
  exists chunks,
    chunk_text (u "abcdefghij") 4 1 = Ok chunks
    /\ Forall (fun c => 0 < Z.of_nat (length c) <= 4) chunks.
Proof. apply chunk_text_chunk_sizes; lia. Defined.

(** The text comes back as a single chunk exactly when it is not empty and
    no longer than the step [chunk_size - overlap] and, with [overlap = 0],
    [chunk_size] is below [n * 2^1075], so that the floating-point count is
    not rounded to zero.  A text that fits in [chunk_size] but not in the
    step is cut into several chunks. *)
Theorem chunk_text_single_chunk (A : Type) (text : list A) (chunk_size overlap : Z) :
  0 < chunk_size -> 0 <= overlap < chunk_size ->
  (chunk_text text chunk_size overlap = Ok [text]
   <-> 0 < Z.of_nat (length text) <= chunk_size - overlap
       /\ (overlap = 0 -> chunk_size < Z.of_nat (length text) * 2 ^ 1075)).
Proof.
  intros Hc Ho.
  destruct (@chunk_text_cases A text chunk_size overlap Hc Ho)
    as [E|(Hov & Hn & Hq & E)]; rewrite E.
  2: { split; [discriminate|]. intros [_ H]. specialize (H Hov). lia. }
  set (n := Z.of_nat (length text)). set (step := chunk_size - overlap).
  assert (Hcount : length (chunk_windows n chunk_size overlap) = 1%nat
                   <-> 0 < n <= step).
  { rewrite chunk_windows_count. fold step. unfold ceil_div.
    assert (Hn : 0 <= n) by (unfold n; lia).
    assert (Hs : 0 < step) by (unfold step; lia).
    split.
    - intros H.
      assert (H1 : (n + step - 1) / step = 1) by lia.
      pose proof (Z.mul_div_le (n + step - 1) step Hs).
      pose proof (Z.mul_succ_div_gt (n + step - 1) step Hs).
      rewrite H1 in *. lia.
    - intros H.
      replace (n + step - 1) with ((n - 1) + 1 * step) by lia.
      rewrite Z.div_add by lia. rewrite Z.div_small by lia. reflexivity. }
  assert (Hexact : 0 < n <= step -> overlap = 0 -> chunk_size < n * 2 ^ 1075).
  { intros Hn Hov.
    destruct (Z.le_gt_cases (n * 2 ^ 1075) chunk_size) as [Hq|Hq]; [|exact Hq].
    exfalso. pose proof (proj2 Hcount Hn) as Hlen.
    unfold n in Hq. subst overlap.
    rewrite (@chunk_text_underflow A text chunk_size) in E by (fold n; lia).
    injection E as E. apply (f_equal (@length _)) in E.
    rewrite length_map in E. fold n in E. rewrite Hlen in E. discriminate E. }
  split.
  - intros H. injection H as H.
    assert (Hn : 0 < n <= step).
    { apply Hcount. apply (f_equal (@length _)) in H.
      now rewrite length_map in H. }
    split; [exact Hn|now apply Hexact].
  - intros [H _]. pose proof (proj2 Hcount H) as Hlen.
    unfold chunk_windows in *. fold step in Hlen |- *.
    rewrite windows_from_length in Hlen. rewrite Hlen.
    cbn [windows_from map]. unfold cut. cbn [fst snd].
    rewrite Z.min_r by (fold n; lia). fold n.
    unfold n. now rewrite slice_all.
Qed.

Lemma chunk_text_single_chunk_witness :
  chunk_text (u "abc") 5 0 = Ok [u "abc"]
  <-> 0 < Z.of_nat (length (u "abc")) <= 5 - 0
      /\ (0 = 0 -> 5 < Z.of_nat (length (u "abc")) * 2 ^ 1075).
Proof. apply chunk_text_single_chunk; lia. Defined.

(** A chunk shorter than [chunk_size] reaches the end of the text, and the
    chunk after it, if there is one, is that chunk without its first
    [chunk_size - overlap] characters: it carries no new text. *)
Theorem chunk_after_short_chunk (A : Type) (text : list A) (chunk_size overlap : Z)
        (chunks : list (list A)) (k : nat) (c c' : list A) :
  0 < chunk_size -> 0 <= overlap < chunk_size ->
  chunk_text text chunk_size overlap = Ok chunks ->
  nth_error chunks k = Some c ->
  nth_error chunks (S k) = Some c' ->
  Z.of_nat (length c) < chunk_size ->
  c' = slice_from c (chunk_size - overlap).
Proof.
  intros Hc Ho Hrun Hk Hk' Hshort.
  destruct (@chunk_text_cases A text chunk_size overlap Hc Ho)
    as [E|(_ & _ & _ & E)]; rewrite E in Hrun; injection Hrun as <-;
    [|destruct k; discriminate Hk].
  rewrite nth_error_map in Hk, Hk'.
  set (n := Z.of_nat (length text)) in *.
  destruct (nth_error (chunk_windows n chunk_size overlap) k) as [w|] eqn:Ew;
    [|discriminate].
  destruct (nth_error (chunk_windows n chunk_size overlap) (S k)) as [w'|] eqn:Ew';
    [|discriminate].
  injection Hk as <-. injection Hk' as <-.
  assert (Hn : 0 <= n) by (unfold n; lia).
  destruct (@chunk_windows_bounds n chunk_size overlap k w Hc Ho Hn Ew)
    as (-> & B1 & B2 & B3).
  destruct (@chunk_windows_bounds n chunk_size overlap (S k) w' Hc Ho Hn Ew')
    as (-> & B1' & B2' & B3').
  unfold cut in *. cbn [fst snd] in *.
  rewrite slice_length in Hshort by (fold n; lia).
  rewrite Nat2Z.inj_succ in *.
  rewrite slice_from_slice by (fold n; lia).
  f_equal; lia.
Qed.

Lemma chunk_after_short_chunk_witness :
  u "de" = slice_from (u "cde") (4 - 3).
Proof.
  apply (@chunk_after_short_chunk char (u "abcde") 4 3
           [u "abcd"; u "bcde"; u "cde"; u "de"; u "e"] 2 (u "cde") (u "de"));
    try lia; reflexivity.
Defined.

End ChunkerMore.

(* ================================================================== *)
(** * Further properties of the orchestrator *)
(* ================================================================== *)

Section OrchestratorMore.
Import Core Chunking RunParts.
Local Open Scope Z_scope.

Variable world : Type.
Variable gc : str -> str -> world -> outcome (option str) * world.

Lemma strip_idempotent s : strip (strip s) = strip s.
Proof.
  destruct (strip_cases s) as [->|[Hs He]]; [reflexivity|].
  now apply strip_solid.
Qed.

(** The first chunk of a non-empty text starts at its first character. *)
Lemma chunk_text_first (text : str) (chunk_size overlap : Z) :
  0 < chunk_size -> 0 <= overlap < chunk_size -> text <> [] ->
  (overlap = 0 -> chunk_size < Z.of_nat (length text) * 2 ^ 1075) ->
  exists rest,
    chunk_text text chunk_size overlap
    = Ok (slice text 0 (Z.min chunk_size (Z.of_nat (length text))) :: rest).
Proof.
  intros Hc Ho Hne Hq. rewrite chunk_text_windows by auto.
  unfold chunk_windows.
  set (n := Z.of_nat (length text)). set (step := chunk_size - overlap).
  pose proof (@ceil_div_covers n step ltac:(unfold step; lia) ltac:(unfold n; lia))
    as Hcover.
  destruct (Z.to_nat (ceil_div n step)) as [|m].
  - destruct text; [congruence|]. unfold n in Hcover. simpl in Hcover. lia.
  - eexists. cbn [windows_from map]. reflexivity.
Qed.

Lemma first_chunk_nonblank (t : str) (chunk_size : Z) :
  0 < chunk_size -> starts_solid t = true ->
  strip (slice t 0 (Z.min chunk_size (Z.of_nat (length t)))) <> [].
Proof.
  intros Hc Hs. apply strip_nonblank_l.
  rewrite slice_sub by lia. unfold sub. cbn [Z.to_nat Nat.min skipn].
  apply firstn_starts_solid; [|exact Hs].
  destruct t; [discriminate|]. simpl length. lia.
Qed.

(** A blank chunk stops the loop with the error of an empty input. *)
Lemma summarize_chunks_blank kw total :
  always_answers gc ->
  forall chunks, Exists (fun ch => strip ch = []) chunks ->
  forall i parts w,
  exists w', summarize_chunks gc kw total i chunks parts w = (Raise EMPTY_INPUT, w').
Proof.
  intros Hgc chunks. induction chunks as [|ch chunks IH]; intros Hex i parts w.
  - inversion Hex.
  - cbn [summarize_chunks]. unfold mbind.
    destruct (strip ch) as [|c0 t0] eqn:Ech.
    + exists w. unfold summarize_text_to_markdown. rewrite Ech. reflexivity.
    + destruct (@summarize_text_answers world gc Hgc ch
                  (per_chunk_kwargs kw i total) w) as (md & w1 & ->);
        [congruence|].
      apply IH. inversion Hex as [? ? Hb|? ? Hb]; subst; [congruence|exact Hb].
Qed.

End OrchestratorMore.

Section OrchestratorExtras.
Import Core Chunking RunParts.
Local Open Scope Z_scope.

(** A text that is blank after trimming is refused by both entry points
    with the "empty input" error, and the completion service is not called:
    the world is the one before the call. *)
Theorem blank_text_rejected
        (world : Type) (gc : str -> str -> world -> outcome (option str) * world)
        (text : str) (kw : kwargs) (w : world) :
  strip text = [] ->
  summarize_long_text_to_markdown gc text kw w = (Raise EMPTY_INPUT, w)
  /\ summarize_text_to_markdown gc text kw w = (Raise EMPTY_INPUT, w).
Proof.
  intros H. unfold summarize_long_text_to_markdown, summarize_text_to_markdown.
  rewrite H. split; reflexivity.
Qed.

Lemma blank_text_rejected_witness :
  summarize_long_text_to_markdown (recording (u "ok")) (u "  ") no_kwargs []
  = (Raise EMPTY_INPUT, [])
  /\ summarize_text_to_markdown (recording (u "ok")) (u "  ") no_kwargs []
     = (Raise EMPTY_INPUT, []).
Proof. apply blank_text_rejected. reflexivity. Defined.

(** With a text that is not blank, chunking arguments the chunker refuses
    make the orchestrator raise the chunker's [ValueError] before any
    completion call. *)
Theorem invalid_chunking_rejected
        (world : Type) (gc : str -> str -> world -> outcome (option str) * world)
        (text : str) (kw : kwargs) (w : world) (chunk_size overlap : Z) :
  strip text <> [] ->
  chunker_args kw = (chunk_size, overlap) ->
  chunk_size <= 0 \/ overlap < 0 \/ overlap >= chunk_size ->
  exists msg,
    summarize_long_text_to_markdown gc text kw w = (Raise (ValueError msg), w).
Proof.
  intros Hne Hargs Hbad. unfold summarize_long_text_to_markdown.
  destruct (strip text) as [|c t] eqn:Et; [congruence|].
  rewrite Hargs. cbn [fst snd]. unfold mbind, lift, chunk_text.
  destruct (Z.leb_spec chunk_size 0); [eauto|].
  destruct (Z.ltb_spec overlap 0); [eauto|].
  destruct (Z.geb_spec overlap chunk_size); [eauto|].
  lia.
Qed.

Lemma invalid_chunking_rejected_witness :
  exists msg,
    summarize_long_text_to_markdown (recording (u "ok")) (u "hola")
      (with_chunking no_kwargs (Some 100) (Some 100)) []
    = (Raise (ValueError msg), []).
Proof.
  apply (@invalid_chunking_rejected _ _ _ _ _ 100 100);
    [discriminate|reflexivity|lia].
Defined.

(** A chunk made of white space only aborts the whole run with the "empty
    input" error, although the text as a whole is not blank: the chunk is
    trimmed before it is summarised. *)
Theorem blank_chunk_aborts
        (world : Type) (gc : str -> str -> world -> outcome (option str) * world)
        (text : str) (kw : kwargs) (w : world) (chunks : list str) :
  always_answers gc ->
  strip text <> [] ->
  chunk_text (strip text) (fst (chunker_args kw)) (snd (chunker_args kw))
  = Ok chunks ->
  Exists (fun ch => strip ch = []) chunks ->
  exists w',
    summarize_long_text_to_markdown gc text kw w = (Raise EMPTY_INPUT, w').
Proof.
  intros Hgc Hne Hchunks Hblank. unfold summarize_long_text_to_markdown.
  destruct (strip text) as [|c t] eqn:Et; [congruence|].
  unfold mbind at 1. unfold lift. rewrite Hchunks.
  destruct chunks as [|ch chunks]; [inversion Hblank|].
  cbv beta iota zeta. unfold mbind.
  match goal with
  | |- context [summarize_chunks gc kw ?total 1 ?cs [] w] =>
      destruct (@summarize_chunks_blank world gc kw total Hgc cs Hblank 1 [] w)
        as (w' & ->)
  end.
  exists w'. reflexivity.
Qed.

Lemma blank_chunk_aborts_witness :
  exists w',
    summarize_long_text_to_markdown (recording (u "ok")) (u "a    b")
      (with_chunking no_kwargs (Some 2) (Some 0)) []
    = (Raise EMPTY_INPUT, w').
Proof.
  apply (@blank_chunk_aborts _ _ _ _ _ [u "a "; u "  "; u " b"]).
  - intros m p w0. do 2 eexists. reflexivity.
  - discriminate.
  - reflexivity.
  - apply Exists_cons_tl, Exists_cons_hd. reflexivity.
Defined.

(** When the completion service raises, the run raises the same error:
    no partial document comes back.  The run must reach the service: with
    [overlap_chars = 0] the chunk size has to be below [n * 2^1075] for the
    [n] characters of the trimmed text, or the chunker returns no chunk and
    the run returns the empty document without any call. *)
Theorem completion_failure_aborts
        (world : Type) (gc : str -> str -> world -> outcome (option str) * world)
        (e : exn) (text : str) (kw : kwargs) (w : world) :
  (forall model_name contents w0, exists w1,
      gc model_name contents w0 = (Raise e, w1)) ->
  strip text <> [] ->
  0 < fst (chunker_args kw) ->
  0 <= snd (chunker_args kw) < fst (chunker_args kw) ->
  (snd (chunker_args kw) = 0 ->
   fst (chunker_args kw) < Z.of_nat (length (strip text)) * 2 ^ 1075) ->
  exists w',
    summarize_long_text_to_markdown gc text kw w = (Raise e, w').
Proof.
  intros Hgc Hne Hc Ho Hq. unfold summarize_long_text_to_markdown.
  destruct (strip_cases text) as [E|[Hs _]]; [contradiction|].
  destruct (chunk_text_first Hc Ho Hne Hq) as [rest Hrun].
  pose proof (@first_chunk_nonblank (strip text) (fst (chunker_args kw)) Hc Hs)
    as Hfirst.
  destruct (strip text) as [|c t] eqn:Et; [congruence|].
  unfold mbind at 1. unfold lift. rewrite Hrun.
  unfold mbind. cbn [summarize_chunks]. unfold mbind.
  unfold summarize_text_to_markdown at 1.
  destruct (strip (slice (c :: t) 0
              (Z.min (fst (chunker_args kw)) (Z.of_nat (length (c :: t))))))
    as [|c1 t1]; [congruence|].
  unfold mbind, generate_text, mbind.
  match goal with
  | |- context [gc ?m ?p w] => destruct (Hgc m p w) as (w1 & ->)
  end.
  exists w1. reflexivity.
Qed.

Lemma completion_failure_aborts_witness :
  exists w',
    summarize_long_text_to_markdown
      (@failing (list str) (ExternalError "quota"))
      (u "hola mundo") (with_chunking no_kwargs (Some 4) (Some 0)) []
    = (Raise (ExternalError "quota"), w').
Proof.
  apply completion_failure_aborts.
  - intros m p w0. eexists. reflexivity.
  - discriminate.
  - reflexivity.
  - split; [discriminate|reflexivity].
  - intros _. reflexivity.
Defined.

End OrchestratorExtras.

Section OrchestratorCalls.
Import Core Chunking RunParts.
Local Open Scope Z_scope.

Lemma chunk_prompts_length kw total : forall chunks i,
  length (chunk_prompts kw total i chunks) = length chunks.
Proof. induction chunks; intros; simpl; auto. Qed.

Lemma summarize_text_recording ans ch kw log :
  strip ch <> [] ->
  summarize_text_to_markdown (recording ans) ch kw log
  = (Ok (strip (strip ans)),
     log ++ [full_prompt
               (Prompts.build_prompt (arg_or DEFAULT_LANGUAGE (language kw))
                  (arg_or DEFAULT_TOPIC (topic kw))
                  (role_key kw) (role_custom kw)
                  (output_key kw) (output_custom kw))
               (strip ch)]).
Proof.
  intros H. unfold summarize_text_to_markdown.
  destruct (strip ch) as [|c t]; [congruence|]. reflexivity.
Qed.

Lemma summarize_chunks_recording ans kw total :
  forall chunks, Forall (fun ch => strip ch <> []) chunks ->
  forall i parts log,
    summarize_chunks (recording ans) kw total i chunks parts log
    = (Ok (parts ++ sections total i (repeat (strip (strip ans)) (length chunks))),
       log ++ chunk_prompts kw total i chunks).
Proof.
  induction 1 as [|ch chunks Hch _ IH]; intros i parts log.
  - simpl. unfold ret. now rewrite !app_nil_r.
  - cbn [summarize_chunks]. unfold mbind.
    rewrite summarize_text_recording by exact Hch.
    rewrite IH. cbn [length repeat sections chunk_prompts].
    rewrite <- !app_assoc. reflexivity.
Qed.

(** With a service that answers, and no blank chunk, the service is called
    exactly once per chunk, in chunk order, each time with the prompt built
    for that chunk from its trimmed text and its part directive. *)
Theorem one_call_per_chunk (ans text : str) (kw : kwargs) (log : list str)
        (chunks : list str) :
  strip text <> [] ->
  chunk_text (strip text) (fst (chunker_args kw)) (snd (chunker_args kw))
  = Ok chunks ->
  Forall (fun ch => strip ch <> []) chunks ->
  snd (summarize_long_text_to_markdown (recording ans) text kw log)
  = log ++ chunk_prompts kw (Z.of_nat (length chunks)) 1 chunks
  /\ length (chunk_prompts kw (Z.of_nat (length chunks)) 1 chunks)
     = length chunks.
Proof.
  intros Hne Hrun Hall. split.
  - unfold summarize_long_text_to_markdown.
    destruct (strip text) as [|c t] eqn:Et; [congruence|].
    unfold mbind at 1. unfold lift. rewrite Hrun.
    destruct chunks as [|ch chunks]; [simpl; now rewrite app_nil_r|].
    cbv beta iota zeta. unfold mbind.
    match goal with
    | |- context [summarize_chunks _ kw ?total 1 ?cs [] log] =>
        rewrite (@summarize_chunks_recording ans kw total cs Hall 1 [] log)
    end.
    reflexivity.
  - apply chunk_prompts_length.
Qed.

Lemma one_call_per_chunk_witness :
  snd (summarize_long_text_to_markdown (recording (u "ok")) (u "hola mundo")
         (with_chunking no_kwargs (Some 4) (Some 1)) [])
  = [] ++ chunk_prompts (with_chunking no_kwargs (Some 4) (Some 1))
            (Z.of_nat (length [u "hola"; u "a mu"; u "undo"; u "o"])) 1
            [u "hola"; u "a mu"; u "undo"; u "o"]
  /\ length (chunk_prompts (with_chunking no_kwargs (Some 4) (Some 1))
               (Z.of_nat (length [u "hola"; u "a mu"; u "undo"; u "o"])) 1
               [u "hola"; u "a mu"; u "undo"; u "o"])
     = length [u "hola"; u "a mu"; u "undo"; u "o"].
Proof.
  apply one_call_per_chunk.
  - discriminate.
  - reflexivity.
  - repeat constructor; discriminate.
Defined.

(** A text no longer than the step is one chunk. *)
Lemma chunk_text_whole (A : Type) (text : list A) (chunk_size overlap : Z) :
  0 < chunk_size -> 0 <= overlap < chunk_size ->
  0 < Z.of_nat (length text) <= chunk_size - overlap ->
  (overlap = 0 -> chunk_size < Z.of_nat (length text) * 2 ^ 1075) ->
  chunk_text text chunk_size overlap = Ok [text].
Proof.
  intros Hc Ho Hn Hq. rewrite chunk_text_windows by auto.
  unfold chunk_windows, ceil_div.
  replace (Z.of_nat (length text) + (chunk_size - overlap) - 1)
    with ((Z.of_nat (length text) - 1) + 1 * (chunk_size - overlap)) by lia.
  rewrite Z.div_add by lia. rewrite Z.div_small by lia.
  change (Z.to_nat (0 + 1)) with 1%nat. cbn [windows_from map].
  unfold cut. cbn [fst snd]. rewrite Z.min_r by lia. now rewrite slice_all.
Qed.

(** On a text that fits in one step the long path is the single call on
    the trimmed text, made with the directive of part 1/1, with the heading
    "## Parte 1/1" put before its result; the errors of that call are the
    errors of the run.  With [overlap_chars = 0] the chunk size has to be
    below [n * 2^1075] for the [n] characters of the trimmed text: from
    there on the chunker returns no chunk at all. *)
Theorem short_text_is_one_part
        (world : Type) (gc : str -> str -> world -> outcome (option str) * world)
        (text : str) (kw : kwargs) (w : world) :
  0 < fst (chunker_args kw) ->
  0 <= snd (chunker_args kw) < fst (chunker_args kw) ->
  0 < Z.of_nat (length (strip text))
    <= fst (chunker_args kw) - snd (chunker_args kw) ->
  (snd (chunker_args kw) = 0 ->
   fst (chunker_args kw) < Z.of_nat (length (strip text)) * 2 ^ 1075) ->
  summarize_long_text_to_markdown gc text kw w
  = match summarize_text_to_markdown gc (strip text) (per_chunk_kwargs kw 1 1) w with
    | (Ok md, w') => (Ok (strip (u "## Parte 1/1" ++ [LF; LF] ++ md)), w')
    | (Raise e, w') => (Raise e, w')
    | (OutOfFuel, w') => (OutOfFuel, w')
    end.
Proof.
  intros Hc Ho Hn Hq. unfold summarize_long_text_to_markdown.
  rewrite (chunk_text_whole (strip text) Hc Ho Hn Hq).
  destruct (strip text) as [|c t] eqn:Et; [simpl in Hn; lia|].
  unfold mbind at 1. unfold lift. cbv beta iota zeta.
  cbn [length Z.of_nat Pos.of_succ_nat summarize_chunks].
  unfold mbind.
  destruct (summarize_text_to_markdown gc (c :: t) (per_chunk_kwargs kw 1 1) w)
    as [[md|e|] w']; try reflexivity.
  unfold ret. cbn [app join]. now rewrite strip_idempotent.
Qed.

Lemma short_text_is_one_part_witness :
  summarize_long_text_to_markdown (recording (u " ok ")) (u " hola ")
    (with_chunking no_kwargs (Some 10) (Some 0)) []
  = match summarize_text_to_markdown (recording (u " ok ")) (strip (u " hola "))
            (per_chunk_kwargs (with_chunking no_kwargs (Some 10) (Some 0)) 1 1) []
    with
    | (Ok md, w') => (Ok (strip (u "## Parte 1/1" ++ [LF; LF] ++ md)), w')
    | (Raise e, w') => (Raise e, w')
    | (OutOfFuel, w') => (OutOfFuel, w')
    end.
Proof.
  apply short_text_is_one_part.
  - reflexivity.
  - split; [discriminate|reflexivity].
  - split; [reflexivity|discriminate].
  - intros _. reflexivity.
Defined.

(** Whatever either entry point returns has no white space at its ends. *)
Theorem markdown_is_trimmed
        (world : Type) (gc : str -> str -> world -> outcome (option str) * world)
        (text : str) (kw : kwargs) (w w' : world) (md : str) :
  summarize_long_text_to_markdown gc text kw w = (Ok md, w')
  \/ summarize_text_to_markdown gc text kw w = (Ok md, w') ->
  strip md = md.
Proof.
  intros [H|H].
  - unfold summarize_long_text_to_markdown in H.
    destruct (strip text) as [|c t]; [discriminate|].
    unfold mbind at 1 in H. unfold lift in H.
    destruct (chunk_text _ _ _) as [[|ch chunks]|e|]; try discriminate.
    + injection H as <- _. reflexivity.
    + cbv beta iota zeta in H. unfold mbind in H.
      destruct (summarize_chunks _ _ _ _ _ _ _) as [[parts|e|] w1];
        try discriminate.
      injection H as <- _. apply strip_idempotent.
  - unfold summarize_text_to_markdown in H.
    destruct (strip text) as [|c t]; [discriminate|].
    unfold mbind in H.
    destruct (generate_text _ _ _ _) as [[r|e|] w1]; try discriminate.
    injection H as <- _. apply strip_idempotent.
Qed.

Lemma markdown_is_trimmed_witness : strip (u "ok") = u "ok".
Proof.
  eapply (@markdown_is_trimmed _ (recording (u " ok ")) (u "hola") no_kwargs []).
  right. vm_compute. reflexivity.
Defined.

End OrchestratorCalls.

(* ================================================================== *)
(** * Further properties of the prompt builder *)
(* ================================================================== *)

Section PromptFacts.
Import Prompts PromptParts.

Lemma str_eqb_eq : forall a b, str_eqb a b = true -> a = b.
Proof.
  induction a as [|x a IH]; intros [|y b] H; try discriminate; [reflexivity|].
  simpl in H. apply andb_prop in H as [Hx H].
  apply N.eqb_eq in Hx. subst y. f_equal. now apply IH.
Qed.

(** A key absent from a dict literal gets the default. *)
Lemma dict_get_missing d key default :
  ~ In key (keys d) -> dict_get d key default = default.
Proof.
  induction d as [|[k v] d IH]; intros H; [reflexivity|]. simpl.
  destruct (str_eqb k key) eqn:E.
  - apply str_eqb_eq in E. subst k. exfalso. apply H. now left.
  - apply IH. intros Hin. apply H. now right.
Qed.

(** [strip a or b] has solid ends when [b] has. *)
Lemma or_str_strip_solid a b :
  starts_solid b = true -> ends_solid b = true ->
  starts_solid (or_str (strip a) b) = true
  /\ ends_solid (or_str (strip a) b) = true.
Proof.
  intros Hs He. destruct (strip_cases a) as [->|[Hs' He']]; [now split|].
  destruct (strip a); [discriminate|]. now split.
Qed.

Lemma role_text_solid role_key role_custom :
  starts_solid (role_text role_key role_custom) = true
  /\ ends_solid (role_text role_key role_custom) = true.
Proof.
  unfold role_text.
  apply or_str_strip_solid; apply or_str_strip_solid; reflexivity.
Qed.

Lemma output_text_solid output_key output_custom :
  starts_solid (output_text output_key output_custom) = true
  /\ ends_solid (output_text output_key output_custom) = true.
Proof.
  unfold output_text.
  apply or_str_strip_solid; apply or_str_strip_solid; reflexivity.
Qed.

(** The instruction block is the fixed preamble, the language, the topic,
    the role text and the output text under their headings, in this order;
    the final trimming removes the last newline and nothing else, and
    neither the role text nor the output text is ever blank. *)
Theorem build_prompt_layout
        (language topic : str)
        (role_key role_custom output_key output_custom : option str) :
  build_prompt language topic role_key role_custom output_key output_custom
  = BASE ++ [LF] ++ [LF]
    ++ u "IDIOMA: " ++ language ++ [LF]
    ++ u "TEMA/MATERIA: " ++ topic ++ [LF] ++ [LF]
    ++ u "ROL (contexto):" ++ [LF]
    ++ role_text role_key role_custom ++ [LF] ++ [LF]
    ++ u "TIPO DE SALIDA (requisitos):" ++ [LF]
    ++ output_text output_key output_custom
  /\ strip (role_text role_key role_custom) = role_text role_key role_custom
  /\ role_text role_key role_custom <> []
  /\ strip (output_text output_key output_custom)
     = output_text output_key output_custom
  /\ output_text output_key output_custom <> [].
Proof.
  destruct (role_text_solid role_key role_custom) as [Rs Re].
  destruct (output_text_solid output_key output_custom) as [Os Oe].
  split; [|repeat split; try (now apply strip_solid);
           now apply ends_solid_nonempty].
  unfold build_prompt. fold (role_text role_key role_custom).
  fold (output_text output_key output_custom).
  set (out := output_text output_key output_custom) in *.
  set (role := role_text role_key role_custom) in *.
  match goal with
  | |- strip ?l = ?r => replace l with (r ++ [LF])
      by (now rewrite <- !app_assoc)
  end.
  rewrite strip_app_solid.
  - apply app_nil_r.
  - now apply starts_solid_app.
  - rewrite !app_assoc. rewrite ends_solid_app; [exact Oe|].
    now apply ends_solid_nonempty.
Qed.

(** Without a usable custom text (none, empty or white space only), a key
    of a preset selects that preset's text and any other key, or none,
    selects the default; this holds for the role and for the output
    format. *)
Theorem preset_fallback (key custom : option str) :
  strip (or_empty custom) = [] ->
  (forall v, In (or_empty key, v) OUTPUT_PRESETS -> output_text key custom = v)
  /\ (~ In (or_empty key) (keys OUTPUT_PRESETS) ->
      output_text key custom = DEFAULT_OUTPUT)
  /\ (forall v, In (or_empty key, v) ROLE_PRESETS -> role_text key custom = v)
  /\ (~ In (or_empty key) (keys ROLE_PRESETS) ->
      role_text key custom = DEFAULT_ROLE).
Proof.
  intros Hc. unfold output_text, role_text. rewrite Hc. cbn [or_str].
  repeat split.
  - intros v Hin. simpl in Hin.
    repeat (destruct Hin as [Hin|Hin];
            [injection Hin as <- <-; reflexivity|]).
    contradiction.
  - intros Hk. now rewrite dict_get_missing.
  - intros v Hin. simpl in Hin.
    repeat (destruct Hin as [Hin|Hin];
            [injection Hin as <- <-; reflexivity|]).
    contradiction.
  - intros Hk. now rewrite dict_get_missing.
Qed.

Lemma preset_fallback_witness :
  (forall v, In (or_empty (Some (u "resumen")), v) OUTPUT_PRESETS ->
     output_text (Some (u "resumen")) (Some (u "  ")) = v)
  /\ (~ In (or_empty (Some (u "resumen"))) (keys OUTPUT_PRESETS) ->
      output_text (Some (u "resumen")) (Some (u "  ")) = DEFAULT_OUTPUT)
  /\ (forall v, In (or_empty (Some (u "resumen")), v) ROLE_PRESETS ->
     role_text (Some (u "resumen")) (Some (u "  ")) = v)
  /\ (~ In (or_empty (Some (u "resumen"))) (keys ROLE_PRESETS) ->
      role_text (Some (u "resumen")) (Some (u "  ")) = DEFAULT_ROLE).
Proof. apply preset_fallback. reflexivity. Defined.

End PromptFacts.

(* ================================================================== *)
(** * Further properties of the renderer *)
(* ================================================================== *)

Section InlineMore.
Import PdfExport RenderParts.

Lemma inert_forall s :
  forallb is_inert s = true ->
  Forall (fun c => is_markup_char c = false) s
  /\ ~ In STAR s /\ ~ In BACKTICK s.
Proof.
  intros H. rewrite forallb_forall in H. repeat split.
  - apply Forall_forall. intros c Hc. specialize (H c Hc).
    unfold is_inert in H. apply negb_true_iff in H.
    now apply orb_false_iff in H as [H _]; apply orb_false_iff in H as [H _].
  - intros Hin. specialize (H STAR Hin). discriminate H.
  - intros Hin. specialize (H BACKTICK Hin). discriminate H.
Qed.

Lemma esc_plain s :
  Forall (fun c => is_markup_char c = false) s -> esc s = s.
Proof.
  induction 1 as [|c r Hc _ IH]; [reflexivity|].
  rewrite esc_cons, IH. unfold esc_char.
  unfold is_markup_char in Hc.
  apply orb_false_iff in Hc as [Hc Hgt]. apply orb_false_iff in Hc as [Hamp Hlt].
  now rewrite Hamp, Hlt, Hgt.
Qed.

(** A scan over a text without the pattern's first character changes
    neither the text nor the state. *)
Lemma re_sub_no_delimiter (St : Type)
      (match_at : option char -> str -> option (str * nat))
      (repl : St -> str -> St * str) (d0 : char) (st : St) (s : str) :
  (forall prev c r g len, match_at prev (c :: r) = Some (g, len) -> c = d0) ->
  ~ In d0 s ->
  re_sub match_at repl st s = (st, s).
Proof.
  intros Hfirst Hs. unfold re_sub.
  destruct (@re_sub_go_copy St match_at repl d0 Hfirst s Hs [] None st)
    as (prev' & H).
  rewrite app_nil_r in H. rewrite H. simpl. now rewrite app_nil_r.
Qed.

Lemma inert_unchanged (s : str) :
  forallb is_inert s = true -> md_inline_to_rl s = s.
Proof.
  intros H. destruct (inert_forall s H) as (Hplain & Hstar & Htick).
  unfold md_inline_to_rl. rewrite esc_plain by exact Hplain.
  unfold insert_tags, extract_code.
  rewrite (@re_sub_no_delimiter _ match_code _code_repl BACKTICK [] s
             match_code_first Htick).
  unfold sub_bold.
  rewrite (@re_sub_no_delimiter _ match_bold _ STAR tt s match_bold_first Hstar).
  cbn [snd]. unfold sub_italic.
  rewrite (@re_sub_no_delimiter _ match_italic _ STAR tt s
             match_italic_first Hstar).
  reflexivity.
Qed.

(** Text without [&], [<], [>], [*] and backticks goes through the inline
    formatter unchanged. *)
Theorem inert_text_unchanged (s : str) :
  forallb is_inert s = true -> md_inline_to_rl s = s.
Proof. exact (@inert_unchanged s). Qed.

Lemma inert_text_unchanged_witness :
  md_inline_to_rl (u "Redes neuronales: capas y pesos.")
  = u "Redes neuronales: capas y pesos.".
Proof. apply inert_text_unchanged. reflexivity. Defined.

End InlineMore.

Section StoryFacts.
Import PdfExport RenderParts.

Lemma story_items_app a b : story_items (a ++ b) = story_items a ++ story_items b.
Proof. apply flat_map_app. Qed.

Lemma story_paragraphs_app a b :
  story_paragraphs (a ++ b) = story_paragraphs a ++ story_paragraphs b.
Proof. apply filter_app. Qed.

Lemma item_text_map items :
  map item_text (map (fun item => ListItem (Paragraph (md_inline_to_rl item) body)) items)
  = map md_inline_to_rl items.
Proof. induction items; simpl; congruence. Qed.

(** Flushing moves the pending items into the story, in order. *)
Lemma flush_bullets_spec st :
  pending_bullets (flush_bullets st) = []
  /\ story_items (story (flush_bullets st))
     = story_items (story st) ++ map md_inline_to_rl (pending_bullets st)
  /\ story_paragraphs (story (flush_bullets st)) = story_paragraphs (story st).
Proof.
  unfold flush_bullets. destruct (pending_bullets st) as [|b bs] eqn:E.
  - rewrite E. simpl. now rewrite app_nil_r.
  - cbn [pending_bullets story]. split; [reflexivity|]. split.
    + rewrite story_items_app. cbn [story_items flat_map].
      rewrite item_text_map. now rewrite !app_nil_r.
    + rewrite story_paragraphs_app. simpl. now rewrite app_nil_r.
Qed.

Lemma heading_or_paragraph_is_paragraph line : forall prefixes,
  exists markup sty, heading_or_paragraph prefixes line = Paragraph markup sty.
Proof.
  induction prefixes as [|[p sty] rest IH]; simpl; [eauto|].
  destruct (startswith line p); eauto.
Qed.

Lemma render_line_invariant st lines raw :
  story_invariant st lines ->
  story_invariant (render_line st raw) (lines ++ [raw]).
Proof.
  intros [Hitems Hpars]. unfold story_invariant.
  rewrite !filter_app, !map_app. cbn [filter].
  destruct (flush_bullets_spec st) as (Fp & Fi & Fs).
  set (items := map item_markup (filter is_bullet_line lines)) in *.
  set (pars := map text_block (filter is_text_line lines)) in *.
  clearbody items pars.
  unfold render_line, is_text_line, is_blank_line, is_rule_line,
    is_bullet_line, item_markup, text_block.
  destruct (strip raw) as [|c line] eqn:Eraw.
  - (* blank *)
    cbn [startswith orb negb andb map append story pending_bullets].
    rewrite story_items_app, story_paragraphs_app, Fp, Fi, Fs.
    cbn [story_items flat_map story_paragraphs filter map app].
    rewrite !app_nil_r. split; assumption.
  - destruct (str_eqb (c :: line) (u "---")) eqn:Erule.
    + (* rule *)
      apply str_eqb_eq in Erule. rewrite Erule.
      cbn [negb andb map append story pending_bullets].
      replace (startswith (u "---") (u "- ") || startswith (u "---") (u "* "))
        with false by reflexivity.
      rewrite story_items_app, story_paragraphs_app, Fp, Fi, Fs.
      cbn [story_items flat_map story_paragraphs filter map app].
      rewrite !app_nil_r. split; assumption.
    + destruct (startswith (c :: line) (u "- ") || startswith (c :: line) (u "* "))
        eqn:Ebul.
      * (* bullet *)
        cbn [negb andb map story pending_bullets].
        rewrite map_app, app_assoc, Hitems. cbn [map].
        rewrite Eraw, app_nil_r. split; [reflexivity|assumption].
      * (* heading or paragraph *)
        cbn [negb andb map append story pending_bullets].
        rewrite Eraw.
        destruct (heading_or_paragraph_is_paragraph (c :: line) heading_prefixes)
          as (m & sty & ->).
        rewrite story_items_app, story_paragraphs_app, Fp, Fi, Fs.
        cbn [story_items flat_map story_paragraphs filter map app].
        rewrite !app_nil_r. split; [assumption|now rewrite Hpars].
Qed.

Lemma fold_render_invariant : forall lines st done,
  story_invariant st done ->
  story_invariant (fold_left render_line lines st) (done ++ lines).
Proof.
  induction lines as [|raw lines IH]; intros st done H.
  - now rewrite app_nil_r.
  - cbn [fold_left].
    replace (done ++ raw :: lines) with ((done ++ [raw]) ++ lines)
      by (now rewrite <- app_assoc).
    apply IH. now apply render_line_invariant.
Qed.

(** What the loop leaves in the story, for every document. *)
Lemma story_contents (md : str) :
  story_items (markdown_to_story md)
  = map item_markup (filter is_bullet_line (story_lines md))
  /\ story_paragraphs (markdown_to_story md)
     = map text_block (filter is_text_line (story_lines md)).
Proof.
  unfold markdown_to_story. fold (story_lines md).
  pose proof (@fold_render_invariant (story_lines md)
                {| story := []; pending_bullets := [] |} []) as H.
  destruct H as [Hitems Hpars]; [split; reflexivity|].
  cbn [app] in Hitems, Hpars.
  destruct (flush_bullets_spec
              (fold_left render_line (story_lines md)
                 {| story := []; pending_bullets := [] |})) as (_ & Fi & Fs).
  rewrite Fi, Fs. split; assumption.
Qed.

(** Nothing is lost and nothing is invented: the list items of the story
    are the bullet lines of the document, in order, each formatted from its
    text without the marker; and the paragraphs and headings of the story
    are, in order, the blocks of the lines that are neither blank, nor a
    rule, nor a bullet: each is the line without its heading marker, if it
    has one, formatted, in the style of that marker. *)
Theorem story_keeps_every_line (md : str) :
  story_items (markdown_to_story md)
  = map (fun raw => md_inline_to_rl (strip (slice_from (strip raw) 2)))
      (filter is_bullet_line (story_lines md))
  /\ story_paragraphs (markdown_to_story md)
     = map (fun raw => heading_or_paragraph heading_prefixes (strip raw))
         (filter is_text_line (story_lines md)).
Proof. exact (story_contents md). Qed.

End StoryFacts.

Section GlyphClaims.
Import PdfExport RenderParts.



End GlyphClaims.

Section HeadingFacts.
Import PdfExport RenderParts.

Lemma slice_from_app (A : Type) (a b : list A) :
  slice_from (a ++ b) (Z.of_nat (length a)) = b.
Proof.
  unfold slice_from. rewrite slice_sub by lia.
  rewrite !Nat2Z.id, Nat.min_id, length_app.
  rewrite Nat.min_l by lia. unfold sub.
  rewrite skipn_length_app. apply firstn_all2. lia.
Qed.


End HeadingFacts.

(* ================================================================== *)
(** * File names *)
(* ================================================================== *)

Section FileNameFacts.
Import PdfExport StreamlitApp.

(** Removing the unsafe characters is a filter. *)
Lemma sub_unsafe_filter : forall s prev,
  re_sub_go match_unsafe (put []) 0 prev tt s = (tt, filter is_safe_char s).
Proof.
  induction s as [|c r IH]; intros prev; [reflexivity|].
  cbn [re_sub_go match_unsafe filter].
  destruct (is_safe_char c).
  - now rewrite IH.
  - cbn [put Nat.sub app]. now rewrite IH.
Qed.

(** Where there is no white space, the first substitution changes
    nothing. *)
Lemma sub_spaces_none : forall s prev,
  Forall (fun c => is_space c = false) s ->
  re_sub_go match_spaces (put (u "_")) 0 prev tt s = (tt, s).
Proof.
  induction s as [|c r IH]; intros prev H; [reflexivity|].
  inversion H as [|? ? Hc Hr]; subst.
  cbn [re_sub_go]. unfold match_spaces. cbn [span_while]. rewrite Hc.
  now rewrite IH.
Qed.

Lemma safe_char_not_space c : is_safe_char c = true -> is_space c = false.
Proof.
  unfold is_safe_char, in_range, is_space. intros H.
  apply not_true_iff_false. intros Hs.
  repeat first [ rewrite orb_true_iff in H | rewrite andb_true_iff in H
               | rewrite N.leb_le in H | rewrite N.eqb_eq in H
               | rewrite orb_true_iff in Hs | rewrite andb_true_iff in Hs
               | rewrite N.leb_le in Hs | rewrite N.eqb_eq in Hs ].
  lia.
Qed.

Lemma safe_name_kept s :
  s <> [] -> forallb is_safe_char s = true -> _safe_filename s = s.
Proof.
  intros Hne Hs.
  assert (Hsp : Forall (fun c => is_space c = false) s).
  { apply Forall_forall. intros c Hc. apply safe_char_not_space.
    rewrite forallb_forall in Hs. now apply Hs. }
  assert (Hstrip : strip s = s).
  { destruct s as [|c r]; [congruence|].
    apply strip_solid.
    - inversion Hsp; subst. simpl. now rewrite H1.
    - clear Hne Hs. induction r as [|c' r IH] in c, Hsp |- *.
      + inversion Hsp; subst. simpl. now rewrite H1.
      + rewrite ends_solid_cons by discriminate.
        inversion Hsp; subst. now apply IH. }
  unfold _safe_filename. rewrite Hstrip.
  destruct s as [|c r]; [congruence|].
  unfold re_sub. rewrite sub_spaces_none by exact Hsp. cbn [snd].
  rewrite sub_unsafe_filter. cbn [snd].
  assert (Hf : filter is_safe_char (c :: r) = c :: r).
  { clear -Hs. induction (c :: r) as [|x l IH]; [reflexivity|].
    simpl in *. apply andb_prop in Hs as [Hx Hl]. rewrite Hx. f_equal. auto. }
  now rewrite Hf.
Qed.

Lemma safe_filename_safe name :
  _safe_filename name <> []
  /\ forallb is_safe_char (_safe_filename name) = true.
Proof.
  unfold _safe_filename. destruct (strip name) as [|c r]; [now split|].
  set (s1 := snd (re_sub match_spaces (put (u "_")) tt (c :: r))).
  unfold re_sub. rewrite !sub_unsafe_filter. cbn [snd].
  destruct (filter is_safe_char s1) as [|x l] eqn:E;
    [split; [discriminate|reflexivity]|].
  cbn [or_str]. split; [discriminate|].
  rewrite <- E. apply forallb_forall. intros y Hy.
  now apply filter_In in Hy.
Qed.

(** A file name is never empty and is made only of letters, digits, dots,
    underscores and hyphens, whatever the title: no path separator, no
    space, no control character. *)
Theorem safe_filename_is_safe (name : str) :
  _safe_filename name <> []
  /\ forallb is_safe_char (_safe_filename name) = true
  /\ ~ In 47%N (_safe_filename name)
  /\ ~ In 92%N (_safe_filename name).
Proof.
  destruct (safe_filename_safe name) as [Hne Hs].
  split; [exact Hne|]. split; [exact Hs|].
  rewrite forallb_forall in Hs.
  split; intros Hin; specialize (Hs _ Hin); discriminate Hs.
Qed.

Lemma span_while_spec (p : char -> bool) : forall s g rest,
  span_while p s = (g, rest) ->
  s = g ++ rest /\ forallb p g = true /\ forallb p (firstn 1 rest) = false
  \/ s = g ++ rest /\ forallb p g = true /\ rest = [].
Proof.
  induction s as [|c r IH]; intros g rest E; cbn [span_while] in E.
  - injection E as <- <-. right. auto.
  - destruct (p c) eqn:Ec.
    + destruct (span_while p r) as [g' rest'] eqn:Er. injection E as <- <-.
      destruct (IH g' rest' eq_refl) as [(-> & Hg & Hr)|(-> & Hg & ->)].
      * left. cbn [forallb app]. now rewrite Ec, Hg.
      * right. cbn [forallb app]. now rewrite Ec, Hg.
    + injection E as <- <-. left. cbn [forallb firstn app]. now rewrite Ec.
Qed.

(** Inside a run, the rest of the run gives nothing. *)
Lemma underscore_runs_skip : forall g rest,
  forallb is_space g = true ->
  forallb is_space (firstn 1 rest) = false \/ rest = [] ->
  underscore_runs true (g ++ rest) = underscore_runs false rest.
Proof.
  induction g as [|c g IH]; intros rest Hg Hrest.
  - destruct Hrest as [H| ->]; [|reflexivity].
    destruct rest as [|c r]; [discriminate|]. cbn [firstn forallb] in H.
    rewrite andb_true_r in H. cbn [app underscore_runs]. now rewrite H.
  - cbn [forallb] in Hg. apply andb_prop in Hg as [Hc Hg].
    cbn [app underscore_runs]. rewrite Hc. now apply IH.
Qed.

(** The first substitution is [underscore_runs]. *)
Lemma sub_spaces_runs : forall n s prev,
  (length s <= n)%nat ->
  re_sub_go match_spaces (put (u "_")) 0 prev tt s
  = (tt, underscore_runs false s).
Proof.
  induction n as [|n IH]; intros [|c r] prev Hlen; try reflexivity;
    [simpl in Hlen; lia|].
  cbn [re_sub_go].
  assert (Em : match_spaces prev (c :: r)
               = if is_space c
                 then Some ([], S (length (fst (span_while is_space r))))
                 else None).
  { unfold match_spaces. cbn [span_while]. destruct (is_space c); [|reflexivity].
    now destruct (span_while is_space r). }
  rewrite Em. cbn [underscore_runs].
  destruct (is_space c) eqn:Ec.
  - destruct (span_while is_space r) as [g' rest'] eqn:Er.
    cbn [fst put Nat.sub]. rewrite Nat.sub_0_r.
    destruct (@re_sub_go_skip unit match_spaces (put (u "_")) (length g') r
                (Some c) tt) as (prev' & ->).
    assert (Hr : r = g' ++ rest' /\ forallb is_space g' = true
                 /\ (forallb is_space (firstn 1 rest') = false \/ rest' = [])).
    { destruct (@span_while_spec is_space r g' rest' Er)
        as [(H1 & H2 & H3)|(H1 & H2 & H3)]; auto. }
    destruct Hr as (-> & Hg & Hrest).
    rewrite skipn_length_app.
    rewrite IH by (cbn [length] in Hlen; rewrite length_app in Hlen; lia).
    now rewrite underscore_runs_skip.
  - rewrite IH by (cbn [length] in Hlen; lia). reflexivity.
Qed.

(** The two substitutions as one pass, for every name. *)
Lemma safe_filename_pass name :
  _safe_filename name
  = or_str (filter is_safe_char (underscore_runs false (strip name))) DOCUMENTO.
Proof.
  unfold _safe_filename. destruct (strip name) as [|c r] eqn:E; [reflexivity|].
  unfold re_sub. rewrite (@sub_spaces_runs (length (c :: r))) by lia.
  cbn [snd]. now rewrite sub_unsafe_filter.
Qed.

(** Where there is no white space, the pass over the runs changes
    nothing. *)
Lemma underscore_runs_solid : forall a fl s,
  a <> [] -> Forall (fun c => is_space c = false) a ->
  underscore_runs fl (a ++ s) = a ++ underscore_runs false s.
Proof.
  induction a as [|c a IH]; intros fl s Hne H; [congruence|].
  inversion H as [|? ? Hc Ha]; subst. cbn [app underscore_runs]. rewrite Hc.
  destruct a as [|c' a']; [reflexivity|].
  now rewrite (IH false s) by (try discriminate; assumption).
Qed.

Lemma safe_no_space a :
  forallb is_safe_char a = true -> Forall (fun c => is_space c = false) a.
Proof.
  intros H. apply Forall_forall. intros c Hc. apply safe_char_not_space.
  rewrite forallb_forall in H. now apply H.
Qed.

Lemma junk_no_space a :
  forallb is_junk a = true -> Forall (fun c => is_space c = false) a.
Proof.
  intros H. apply Forall_forall. intros c Hc.
  rewrite forallb_forall in H. specialize (H c Hc). unfold is_junk in H.
  apply andb_prop in H as [_ H]. now apply negb_true_iff in H.
Qed.

Lemma filter_safe_all a : forallb is_safe_char a = true -> filter is_safe_char a = a.
Proof.
  induction a as [|c a IH]; [reflexivity|]. cbn [forallb filter]. intros H.
  apply andb_prop in H as [Hc Ha]. rewrite Hc. f_equal. auto.
Qed.

Lemma filter_safe_junk x : forallb is_junk x = true -> filter is_safe_char x = [].
Proof.
  induction x as [|c x IH]; [reflexivity|]. cbn [forallb filter]. intros H.
  apply andb_prop in H as [Hc Hx]. unfold is_junk in Hc.
  apply andb_prop in Hc as [Hc _]. apply negb_true_iff in Hc. rewrite Hc. auto.
Qed.

Lemma solid_of_no_space a :
  a <> [] -> Forall (fun c => is_space c = false) a ->
  starts_solid a = true /\ ends_solid a = true.
Proof.
  intros Hne H. destruct a as [|c r]; [congruence|]. split.
  - inversion H; subst. simpl. now rewrite H2.
  - clear Hne. induction r as [|c' r IH] in c, H |- *.
    + inversion H; subst. simpl. now rewrite H2.
    + rewrite ends_solid_cons by discriminate.
      inversion H; subst. now apply IH.
Qed.

(** A text between two words is not touched by the trimming. *)
Lemma strip_between a x b :
  a <> [] -> b <> [] ->
  Forall (fun c => is_space c = false) a ->
  Forall (fun c => is_space c = false) b ->
  strip (a ++ x ++ b) = a ++ x ++ b.
Proof.
  intros Ha Hb Fa Fb.
  destruct (solid_of_no_space Ha Fa) as [Sa _].
  destruct (solid_of_no_space Hb Fb) as [_ Eb].
  apply strip_solid; [now apply starts_solid_app|].
  rewrite app_assoc. now rewrite ends_solid_app.
Qed.

Lemma strip_blank ws : forallb is_space ws = true -> strip ws = [].
Proof.
  intros H. unfold strip.
  assert (E : rstrip ws = []); [|now rewrite E].
  induction ws as [|c r IH]; [reflexivity|]. cbn [forallb] in H.
  apply andb_prop in H as [Hc Hr]. cbn [rstrip]. rewrite (IH Hr). now rewrite Hc.
Qed.

(** What the sanitising does, for every name.  It is the single pass
    [underscore_runs] over the trimmed name followed by the filter on the
    safe characters, with "documento" for an empty result; it is
    idempotent; a non-empty name of safe characters is kept; between two
    such names a run of white space becomes one underscore and a run of
    other characters is dropped; a name that is blank, or made only of
    characters that are neither safe nor white space, becomes
    "documento". *)
Theorem safe_filename_rules :
  (forall name,
     _safe_filename name
     = or_str (filter is_safe_char (underscore_runs false (strip name)))
         DOCUMENTO)
  /\ (forall name, _safe_filename (_safe_filename name) = _safe_filename name)
  /\ (forall name,
        name <> [] -> forallb is_safe_char name = true ->
        _safe_filename name = name)
  /\ (forall a ws b,
        a <> [] -> forallb is_safe_char a = true ->
        b <> [] -> forallb is_safe_char b = true ->
        ws <> [] -> forallb is_space ws = true ->
        _safe_filename (a ++ ws ++ b) = a ++ u "_" ++ b)
  /\ (forall a x b,
        a <> [] -> forallb is_safe_char a = true ->
        b <> [] -> forallb is_safe_char b = true ->
        forallb is_junk x = true ->
        _safe_filename (a ++ x ++ b) = a ++ b)
  /\ (forall x, forallb is_junk x = true -> _safe_filename x = DOCUMENTO)
  /\ (forall ws, forallb is_space ws = true -> _safe_filename ws = DOCUMENTO).
Proof.
  split; [exact safe_filename_pass|]. split.
  { intros name. destruct (safe_filename_safe name) as [Hne Hs].
    now apply safe_name_kept. }
  split; [intros name; apply safe_name_kept|]. split.
  { intros a ws b Ha Sa Hb Sb Hws Sws. rewrite safe_filename_pass.
    pose proof (safe_no_space _ Sa) as Fa. pose proof (safe_no_space _ Sb) as Fb.
    rewrite strip_between by assumption.
    rewrite underscore_runs_solid by assumption.
    destruct ws as [|w0 ws]; [congruence|].
    cbn [forallb] in Sws. apply andb_prop in Sws as [Sw0 Sws].
    cbn [app underscore_runs]. rewrite Sw0.
    assert (Hfirst : forallb is_space (firstn 1 b) = false \/ b = []).
    { left. destruct b as [|c b']; [congruence|]. cbn [firstn forallb].
      inversion Fb; subst. now rewrite H1. }
    rewrite underscore_runs_skip by assumption.
    rewrite <- (app_nil_r b) at 1.
    rewrite underscore_runs_solid by assumption. cbn [underscore_runs].
    rewrite app_nil_r, filter_app. cbn [filter].
    change (is_safe_char 95%N) with true. cbv iota.
    rewrite !filter_safe_all by assumption.
    destruct a; [congruence|reflexivity]. }
  split.
  { intros a x b Ha Sa Hb Sb Jx. rewrite safe_filename_pass.
    pose proof (safe_no_space _ Sa) as Fa. pose proof (safe_no_space _ Sb) as Fb.
    rewrite strip_between by assumption.
    assert (Fall : Forall (fun c => is_space c = false) (a ++ x ++ b)).
    { repeat (apply Forall_app; split); try assumption. now apply junk_no_space. }
    rewrite <- (app_nil_r (a ++ x ++ b)).
    rewrite underscore_runs_solid;
      [|destruct a; [congruence|discriminate]|exact Fall].
    cbn [underscore_runs]. rewrite app_nil_r, !filter_app.
    rewrite (@filter_safe_all a Sa), (@filter_safe_all b Sb),
      (@filter_safe_junk x Jx).
    destruct a; [congruence|reflexivity]. }
  split.
  { intros x Jx. rewrite safe_filename_pass.
    destruct x as [|c x]; [reflexivity|].
    pose proof (junk_no_space _ Jx) as Fx.
    destruct (@solid_of_no_space (c :: x) ltac:(discriminate) Fx) as [S1 S2].
    rewrite strip_solid by assumption.
    rewrite <- (app_nil_r (c :: x)).
    rewrite underscore_runs_solid by (try discriminate; assumption).
    cbn [underscore_runs]. rewrite app_nil_r.
    now rewrite filter_safe_junk by assumption. }
  intros ws Sws. unfold _safe_filename. now rewrite strip_blank.
Qed.

Lemma safe_filename_rules_witness :
  _safe_filename (u "  Clase 1:  redes/neuronales ") = u "Clase_1_redesneuronales"
  /\ _safe_filename (u "Clase" ++ u "  " ++ u "1") = u "Clase" ++ u "_" ++ u "1"
  /\ _safe_filename (u "redes" ++ u "/" ++ u "neuronales") = u "redes" ++ u "neuronales"
  /\ _safe_filename (u "¿¡!?") = DOCUMENTO.
Proof.
  destruct safe_filename_rules as (H1 & _ & _ & H4 & H5 & H6 & _).
  split; [rewrite H1; vm_compute; reflexivity|].
  split; [apply H4; (discriminate || reflexivity)|].
  split; [apply H5; (discriminate || reflexivity)|].
  apply H6. reflexivity.
Defined.

End FileNameFacts.

(* ================================================================== *)
(** * Transcripts *)
(* ================================================================== *)

Section VttFacts.
Import PdfExport Transcription.

Variable is_decimal : char -> bool.

Let unbroken (s : str) : Prop := Forall (fun c => is_linebreak c = false) s.

Lemma lstrip_forall (P : char -> Prop) s : Forall P s -> Forall P (lstrip s).
Proof.
  induction 1 as [|c r Hc Hr IH]; [constructor|]. simpl.
  destruct (is_space c); [exact IH|now constructor].
Qed.

Lemma rstrip_forall (P : char -> Prop) s : Forall P s -> Forall P (rstrip s).
Proof.
  induction 1 as [|c r Hc Hr IH]; [constructor|]. simpl.
  destruct (rstrip r) as [|c' r'].
  - destruct (is_space c); [constructor|now repeat constructor].
  - now constructor.
Qed.

Lemma strip_forall (P : char -> Prop) s : Forall P s -> Forall P (strip s).
Proof. intros H. now apply lstrip_forall, rstrip_forall. Qed.

(** A substitution by the empty string only removes characters. *)
Lemma re_sub_delete_forall (P : char -> Prop)
      (match_at : option char -> str -> option (str * nat)) :
  forall s k prev, Forall P s ->
    Forall P (snd (re_sub_go match_at (put []) k prev tt s)).
Proof.
  induction s as [|c r IH]; intros k prev H; [constructor|].
  inversion H as [|? ? Hc Hr]; subst. cbn [re_sub_go].
  destruct k as [|k]; [|now apply IH].
  destruct (match_at prev (c :: r)) as [[g len]|].
  - cbn [put]. specialize (IH (len - 1)%nat (Some c) Hr).
    now destruct (re_sub_go match_at (put []) (len - 1) (Some c) tt r).
  - specialize (IH 0%nat (Some c) Hr).
    destruct (re_sub_go match_at (put []) 0 (Some c) tt r).
    now constructor.
Qed.

Lemma cons_to_first_unbroken c ls :
  is_linebreak c = false -> Forall unbroken ls ->
  Forall unbroken (cons_to_first c ls).
Proof.
  intros Hc Hls. destruct Hls as [|l ls Hl Hls]; simpl.
  - repeat constructor. exact Hc.
  - constructor; [now constructor|exact Hls].
Qed.

(** No line of [splitlines] has a line break in it. *)
Lemma splitlines_unbroken s : Forall unbroken (splitlines s).
Proof.
  assert (H : forall n s, (length s <= n)%nat -> Forall unbroken (splitlines s)).
  { induction n as [|n IH]; intros [|c r] Hlen;
      [constructor|simpl in Hlen; lia|constructor|].
    - cbn [splitlines].
      destruct (is_linebreak c) eqn:Ec.
      + destruct r as [|c' r'].
        * repeat constructor.
        * destruct ((c =? CR)%N && (c' =? LF)%N).
          -- constructor; [constructor|]. apply IH. cbn [length] in *. lia.
          -- constructor; [constructor|]. apply IH. cbn [length] in *. lia.
      + apply cons_to_first_unbroken; [exact Ec|].
        apply IH. cbn [length] in *. lia. }
  now apply (H (length s)).
Qed.

Lemma vtt_line_unbroken raw s :
  unbroken raw -> vtt_line is_decimal raw = Some s -> unbroken s.
Proof.
  intros Hraw. unfold vtt_line.
  pose proof (strip_forall (P := fun c => is_linebreak c = false) Hraw) as Hs.
  destruct (strip raw) as [|c t]; [discriminate|].
  destruct (startswith _ _); [discriminate|].
  destruct (contains _ _); [discriminate|].
  destruct (is_cue_index _ _); [discriminate|].
  intros E. injection E as <-. unfold strip_tags, re_sub.
  now apply re_sub_delete_forall.
Qed.

Lemma join_space_unbroken : forall lines,
  Forall unbroken lines -> unbroken (join [SPACE] lines).
Proof.
  induction 1 as [|l ls Hl Hls IH]; [constructor|].
  cbn [join]. destruct ls as [|l' ls']; [exact Hl|].
  apply Forall_app. split; [exact Hl|].
  apply Forall_app. split; [now repeat constructor|exact IH].
Qed.

(** The text extracted from a WebVTT file is a single line: it has no line
    break of any kind in it, whatever the file. *)
Theorem clean_vtt_single_line (vtt : str) :
  Forall (fun c => is_linebreak c = false) (_clean_vtt_to_text is_decimal vtt).
Proof.
  unfold _clean_vtt_to_text. apply strip_forall. apply join_space_unbroken.
  assert (H : forall raws acc,
             Forall unbroken raws -> Forall unbroken acc ->
             Forall unbroken
               (fold_left (fun lines raw =>
                             match vtt_line is_decimal raw with
                             | Some s => lines ++ [s]
                             | None => lines
                             end) raws acc)).
  { induction raws as [|raw raws IH]; intros acc Hr Ha; [exact Ha|].
    inversion Hr as [|? ? Hraw Hraws]; subst. cbn [fold_left].
    apply IH; [exact Hraws|].
    destruct (vtt_line is_decimal raw) as [s|] eqn:E; [|exact Ha].
    apply Forall_app. split; [exact Ha|].
    constructor; [|constructor]. now apply (vtt_line_unbroken Hraw). }
  apply H; [apply splitlines_unbroken|constructor].
Qed.

End VttFacts.

Section TranscriptionFacts.
Import Transcription.

Variable world : Type.
Variable is_decimal : char -> bool.
Variable path_exists : str -> world -> bool.
Variable whisper_segments :
  WhisperConfig -> str -> option str -> world -> res (list (option str)) * world.
Variable ydl_first_vtt : str -> ydl_opts -> world -> res (option str) * world.
Variable download_audio : str -> world -> res str * world.
Variable remove_quietly : str -> world -> world.

Let transcribe := transcribe_audio_file path_exists whisper_segments.
Let youtube :=
  get_youtube_text is_decimal path_exists whisper_segments ydl_first_vtt
    download_audio remove_quietly.

Lemma text_parts_solid texts :
  Forall (fun p => starts_solid p = true /\ ends_solid p = true)
    (text_parts texts).
Proof.
  unfold text_parts. induction texts as [|o texts IH]; [constructor|].
  cbn [flat_map]. apply Forall_app. split; [|exact IH].
  destruct o as [[|c t]|]; try constructor.
  destruct (strip_cases (c :: t)) as [->|H]; [constructor|].
  destruct (strip (c :: t)); [constructor|]. now repeat constructor.
Qed.

Lemma join_solid sep : forall parts,
  parts <> [] ->
  Forall (fun p => starts_solid p = true /\ ends_solid p = true) parts ->
  starts_solid (join sep parts) = true /\ ends_solid (join sep parts) = true.
Proof.
  induction parts as [|p parts IH]; intros Hne H; [congruence|].
  inversion H as [|? ? [Hs He] Hrest]; subst.
  cbn [join]. destruct parts as [|p' parts']; [now split|].
  destruct (IH ltac:(discriminate) Hrest) as [_ He'].
  split; [now apply starts_solid_app|].
  rewrite app_assoc. rewrite ends_solid_app; [exact He'|].
  now apply ends_solid_nonempty.
Qed.

(** A missing file is reported before Whisper is involved: with an empty
    path, or a path at which nothing exists, the call raises
    [FileNotFoundError] naming the path and leaves the world as it was. *)
Theorem transcribe_missing_file (file_path : str) (language : option str)
        (cfg : WhisperConfig) (w : world) :
  file_path = [] \/ path_exists file_path w = false ->
  transcribe file_path language cfg w
  = (Raised (FileNotFoundError (u "No existe el archivo: " ++ file_path)), w).
Proof.
  unfold transcribe, transcribe_audio_file. intros [->|H]; [reflexivity|].
  destruct file_path; [reflexivity|]. now rewrite H.
Qed.

(** The parts of a transcript: the segments in their order, a missing
    text read as the empty one, those kept whose text is not blank, each
    trimmed. *)
Lemma text_parts_kept texts :
  text_parts texts
  = map strip (filter (fun t => negb (str_eqb (strip t) []))
                 (map or_empty texts)).
Proof.
  unfold text_parts. induction texts as [|o texts IH]; [reflexivity|].
  cbn [flat_map map filter]. rewrite IH.
  destruct o as [[|c t]|]; cbn [or_empty]; try reflexivity.
  destruct (strip (c :: t)) as [|x r] eqn:E; [reflexivity|].
  cbn [str_eqb negb map app]. now rewrite E.
Qed.

(** The transcript is made of the segments in their order: a segment is
    left out when it has no text or a blank one, each of the others gives
    its text trimmed, and these are separated by single spaces.  Each kept
    part is non-empty and trimmed, so the final trimming of the whole
    changes nothing. *)
Theorem transcript_of_segments (file_path : str) (language : option str)
        (cfg : WhisperConfig) (w w1 : world) (texts : list (option str)) :
  file_path <> [] ->
  path_exists file_path w = true ->
  whisper_segments cfg file_path language w = (Done texts, w1) ->
  let kept :=
    map strip (filter (fun t => negb (str_eqb (strip t) []))
                 (map or_empty texts)) in
  transcribe file_path language cfg w = (Done (join [SPACE] kept), w1)
  /\ Forall (fun p => p <> [] /\ strip p = p) kept.
Proof.
  intros Hne Hex Hseg kept. subst kept. rewrite <- text_parts_kept.
  pose proof (text_parts_solid texts) as Hsolid. split.
  - unfold transcribe, transcribe_audio_file.
    destruct file_path as [|c t]; [congruence|]. rewrite Hex. cbn [negb].
    unfold tbind. rewrite Hseg. unfold tret. do 2 f_equal.
    destruct (text_parts texts) as [|p ps] eqn:E; [reflexivity|].
    destruct (@join_solid [SPACE] (p :: ps) ltac:(discriminate) Hsolid).
    now apply strip_solid.
  - eapply Forall_impl; [|exact Hsolid]. intros p [Hs He].
    split; [now apply ends_solid_nonempty|now apply strip_solid].
Qed.

(** A blank URL is refused with [ValueError] before anything is
    downloaded. *)
Theorem blank_url_rejected (url : str) (subtitles_lang whisper_lang : option str)
        (w : world) :
  strip url = [] ->
  youtube url subtitles_lang whisper_lang w = (Raised EMPTY_URL, w).
Proof.
  intros H. unfold youtube, get_youtube_text. now rewrite H.
Qed.

(** Manual subtitles that clean to some text are the answer: the automatic
    subtitles and Whisper are not tried, the world is the one the first
    download left. *)
Theorem manual_subtitles_win (url : str) (subtitles_lang whisper_lang : option str)
        (w w1 : world) (vtt : str) :
  strip url <> [] ->
  ydl_first_vtt (strip url) (subtitle_opts true subtitles_lang) w
  = (Done (Some vtt), w1) ->
  _clean_vtt_to_text is_decimal vtt <> [] ->
  youtube url subtitles_lang whisper_lang w
  = (Done (_clean_vtt_to_text is_decimal vtt), w1).
Proof.
  intros Hurl Hvtt Hclean. unfold youtube, get_youtube_text.
  destruct (strip url) as [|c t] eqn:E; [congruence|].
  unfold tbind at 1. unfold _download_subtitles at 1. unfold tbind at 1.
  rewrite Hvtt. unfold tret at 1.
  destruct (_clean_vtt_to_text is_decimal vtt) as [|c1 t1]; [congruence|].
  reflexivity.
Qed.

(** An error while fetching the manual subtitles ends the call with that
    error; the automatic subtitles and Whisper are not tried. *)
Theorem subtitle_error_aborts (url : str) (subtitles_lang whisper_lang : option str)
        (w w1 : world) (e : exc) :
  strip url <> [] ->
  ydl_first_vtt (strip url) (subtitle_opts true subtitles_lang) w
  = (Raised e, w1) ->
  youtube url subtitles_lang whisper_lang w = (Raised e, w1).
Proof.
  intros Hurl Herr. unfold youtube, get_youtube_text.
  destruct (strip url) as [|c t] eqn:E; [congruence|].
  unfold tbind at 1. unfold _download_subtitles at 1. unfold tbind at 1.
  now rewrite Herr.
Qed.

Lemma no_text_falls_through (url : str) (manual : bool) (lang : option str)
      (w w1 : world) (r : option str) :
  ydl_first_vtt url (subtitle_opts manual lang) w = (Done r, w1) ->
  no_text is_decimal r ->
  exists txt,
    _download_subtitles is_decimal ydl_first_vtt url manual lang w = (Done txt, w1)
    /\ truthy txt = false.
Proof.
  intros Hrun Hno. unfold _download_subtitles, tbind. rewrite Hrun.
  destruct Hno as [->|(vtt & -> & Hclean)].
  - exists None. split; reflexivity.
  - exists None. unfold tret. now rewrite Hclean.
Qed.

(** When neither kind of subtitles gives any text, the audio is downloaded
    and transcribed, and the downloaded file is removed afterwards whether
    the transcription succeeds or raises; the outcome of the transcription
    is the outcome of the call. *)
Theorem whisper_fallback_cleans_up
        (url : str) (subtitles_lang whisper_lang : option str)
        (w w1 w2 w3 : world) (r1 r2 : option str) (wav : str) :
  strip url <> [] ->
  ydl_first_vtt (strip url) (subtitle_opts true subtitles_lang) w = (Done r1, w1) ->
  no_text is_decimal r1 ->
  ydl_first_vtt (strip url) (subtitle_opts false subtitles_lang) w1 = (Done r2, w2) ->
  no_text is_decimal r2 ->
  download_audio (strip url) w2 = (Done wav, w3) ->
  youtube url subtitles_lang whisper_lang w
  = (fst (transcribe wav whisper_lang default_config w3),
     remove_quietly wav (snd (transcribe wav whisper_lang default_config w3))).
Proof.
  intros Hurl H1 N1 H2 N2 Haudio. unfold youtube, get_youtube_text.
  destruct (strip url) as [|c t] eqn:E; [congruence|].
  destruct (no_text_falls_through H1 N1) as (t1 & R1 & F1).
  destruct (no_text_falls_through H2 N2) as (t2 & R2 & F2).
  unfold tbind at 1. rewrite R1, F1.
  unfold tbind at 1. rewrite R2, F2.
  unfold tbind at 1. rewrite Haudio.
  unfold finally. fold transcribe.
  now destruct (transcribe wav whisper_lang default_config w3).
Qed.

End TranscriptionFacts.

Section TranscriptionWitnesses.
Import Transcription Scripted.

Let sample_vtt : str :=
  u "WEBVTT" ++ [LF; LF] ++ u "1" ++ [LF]
  ++ u "00:00:01.000 --> 00:00:02.000" ++ [LF]
  ++ u "<c>Hola</c> mundo" ++ [LF].

Lemma transcribe_missing_file_witness :
  transcribe_audio_file no_file_exists (segments (Done [])) (u "a.wav") None
    default_config []
  = (Raised (FileNotFoundError (u "No existe el archivo: " ++ u "a.wav")), []).
Proof. apply transcribe_missing_file. right. reflexivity. Defined.

Lemma transcript_of_segments_witness :
  transcribe_audio_file every_file_exists
    (segments (Done [Some (u " hola "); Some (u "  "); None; Some (u "mundo ")]))
    (u "a.wav") None default_config []
  = (Done (u "hola mundo"), [] ++ ["whisper"%string])
  /\ Forall (fun p => p <> [] /\ strip p = p) [u "hola"; u "mundo"].
Proof.
  apply (@transcript_of_segments (list string) every_file_exists
           (segments (Done [Some (u " hola "); Some (u "  "); None;
                            Some (u "mundo ")]))
           (u "a.wav") None default_config [] ([] ++ ["whisper"%string])
           [Some (u " hola "); Some (u "  "); None; Some (u "mundo ")]);
    [discriminate|reflexivity|reflexivity].
Defined.

Lemma blank_url_rejected_witness :
  get_youtube_text ascii_digit every_file_exists (segments (Done []))
    (subtitles (Done None) (Done None)) (audio_at (u "a.wav")) remove_logged
    (u "   ") None None []
  = (Raised EMPTY_URL, []).
Proof. apply blank_url_rejected. reflexivity. Defined.

Lemma manual_subtitles_win_witness :
  get_youtube_text ascii_digit every_file_exists (segments (Done []))
    (subtitles (Done (Some sample_vtt)) (Done None)) (audio_at (u "a.wav"))
    remove_logged (u " https://youtu.be/x ") None None []
  = (Done (_clean_vtt_to_text ascii_digit sample_vtt), [] ++ ["manual"%string]).
Proof.
  apply manual_subtitles_win; [discriminate|reflexivity|].
  vm_compute. discriminate.
Defined.

Lemma subtitle_error_aborts_witness :
  get_youtube_text ascii_digit every_file_exists (segments (Done []))
    (subtitles (Raised (LibraryError "network")) (Done (Some sample_vtt)))
    (audio_at (u "a.wav")) remove_logged (u "https://youtu.be/x") None None []
  = (Raised (LibraryError "network"), [] ++ ["manual"%string]).
Proof. apply subtitle_error_aborts; [discriminate|reflexivity]. Defined.

Lemma whisper_fallback_cleans_up_witness :
  get_youtube_text ascii_digit every_file_exists
    (segments (Raised (LibraryError "whisper")))
    (subtitles (Done None) (Done (Some (u "WEBVTT")))) (audio_at (u "a.wav"))
    remove_logged (u "https://youtu.be/x") None None []
  = (fst (transcribe_audio_file every_file_exists
            (segments (Raised (LibraryError "whisper"))) (u "a.wav") None
            default_config ["manual"; "auto"; "audio"]%string),
     remove_logged (u "a.wav")
       (snd (transcribe_audio_file every_file_exists
               (segments (Raised (LibraryError "whisper"))) (u "a.wav") None
               default_config ["manual"; "auto"; "audio"]%string))).
Proof.
  apply (@whisper_fallback_cleans_up world ascii_digit every_file_exists
           (segments (Raised (LibraryError "whisper")))
           (subtitles (Done None) (Done (Some (u "WEBVTT"))))
           (audio_at (u "a.wav")) remove_logged
           (u "https://youtu.be/x") None None
           [] ["manual"%string] ["manual"; "auto"]%string
           ["manual"; "auto"; "audio"]%string
           None (Some (u "WEBVTT")) (u "a.wav")).
  - discriminate.
  - reflexivity.
  - now left.
  - reflexivity.
  - right. exists (u "WEBVTT"). split; reflexivity.
  - reflexivity.
Defined.

End TranscriptionWitnesses.

Section HeadingWitness.
Import PdfExport RenderParts.


End HeadingWitness.

(* ================================================================== *)
(** * The output section of a per-chunk prompt *)
(* ================================================================== *)

Section PerChunkOutput.
Import Core Prompts PromptParts.
Local Open Scope Z_scope.

Lemma part_directive_shape i total :
  exists body,
    part_directive i total = LF :: body
    /\ starts_solid body = true /\ ends_solid body = true.
Proof.
  unfold part_directive. eexists. split; [reflexivity|]. split.
  - reflexivity.
  - rewrite !app_assoc. rewrite ends_solid_app; [reflexivity|discriminate].
Qed.

(** The output section of the prompt built for chunk [i] never comes from
    the presets: it is the caller's custom text, trimmed, followed by an
    empty line and the part directive, or, when the caller gave no usable
    custom text, the part directive alone, whatever [output_key] is. *)
Theorem per_chunk_output_text
        (key custom : option str) (i total : Z) :
  output_text key (Some (per_chunk_output_custom custom i total))
  = match strip (or_empty custom) with
    | [] => skipn 1 (part_directive i total)
    | (_ :: _) as base => base ++ [LF] ++ part_directive i total
    end.
Proof.
  destruct (part_directive_shape i total) as (body & Hd & Bs & Be).
  unfold output_text, per_chunk_output_custom. cbn [or_empty].
  destruct (strip_cases (or_empty custom)) as [E|[Hs He]].
  - rewrite E. cbn [app]. rewrite Hd. cbn [skipn].
    assert (Hstrip : strip (LF :: body) = body).
    { unfold strip. rewrite rstrip_solid.
      - cbn [lstrip]. replace (is_space LF) with true by reflexivity.
        now apply lstrip_solid.
      - rewrite ends_solid_cons; [exact Be|now apply ends_solid_nonempty]. }
    rewrite Hstrip. destruct body; [discriminate|reflexivity].
  - destruct (strip (or_empty custom)) as [|c base] eqn:E; [discriminate|].
    rewrite <- app_assoc.
    assert (Hstrip : strip ((c :: base) ++ [LF] ++ part_directive i total)
                     = (c :: base) ++ [LF] ++ part_directive i total).
    { apply strip_solid; [reflexivity || exact Hs|].
      rewrite Hd. rewrite !app_assoc.
      change (((c :: base) ++ [LF]) ++ LF :: body)
        with (((c :: base) ++ [LF]) ++ [LF] ++ body).
      rewrite app_assoc. rewrite ends_solid_app; [exact Be|].
      now apply ends_solid_nonempty. }
    rewrite Hstrip. reflexivity.
Qed.

End PerChunkOutput.

(* ================================================================== *)
(** * Code spans, bold and italic in general *)
(* ================================================================== *)

Section InlineSpans.
Import PdfExport RenderParts.

Lemma esc_app a b : esc (a ++ b) = esc a ++ esc b.
Proof.
  induction a as [|c a IH]; [reflexivity|].
  cbn [app]. rewrite !esc_cons, IH. now rewrite app_assoc.
Qed.

Lemma esc_char_no_backtick c : c <> BACKTICK -> ~ In BACKTICK (esc_char c).
Proof.
  intros Hc. unfold esc_char.
  destruct (char_eqb c AMP); [now apply not_in_of_existsb|].
  destruct (char_eqb c LT); [now apply not_in_of_existsb|].
  destruct (char_eqb c GT); [now apply not_in_of_existsb|].
  intros [H|[]]. congruence.
Qed.

Lemma esc_no_backtick g : ~ In BACKTICK g -> ~ In BACKTICK (esc g).
Proof.
  induction g as [|c g IH]; intros H; [exact H|].
  rewrite esc_cons. intros Hin. apply in_app_or in Hin as [Hin|Hin].
  - apply (@esc_char_no_backtick c); [|exact Hin].
    intros ->. apply H. now left.
  - apply IH; [|exact Hin]. intros Hg. apply H. now right.
Qed.

Lemma esc_nonempty g : g <> [] -> esc g <> [].
Proof.
  destruct g as [|c g]; [congruence|]. intros _. rewrite esc_cons.
  unfold esc_char.
  destruct (char_eqb c AMP); [discriminate|].
  destruct (char_eqb c LT); [discriminate|].
  destruct (char_eqb c GT); discriminate.
Qed.

Lemma span_until_app d : forall g rest,
  ~ In d g -> span_until d (g ++ d :: rest) = (g, d :: rest).
Proof.
  induction g as [|c g IH]; intros rest H.
  - cbn [app span_until]. unfold char_eqb. now rewrite N.eqb_refl.
  - cbn [app span_until]. unfold char_eqb.
    destruct (N.eqb_spec c d) as [->|_]; [exfalso; apply H; now left|].
    rewrite IH; [reflexivity|]. intros Hg. apply H. now right.
Qed.

(** Skipping at least as many characters as are left leaves nothing. *)
Lemma re_sub_go_skip_all (St : Type)
      (match_at : option char -> str -> option (str * nat))
      (repl : St -> str -> St * str) : forall s k prev st,
  (length s <= k)%nat -> re_sub_go match_at repl k prev st s = (st, []).
Proof.
  induction s as [|c r IH]; intros k prev st H; [reflexivity|].
  destruct k as [|k]; [simpl in H; lia|].
  cbn [re_sub_go]. apply IH. simpl in H. lia.
Qed.

(** Replacing a text in itself gives the replacement. *)
Lemma replace_self old new : old <> [] -> replace old old new = new.
Proof.
  intros Hne. unfold replace. destruct old as [|c r]; [congruence|].
  cbn [replace_go].
  pose proof (startswith_app (c :: r) []) as H. rewrite app_nil_r in H.
  rewrite H. rewrite replace_go_skip. cbn [length Nat.sub].
  rewrite Nat.sub_0_r, skipn_all. now rewrite app_nil_r.
Qed.

(** A code span: whatever stands between two backticks is escaped and put
    in the fixed-width font, and nothing in it is read as formatting, stars
    included. *)
Theorem code_span_protected (g : str) :
  g <> [] -> ~ In BACKTICK g ->
  md_inline_to_rl (BACKTICK :: g ++ [BACKTICK])
  = FONT_OPEN ++ esc g ++ FONT_CLOSE.
Proof.
  intros Hne Hg. unfold md_inline_to_rl.
  change (BACKTICK :: g ++ [BACKTICK]) with ([BACKTICK] ++ g ++ [BACKTICK]).
  rewrite !esc_app.
  change (esc [BACKTICK]) with [BACKTICK]. cbn [app].
  pose proof (@esc_no_backtick g Hg) as Hg'.
  pose proof (@esc_nonempty g Hne) as Hne'.
  set (e := esc g) in *. clearbody e.
  assert (Hextract : extract_code (BACKTICK :: e ++ [BACKTICK])
                     = ([e], code_placeholder 0)).
  { assert (Hm : match_code None (BACKTICK :: e ++ [BACKTICK])
                 = Some (e, (length e + 2)%nat)).
    { unfold match_code.
      replace (char_eqb BACKTICK BACKTICK) with true by reflexivity.
      rewrite span_until_app by exact Hg'.
      destruct e as [|c e']; [congruence|].
      now replace (char_eqb BACKTICK BACKTICK) with true by reflexivity. }
    unfold extract_code, re_sub. cbn [re_sub_go]. rewrite Hm.
    cbn [_code_repl app length Nat.sub].
    rewrite re_sub_go_skip_all
      by (rewrite length_app; cbn [length]; lia).
    now rewrite app_nil_r. }
  unfold insert_tags. rewrite Hextract.
  replace (sub_italic (sub_bold (code_placeholder 0))) with (code_placeholder 0)
    by (vm_compute; reflexivity).
  cbn [restore_code_spans].
  apply replace_self. discriminate.
Qed.

Lemma code_span_protected_witness :
  md_inline_to_rl (BACKTICK :: u "a*b < c" ++ [BACKTICK])
  = FONT_OPEN ++ esc (u "a*b < c") ++ FONT_CLOSE.
Proof.
  apply code_span_protected; [discriminate|].
  now apply not_in_of_existsb.
Defined.

End InlineSpans.

Section EmphasisSpans.
Import PdfExport RenderParts.

Lemma inert_head_not_star x :
  x <> [] -> ~ In STAR x ->
  exists c x', x = c :: x' /\ char_eqb c STAR = false.
Proof.
  destruct x as [|c x']; [congruence|]. intros _ H.
  exists c, x'. split; [reflexivity|].
  unfold char_eqb. destruct (N.eqb_spec c STAR) as [->|]; [|reflexivity].
  exfalso. apply H. now left.
Qed.

(** One step of the scan at a match that reaches the end of the text. *)
Lemma re_sub_go_at_match (St : Type)
      (match_at : option char -> str -> option (str * nat))
      (repl : St -> str -> St * str) prev st c r g len :
  match_at prev (c :: r) = Some (g, len) ->
  length r <= len - 1 ->
  re_sub_go match_at repl 0 prev st (c :: r)
  = (fst (repl st g), snd (repl st g)).
Proof.
  intros Hm Hlen. cbn [re_sub_go]. rewrite Hm.
  destruct (repl st g) as [st' out].
  rewrite re_sub_go_skip_all by exact Hlen.
  cbn [fst snd]. now rewrite app_nil_r.
Qed.

(** One step of the scan where nothing matches. *)
Lemma re_sub_go_at_miss (St : Type)
      (match_at : option char -> str -> option (str * nat))
      (repl : St -> str -> St * str) prev st c r :
  match_at prev (c :: r) = None ->
  re_sub_go match_at repl 0 prev st (c :: r)
  = (fst (re_sub_go match_at repl 0 (Some c) st r),
     c :: snd (re_sub_go match_at repl 0 (Some c) st r)).
Proof.
  intros Hm. cbn [re_sub_go]. rewrite Hm.
  now destruct (re_sub_go match_at repl 0 (Some c) st r).
Qed.

Lemma sub_bold_pair x :
  x <> [] -> ~ In STAR x ->
  sub_bold (STAR :: STAR :: x ++ [STAR; STAR]) = u "<b>" ++ x ++ u "</b>".
Proof.
  intros Hne Hx.
  assert (Hm : match_bold None (STAR :: STAR :: x ++ [STAR; STAR])
               = Some (x, (length x + 4)%nat)).
  { unfold match_bold.
    replace (char_eqb STAR STAR) with true by reflexivity. cbn [andb].
    rewrite (@span_until_app STAR x [STAR]) by exact Hx.
    destruct x; [congruence|reflexivity]. }
  unfold sub_bold, re_sub.
  rewrite (@re_sub_go_at_match _ _ _ _ _ _ _ _ _ Hm)
    by (cbn [length]; rewrite ?length_app; cbn [length]; lia).
  cbn [wrap snd]. reflexivity.
Qed.

Lemma sub_bold_single x :
  x <> [] -> ~ In STAR x ->
  sub_bold (STAR :: x ++ [STAR]) = STAR :: x ++ [STAR].
Proof.
  intros Hne Hx. destruct (inert_head_not_star Hne Hx) as (c & x' & -> & Hc).
  assert (Hm : match_bold None (STAR :: (c :: x') ++ [STAR]) = None).
  { unfold match_bold. cbn [app]. rewrite Hc. now rewrite andb_false_r. }
  unfold sub_bold, re_sub.
  rewrite (@re_sub_go_at_miss _ _ _ _ _ _ _ Hm).
  destruct (@re_sub_go_copy unit match_bold (wrap (u "<b>") (u "</b>")) STAR
              match_bold_first (c :: x') Hx [STAR] (Some STAR) tt)
    as (prev' & H).
  rewrite H. cbn [snd]. reflexivity.
Qed.

Lemma sub_italic_single x :
  x <> [] -> ~ In STAR x ->
  sub_italic (STAR :: x ++ [STAR]) = u "<i>" ++ x ++ u "</i>".
Proof.
  intros Hne Hx.
  assert (Hm : match_italic None (STAR :: x ++ [STAR])
               = Some (x, (length x + 2)%nat)).
  { unfold match_italic. cbn [is_star negb andb].
    replace (char_eqb STAR STAR) with true by reflexivity.
    rewrite (@span_until_app STAR x []) by exact Hx.
    destruct x; [congruence|reflexivity]. }
  unfold sub_italic, re_sub.
  rewrite (@re_sub_go_at_match _ _ _ _ _ _ _ _ _ Hm)
    by (rewrite ?length_app; cbn [length]; lia).
  cbn [wrap snd]. reflexivity.
Qed.

Lemma inert_between (a b x : str) :
  forallb is_inert x = true ->
  Forall (fun c => is_markup_char c = false) a ->
  Forall (fun c => is_markup_char c = false) b ->
  ~ In BACKTICK a -> ~ In BACKTICK b ->
  esc (a ++ x ++ b) = a ++ x ++ b
  /\ extract_code (a ++ x ++ b) = ([], a ++ x ++ b).
Proof.
  intros Hx Ha Hb Ta Tb.
  destruct (inert_forall x Hx) as (Hplain & _ & Htick). split.
  - apply esc_plain. repeat (apply Forall_app; split); assumption.
  - unfold extract_code.
    apply (@re_sub_no_delimiter _ match_code _code_repl BACKTICK);
      [exact match_code_first|].
    intros Hin. apply in_app_or in Hin as [Hin|Hin]; [now apply Ta|].
    apply in_app_or in Hin as [Hin|Hin]; [now apply Htick|now apply Tb].
Qed.

(** Bold and italic: an inert text between double stars comes out between
    the bold tags, between single stars between the italic tags, in both
    cases without the stars and otherwise unchanged. *)
Theorem emphasis_wraps_text (x : str) :
  x <> [] -> forallb is_inert x = true ->
  md_inline_to_rl (STAR :: STAR :: x ++ [STAR; STAR]) = u "<b>" ++ x ++ u "</b>"
  /\ md_inline_to_rl (STAR :: x ++ [STAR]) = u "<i>" ++ x ++ u "</i>".
Proof.
  intros Hne Hx. destruct (inert_forall x Hx) as (Hplain & Hstar & Htick).
  split.
  - destruct (@inert_between [STAR; STAR] [STAR; STAR] x Hx) as [He Hc];
      try (now repeat constructor); try (now apply not_in_of_existsb).
    cbn [app] in He, Hc.
    unfold md_inline_to_rl, insert_tags. rewrite He, Hc.
    rewrite sub_bold_pair by assumption.
    cbn [restore_code_spans]. unfold sub_italic.
    rewrite (@re_sub_no_delimiter _ match_italic _ STAR tt _ match_italic_first);
      [reflexivity|].
    intros Hin. apply in_app_or in Hin as [Hin|Hin];
      [revert Hin; now apply not_in_of_existsb|].
    apply in_app_or in Hin as [Hin|Hin]; [now apply Hstar|].
    revert Hin. now apply not_in_of_existsb.
  - destruct (@inert_between [STAR] [STAR] x Hx) as [He Hc];
      try (now repeat constructor); try (now apply not_in_of_existsb).
    cbn [app] in He, Hc.
    unfold md_inline_to_rl, insert_tags. rewrite He, Hc.
    rewrite sub_bold_single by assumption.
    rewrite sub_italic_single by assumption. reflexivity.
Qed.

Lemma emphasis_wraps_text_witness :
  md_inline_to_rl (STAR :: STAR :: u "muy importante" ++ [STAR; STAR])
  = u "<b>" ++ u "muy importante" ++ u "</b>"
  /\ md_inline_to_rl (STAR :: u "muy importante" ++ [STAR])
     = u "<i>" ++ u "muy importante" ++ u "</i>".
Proof. apply emphasis_wraps_text; [discriminate|reflexivity]. Defined.

End EmphasisSpans.

(* ================================================================== *)
(** * Escaping and the inserted tags *)
(* ================================================================== *)

Section ScanSteps.
Import PdfExport RenderParts.

Variable St : Type.
Variable match_at : option char -> str -> option (str * nat).
Variable repl : St -> str -> St * str.

(** One step of the scan at a match: the replacement, then the scan of
    what follows the match. *)
Lemma re_sub_go_step prev st c r g len :
  match_at prev (c :: r) = Some (g, len) ->
  exists prev',
    re_sub_go match_at repl 0 prev st (c :: r)
    = (fst (re_sub_go match_at repl 0 prev' (fst (repl st g))
              (skipn (len - 1) r)),
       snd (repl st g)
       ++ snd (re_sub_go match_at repl 0 prev' (fst (repl st g))
                 (skipn (len - 1) r))).
Proof.
  intros Hm. cbn [re_sub_go]. rewrite Hm. destruct (repl st g) as [st' out].
  destruct (@re_sub_go_skip St match_at repl (len - 1) r (Some c) st')
    as (prev' & ->).
  exists prev'. cbn [fst snd].
  now destruct (re_sub_go match_at repl 0 prev' st' (skipn (len - 1) r)).
Qed.

Section ScanForall.
(** A scan whose replacements are made of characters with [P] keeps a text
    made of such characters so. *)
Variable P : char -> Prop.
Variable Q : St -> Prop.

Hypothesis match_part : forall prev s g len,
  Forall P s -> match_at prev s = Some (g, len) -> Forall P g.

Hypothesis repl_keeps : forall st g,
  Q st -> Forall P g -> Q (fst (repl st g)) /\ Forall P (snd (repl st g)).

Lemma re_sub_go_forall : forall s k prev st,
  Forall P s -> Q st ->
  Q (fst (re_sub_go match_at repl k prev st s))
  /\ Forall P (snd (re_sub_go match_at repl k prev st s)).
Proof.
  induction s as [|c r IH]; intros k prev st Hs Hst; [now split|].
  pose proof Hs as Hs0. inversion Hs as [|? ? Hc Hr]; subst.
  cbn [re_sub_go]. destruct k as [|k]; [|now apply IH].
  destruct (match_at prev (c :: r)) as [[g len]|] eqn:Em.
  - pose proof (@match_part prev (c :: r) g len Hs0 Em) as Hg.
    destruct (@repl_keeps st g Hst Hg) as [Hst' Hout].
    destruct (repl st g) as [st' out]. cbn [fst snd] in *.
    destruct (IH (len - 1)%nat (Some c) st' Hr Hst') as [H1 H2].
    destruct (re_sub_go match_at repl (len - 1) (Some c) st' r) as [st'' rest].
    cbn [fst snd] in *. split; [exact H1|]. apply Forall_app. now split.
  - destruct (IH 0%nat (Some c) st Hr Hst) as [H1 H2].
    destruct (re_sub_go match_at repl 0 (Some c) st r) as [st' rest].
    cbn [fst snd] in *. split; [exact H1|]. now constructor.
Qed.

End ScanForall.

Lemma count_char_app d a b :
  count_char d (a ++ b) = (count_char d a + count_char d b)%nat.
Proof. unfold count_char. now rewrite filter_app, length_app. Qed.

Section ScanCount.
(** A scan whose replacements have as many [d] as the text they replace
    keeps the number of [d]. *)
Variable d : char.

Hypothesis match_count : forall prev s g len,
  match_at prev s = Some (g, len) ->
  (1 <= len)%nat /\ count_char d (firstn len s) = count_char d g.

Hypothesis repl_count : forall st g,
  count_char d (snd (repl st g)) = count_char d g.

Lemma re_sub_go_count : forall n s prev st,
  (length s <= n)%nat ->
  count_char d (snd (re_sub_go match_at repl 0 prev st s)) = count_char d s.
Proof.
  induction n as [|n IH]; intros [|c r] prev st Hlen; try reflexivity;
    [simpl in Hlen; lia|].
  destruct (match_at prev (c :: r)) as [[g len]|] eqn:Em.
  - destruct (@match_count prev (c :: r) g len Em) as [Hpos Hcnt].
    destruct (@re_sub_go_step prev st c r g len Em) as (prev' & ->). cbn [snd].
    rewrite count_char_app, repl_count.
    replace (skipn (len - 1) r) with (skipn len (c :: r))
      by (destruct len; [lia|]; simpl; now rewrite Nat.sub_0_r).
    rewrite IH by (rewrite length_skipn; cbn [length] in *; lia).
    rewrite <- Hcnt, <- count_char_app. now rewrite firstn_skipn.
  - cbn [re_sub_go]. rewrite Em.
    assert (Hr : (length r <= n)%nat) by (simpl in Hlen; lia).
    specialize (IH r (Some c) st Hr).
    destruct (re_sub_go match_at repl 0 (Some c) st r) as [st' rest].
    cbn [snd] in *. unfold count_char in *. cbn [filter].
    destruct (char_eqb d c); cbn [length]; now rewrite IH.
Qed.

End ScanCount.

End ScanSteps.

Section EscapingFacts.
Import PdfExport RenderParts.

(** *** What the three patterns match *)

Lemma match_code_text prev s g len :
  match_code prev s = Some (g, len) ->
  exists rest, s = (BACKTICK :: g ++ [BACKTICK]) ++ rest
               /\ len = length (BACKTICK :: g ++ [BACKTICK]).
Proof.
  intros E. unfold match_code in E.
  destruct s as [|c r]; [discriminate|].
  destruct (char_eqb c BACKTICK) eqn:Ec; [|discriminate].
  apply char_eqb_eq in Ec. subst c.
  destruct (span_until BACKTICK r) as [g' rest] eqn:Er.
  destruct g' as [|x g']; [discriminate|].
  destruct rest as [|c' rest]; [discriminate|].
  destruct (char_eqb c' BACKTICK) eqn:Ec'; [|discriminate].
  apply char_eqb_eq in Ec'. subst c'. injection E as <- <-.
  apply span_until_spec in Er as [-> _].
  exists rest. split.
  - cbn [app]. now rewrite <- app_assoc.
  - cbn [length]. rewrite length_app. cbn [length]. lia.
Qed.

Lemma match_bold_text prev s g len :
  match_bold prev s = Some (g, len) ->
  exists rest, s = (STAR :: STAR :: g ++ [STAR; STAR]) ++ rest
               /\ len = length (STAR :: STAR :: g ++ [STAR; STAR]).
Proof.
  intros E. unfold match_bold in E.
  destruct s as [|c1 [|c2 r]]; try discriminate.
  destruct (char_eqb c1 STAR) eqn:E1; [|discriminate].
  destruct (char_eqb c2 STAR) eqn:E2; [|discriminate].
  apply char_eqb_eq in E1, E2. subst c1 c2. cbn [andb] in E.
  destruct (span_until STAR r) as [g' rest] eqn:Er.
  destruct g' as [|x g']; [discriminate|].
  destruct rest as [|d1 [|d2 rest]]; try discriminate.
  destruct (char_eqb d1 STAR) eqn:F1; [|discriminate].
  destruct (char_eqb d2 STAR) eqn:F2; [|discriminate].
  apply char_eqb_eq in F1, F2. subst d1 d2. injection E as <- <-.
  apply span_until_spec in Er as [-> _].
  exists rest. split.
  - cbn [app]. now rewrite <- app_assoc.
  - cbn [length]. rewrite length_app. cbn [length]. lia.
Qed.

Lemma match_italic_text prev s g len :
  match_italic prev s = Some (g, len) ->
  exists rest, s = (STAR :: g ++ [STAR]) ++ rest
               /\ len = length (STAR :: g ++ [STAR]).
Proof.
  intros E. unfold match_italic in E.
  destruct s as [|c r]; [discriminate|].
  destruct (negb (is_star prev)); [|discriminate].
  destruct (char_eqb c STAR) eqn:Ec; [|discriminate].
  apply char_eqb_eq in Ec. subst c. cbn [andb] in E.
  destruct (span_until STAR r) as [g' rest] eqn:Er.
  destruct g' as [|x g']; [discriminate|].
  destruct rest as [|d rest]; [discriminate|].
  destruct (char_eqb d STAR) eqn:Ed; [|discriminate].
  apply char_eqb_eq in Ed. subst d.
  destruct (negb (is_star (hd_error rest))); [|discriminate].
  injection E as <- <-.
  apply span_until_spec in Er as [-> _].
  exists rest. split.
  - cbn [app]. now rewrite <- app_assoc.
  - cbn [length]. rewrite length_app. cbn [length]. lia.
Qed.

Lemma firstn_length_app (A : Type) (a b : list A) : firstn (length a) (a ++ b) = a.
Proof. induction a; simpl; congruence. Qed.

(** *** No [&] comes from the insertion of tags *)

Lemma no_amp_of_forallb t :
  forallb (fun c => negb (char_eqb c AMP)) t = true -> Forall no_amp t.
Proof.
  intros H. apply Forall_forall. intros c Hc Heq.
  rewrite forallb_forall in H. specialize (H c Hc). subst c. discriminate H.
Qed.

Lemma plain_no_amp t :
  Forall (fun c => is_markup_char c = false) t -> Forall no_amp t.
Proof.
  intros H. eapply Forall_impl; [|exact H]. intros c Hc ->. discriminate Hc.
Qed.

Lemma code_placeholder_plain i :
  Forall (fun c => is_markup_char c = false) (code_placeholder i).
Proof.
  unfold code_placeholder.
  apply Forall_app. split; [now apply plain_of_forallb|].
  apply Forall_app. split; [apply str_of_int_plain|now apply plain_of_forallb].
Qed.

Lemma part_of_match (P : char -> Prop) (pre post g s rest : str) :
  s = (pre ++ g ++ post) ++ rest -> Forall P s -> Forall P g.
Proof.
  intros -> H. apply Forall_app in H as [H _].
  apply Forall_app in H as [_ H]. now apply Forall_app in H as [H _].
Qed.

Lemma extract_code_no_amp s :
  Forall no_amp s ->
  Forall (Forall no_amp) (fst (extract_code s))
  /\ Forall no_amp (snd (extract_code s)).
Proof.
  intros Hs. unfold extract_code, re_sub.
  apply (@re_sub_go_forall (list str) match_code _code_repl no_amp
           (Forall (Forall no_amp))); [| |exact Hs|constructor].
  - intros prev t g len Ht E.
    destruct (match_code_text _ _ E) as (rest & Et & _).
    now apply (@part_of_match no_amp [BACKTICK] [BACKTICK] g t rest).
  - intros st g Hst Hg. cbn [_code_repl fst snd]. split.
    + apply Forall_app. split; [exact Hst|now constructor].
    + apply plain_no_amp, code_placeholder_plain.
Qed.

Lemma wrap_no_amp open close s
      (match_at : option char -> str -> option (str * nat)) pre post :
  (forall prev t g len, match_at prev t = Some (g, len) ->
     exists rest, t = (pre ++ g ++ post) ++ rest) ->
  forallb (fun c => negb (char_eqb c AMP)) open = true ->
  forallb (fun c => negb (char_eqb c AMP)) close = true ->
  Forall no_amp s ->
  Forall no_amp (snd (re_sub match_at (wrap open close) tt s)).
Proof.
  intros Hm Ho Hc Hs. unfold re_sub.
  apply (@re_sub_go_forall unit match_at (wrap open close) no_amp
           (fun _ => True)); [| |exact Hs|exact I].
  - intros prev t g len Ht E. destruct (Hm _ _ _ _ E) as [rest Et].
    now apply (@part_of_match no_amp pre post g t rest).
  - intros st g _ Hg. split; [exact I|]. cbn [wrap snd].
    apply Forall_app. split; [now apply no_amp_of_forallb|].
    apply Forall_app. split; [exact Hg|now apply no_amp_of_forallb].
Qed.

Lemma replace_no_amp s old new :
  old <> [] -> Forall no_amp s -> Forall no_amp new ->
  Forall no_amp (replace s old new).
Proof.
  intros Hold Hs Hnew. unfold replace. destruct old as [|c0 old']; [congruence|].
  rewrite (replace_go_scan (c0 :: old') new s 0 None).
  apply (@re_sub_go_forall unit (match_literal (c0 :: old')) (put new) no_amp
           (fun _ => True)); [| |exact Hs|exact I].
  - intros prev t g len _ E. unfold match_literal in E.
    destruct (startswith t (c0 :: old')); [|discriminate].
    injection E as <- _. constructor.
  - intros st g _ _. split; [exact I|exact Hnew].
Qed.

Lemma restore_code_spans_no_amp : forall code_spans i s,
  Forall (Forall no_amp) code_spans -> Forall no_amp s ->
  Forall no_amp (restore_code_spans i code_spans s).
Proof.
  induction code_spans as [|code rest IH]; intros i s Hcs Hs; [exact Hs|].
  inversion Hcs as [|? ? Hcode Hrest]; subst.
  cbn [restore_code_spans]. apply IH; [exact Hrest|].
  apply replace_no_amp; [|exact Hs|].
  - destruct (code_placeholder_shape i) as [mid ->]. discriminate.
  - apply Forall_app. split; [now apply no_amp_of_forallb|].
    apply Forall_app. split; [exact Hcode|now apply no_amp_of_forallb].
Qed.

(** Tag insertion never makes an [&]: a text without [&] comes out without
    [&], whatever is inserted into it. *)
Lemma insert_tags_no_amp s : Forall no_amp s -> Forall no_amp (insert_tags s).
Proof.
  intros Hs. unfold insert_tags.
  destruct (extract_code_no_amp Hs) as [Hspans Hs1].
  destruct (extract_code s) as [code_spans s1]. cbn [fst snd] in *.
  apply restore_code_spans_no_amp; [exact Hspans|].
  unfold sub_italic, sub_bold.
  apply (@wrap_no_amp _ _ _ match_italic [STAR] [STAR]);
    [intros prev t g len E; destruct (match_italic_text _ _ E) as (rest & Et & _);
     exists rest; exact Et
    |reflexivity|reflexivity|].
  apply (@wrap_no_amp _ _ _ match_bold [STAR; STAR] [STAR; STAR]);
    [intros prev t g len E; destruct (match_bold_text _ _ E) as (rest & Et & _);
     exists rest; exact Et
    |reflexivity|reflexivity|exact Hs1].
Qed.

(** *** One [&] for every markup character *)

Lemma count_amp_esc s : count_char AMP (esc s) = length (filter is_markup_char s).
Proof.
  induction s as [|c r IH]; [reflexivity|].
  rewrite esc_cons, count_char_app, IH. cbn [filter].
  unfold esc_char, is_markup_char.
  destruct (char_eqb c AMP) eqn:E1; [reflexivity|].
  destruct (char_eqb c LT) eqn:E2; [reflexivity|].
  destruct (char_eqb c GT) eqn:E3; [reflexivity|].
  cbn [orb]. unfold count_char. cbn [filter].
  unfold char_eqb in *. rewrite N.eqb_sym, E1. reflexivity.
Qed.

Lemma wrap_count open close s
      (match_at : option char -> str -> option (str * nat)) pre post :
  (forall prev t g len, match_at prev t = Some (g, len) ->
     exists rest, t = (pre ++ g ++ post) ++ rest
                  /\ len = length (pre ++ g ++ post)) ->
  pre <> [] ->
  count_char AMP pre = 0%nat -> count_char AMP post = 0%nat ->
  count_char AMP open = 0%nat -> count_char AMP close = 0%nat ->
  count_char AMP (snd (re_sub match_at (wrap open close) tt s))
  = count_char AMP s.
Proof.
  intros Hm Hpre Cpre Cpost Copen Cclose. unfold re_sub.
  apply (@re_sub_go_count unit match_at (wrap open close) AMP) with (n := length s);
    [| |lia].
  - intros prev t g len E. destruct (Hm _ _ _ _ E) as (rest & -> & ->). split.
    + destruct pre; [congruence|]. cbn [app length]. lia.
    + rewrite firstn_length_app, !count_char_app. lia.
  - intros st g. cbn [wrap snd]. rewrite !count_char_app. lia.
Qed.

(** Without a backtick in the line there is no code span, and the markup
    has exactly one [&] for every [&], [<] and [>] of the line. *)
Lemma count_amp_without_code s :
  ~ In BACKTICK s ->
  count_char AMP (md_inline_to_rl s) = length (filter is_markup_char s).
Proof.
  intros Hs. unfold md_inline_to_rl, insert_tags, extract_code.
  rewrite (@re_sub_no_delimiter _ match_code _code_repl BACKTICK [] (esc s)
             match_code_first (@esc_no_backtick s Hs)).
  cbn [restore_code_spans]. unfold sub_italic, sub_bold.
  rewrite (@wrap_count _ _ _ match_italic [STAR] [STAR]);
    [|intros prev t g len E; destruct (match_italic_text _ _ E) as (rest & Et & El);
      exists rest; split; assumption
     |discriminate|reflexivity..].
  rewrite (@wrap_count _ _ _ match_bold [STAR; STAR] [STAR; STAR]);
    [|intros prev t g len E; destruct (match_bold_text _ _ E) as (rest & Et & El);
      exists rest; split; assumption
     |discriminate|reflexivity..].
  apply count_amp_esc.
Qed.

(** *** A code span inside a line *)

Lemma esc_avoids d s : is_delim d = true -> ~ In d s -> ~ In d (esc s).
Proof.
  intros Hd. induction s as [|c r IH]; intros H; [exact H|].
  rewrite esc_cons. intros Hin. apply in_app_or in Hin as [Hin|Hin].
  - unfold esc_char in Hin.
    destruct (char_eqb c AMP);
      [revert Hin; apply (@delim_avoids d (u "&amp;") Hd); simpl; tauto|].
    destruct (char_eqb c LT);
      [revert Hin; apply (@delim_avoids d (u "&lt;") Hd); simpl; tauto|].
    destruct (char_eqb c GT);
      [revert Hin; apply (@delim_avoids d (u "&gt;") Hd); simpl; tauto|].
    destruct Hin as [->|[]]. apply H. now left.
  - apply IH; [|exact Hin]. intros Hr. apply H. now right.
Qed.

Lemma replace_go_no_first old new d old' : forall s,
  old = d :: old' -> ~ In d s -> replace_go old new 0 s = s.
Proof.
  intros s ->. induction s as [|c r IH]; intros H; [reflexivity|].
  cbn [replace_go startswith]. unfold char_eqb.
  destruct (N.eqb_spec d c) as [->|_]; [exfalso; apply H; now left|].
  cbn [andb]. rewrite IH; [reflexivity|]. intros Hr. apply H. now right.
Qed.

(** A text that occurs once, between two texts without its first
    character, is replaced there. *)
Lemma replace_once old new d old' a b :
  old = d :: old' -> ~ In d a -> ~ In d b ->
  replace (a ++ old ++ b) old new = a ++ new ++ b.
Proof.
  intros -> Ha Hb. unfold replace.
  induction a as [|c a IH].
  - cbn [app replace_go].
    pose proof (startswith_app (d :: old') b) as Hsw. cbn [app] in Hsw.
    rewrite Hsw. f_equal. rewrite replace_go_skip.
    cbn [length Nat.sub]. rewrite Nat.sub_0_r, skipn_length_app.
    now apply (@replace_go_no_first (d :: old') new d old').
  - cbn [app replace_go startswith]. unfold char_eqb.
    destruct (N.eqb_spec d c) as [->|_]; [exfalso; apply Ha; now left|].
    cbn [andb]. f_equal. apply IH. intros H. apply Ha. now right.
Qed.

(** The scan for code spans over a line with one span between two texts
    without backticks. *)
Lemma extract_code_once a g b :
  g <> [] -> ~ In BACKTICK g -> ~ In BACKTICK a -> ~ In BACKTICK b ->
  extract_code (a ++ (BACKTICK :: g ++ [BACKTICK]) ++ b)
  = ([g], a ++ code_placeholder 0 ++ b).
Proof.
  intros Hne Hg Ha Hb. unfold extract_code, re_sub.
  destruct (@re_sub_go_copy (list str) match_code _code_repl BACKTICK
              match_code_first a Ha ((BACKTICK :: g ++ [BACKTICK]) ++ b) None [])
    as (prev1 & ->).
  assert (Hm : match_code prev1 ((BACKTICK :: g ++ [BACKTICK]) ++ b)
               = Some (g, (length g + 2)%nat)).
  { unfold match_code. cbn [app]. rewrite <- app_assoc. cbn [app].
    replace (char_eqb BACKTICK BACKTICK) with true by reflexivity.
    rewrite span_until_app by exact Hg.
    destruct g as [|c g']; [congruence|].
    now replace (char_eqb BACKTICK BACKTICK) with true by reflexivity. }
  cbn [app] in Hm |- *.
  destruct (@re_sub_go_step (list str) match_code _code_repl prev1 []
              BACKTICK ((g ++ [BACKTICK]) ++ b) g (length g + 2) Hm)
    as (prev2 & ->).
  cbn [_code_repl fst snd app length Nat.sub].
  replace (skipn (length g + 2 - 1) ((g ++ [BACKTICK]) ++ b)) with b.
  2: { replace (length g + 2 - 1)%nat with (length (g ++ [BACKTICK]))
         by (rewrite length_app; cbn [length]; lia).
       now rewrite skipn_length_app. }
  destruct (@re_sub_go_copy (list str) match_code _code_repl BACKTICK
              match_code_first b Hb [] prev2 [g]) as (prev3 & H).
  cbn [re_sub_go fst snd] in H. rewrite !app_nil_r in H.
  match goal with
  | |- context [re_sub_go match_code _code_repl 0 prev2 ?st b] =>
      change (re_sub_go match_code _code_repl 0 prev2 st b)
        with (re_sub_go match_code _code_repl 0 prev2 [g] b)
  end.
  rewrite H. reflexivity.
Qed.

(** A code span between two texts that have no backtick, no star and no
    [@]: the texts are escaped, the span is escaped and put between the
    font tags, and the tags stand as they are. *)
Lemma code_span_in_line a g b :
  g <> [] -> ~ In BACKTICK g ->
  ~ In BACKTICK a -> ~ In STAR a -> ~ In AT_SIGN a ->
  ~ In BACKTICK b -> ~ In STAR b -> ~ In AT_SIGN b ->
  md_inline_to_rl (a ++ (BACKTICK :: g ++ [BACKTICK]) ++ b)
  = esc a ++ (FONT_OPEN ++ esc g ++ FONT_CLOSE) ++ esc b.
Proof.
  intros Hne Hg Ha1 Ha2 Ha3 Hb1 Hb2 Hb3. unfold md_inline_to_rl.
  change (BACKTICK :: g ++ [BACKTICK]) with ([BACKTICK] ++ g ++ [BACKTICK]).
  rewrite !esc_app. change (esc [BACKTICK]) with [BACKTICK].
  pose proof (@esc_avoids BACKTICK a eq_refl Ha1) as A1.
  pose proof (@esc_avoids STAR a eq_refl Ha2) as A2.
  pose proof (@esc_avoids AT_SIGN a eq_refl Ha3) as A3.
  pose proof (@esc_avoids BACKTICK b eq_refl Hb1) as B1.
  pose proof (@esc_avoids STAR b eq_refl Hb2) as B2.
  pose proof (@esc_avoids AT_SIGN b eq_refl Hb3) as B3.
  pose proof (@esc_avoids BACKTICK g eq_refl Hg) as G1.
  pose proof (@esc_nonempty g Hne) as G0.
  set (A := esc a) in *. set (B := esc b) in *. set (G := esc g) in *.
  clearbody A B G.
  change (A ++ ([BACKTICK] ++ G ++ [BACKTICK]) ++ B)
    with (A ++ (BACKTICK :: G ++ [BACKTICK]) ++ B).
  unfold insert_tags.
  rewrite (@extract_code_once A G B G0 G1 A1 B1).
  assert (Hstar : ~ In STAR (A ++ code_placeholder 0 ++ B)).
  { intros H. apply in_app_or in H as [H|H]; [now apply A2|].
    apply in_app_or in H as [H|H]; [|now apply B2].
    revert H. now apply not_in_of_existsb. }
  unfold sub_bold.
  rewrite (@re_sub_no_delimiter _ match_bold _ STAR tt _ match_bold_first Hstar).
  cbn [snd]. unfold sub_italic.
  rewrite (@re_sub_no_delimiter _ match_italic _ STAR tt _ match_italic_first Hstar).
  cbn [snd restore_code_spans].
  destruct (code_placeholder_shape 0) as [mid Hshape].
  apply (@replace_once (code_placeholder 0) _ AT_SIGN (mid ++ [AT_SIGN]));
    assumption.
Qed.

(** *** Emphasis around a text with markup characters *)

Lemma emphasis_escaped x :
  x <> [] -> ~ In STAR x -> ~ In BACKTICK x ->
  md_inline_to_rl (STAR :: STAR :: x ++ [STAR; STAR])
  = u "<b>" ++ esc x ++ u "</b>"
  /\ md_inline_to_rl (STAR :: x ++ [STAR]) = u "<i>" ++ esc x ++ u "</i>".
Proof.
  intros Hne Hs Hb.
  pose proof (@esc_avoids STAR x eq_refl Hs) as X1.
  pose proof (@esc_avoids BACKTICK x eq_refl Hb) as X2.
  pose proof (@esc_nonempty x Hne) as X0.
  assert (Hfix : forall pre post,
            esc (pre ++ x ++ post) = esc pre ++ esc x ++ esc post)
    by (intros; now rewrite !esc_app).
  split.
  - unfold md_inline_to_rl.
    change (STAR :: STAR :: x ++ [STAR; STAR])
      with ([STAR; STAR] ++ x ++ [STAR; STAR]).
    rewrite Hfix. change (esc [STAR; STAR]) with [STAR; STAR].
    set (X := esc x) in *. clearbody X. cbn [app].
    unfold insert_tags, extract_code.
    rewrite (@re_sub_no_delimiter _ match_code _code_repl BACKTICK []).
    2: exact match_code_first.
    2: { intros [H|[H|H]]; try discriminate H.
         apply in_app_or in H as [H|H]; [now apply X2|].
         revert H. now apply not_in_of_existsb. }
    rewrite sub_bold_pair by assumption. cbn [restore_code_spans].
    unfold sub_italic.
    rewrite (@re_sub_no_delimiter _ match_italic _ STAR tt _ match_italic_first);
      [reflexivity|].
    intros H. apply in_app_or in H as [H|H];
      [revert H; now apply not_in_of_existsb|].
    apply in_app_or in H as [H|H]; [now apply X1|].
    revert H. now apply not_in_of_existsb.
  - unfold md_inline_to_rl.
    change (STAR :: x ++ [STAR]) with ([STAR] ++ x ++ [STAR]).
    rewrite Hfix. change (esc [STAR]) with [STAR].
    set (X := esc x) in *. clearbody X. cbn [app].
    unfold insert_tags, extract_code.
    rewrite (@re_sub_no_delimiter _ match_code _code_repl BACKTICK []).
    2: exact match_code_first.
    2: { intros [H|H]; try discriminate H.
         apply in_app_or in H as [H|H]; [now apply X2|].
         revert H. now apply not_in_of_existsb. }
    rewrite sub_bold_single by assumption.
    rewrite sub_italic_single by assumption. reflexivity.
Qed.

End EscapingFacts.

(** *** Renaming [&] *)

Section Renaming.
Import PdfExport RenderParts.

Variable z : char.
Hypothesis z_fresh : ~ In z insertion_alphabet.

Let rho := swap_amp z.

Lemma swap_amp_involutive c : rho (rho c) = c.
Proof.
  unfold rho, swap_amp, char_eqb.
  destruct (N.eqb_spec c AMP) as [->|Hc].
  - destruct (N.eqb_spec z AMP) as [->|Hz]; [reflexivity|].
    now rewrite N.eqb_refl.
  - destruct (N.eqb_spec c z) as [->|Hcz].
    + now rewrite N.eqb_refl.
    + destruct (N.eqb_spec c AMP); [contradiction|].
      destruct (N.eqb_spec c z); [contradiction|reflexivity].
Qed.

Lemma swap_amp_eqb a b : char_eqb (rho a) (rho b) = char_eqb a b.
Proof.
  unfold char_eqb. destruct (N.eqb_spec a b) as [->|H]; [apply N.eqb_refl|].
  apply N.eqb_neq. intros E. apply H.
  rewrite <- (swap_amp_involutive a), <- (swap_amp_involutive b). now rewrite E.
Qed.

Lemma in_alphabet_In c : in_alphabet c = true -> In c insertion_alphabet.
Proof.
  unfold in_alphabet. intros H. apply existsb_exists in H as (x & Hx & E).
  apply N.eqb_eq in E. now subst.
Qed.

Lemma swap_amp_fixes c : in_alphabet c = true -> rho c = c.
Proof.
  intros H. unfold rho, swap_amp, char_eqb.
  destruct (N.eqb_spec c AMP) as [->|_]; [discriminate H|].
  destruct (N.eqb_spec c z) as [->|_]; [|reflexivity].
  exfalso. apply z_fresh. now apply in_alphabet_In.
Qed.

Lemma swap_amp_eqb_fixed c d :
  in_alphabet d = true -> char_eqb (rho c) d = char_eqb c d.
Proof.
  intros H. rewrite <- (@swap_amp_fixes d H) at 1. apply swap_amp_eqb.
Qed.

Lemma map_fixed t : forallb in_alphabet t = true -> map rho t = t.
Proof.
  induction t as [|c t IH]; [reflexivity|]. cbn [forallb map]. intros H.
  apply andb_prop in H as [Hc Ht]. now rewrite (@swap_amp_fixes c Hc), IH.
Qed.

(** *** The patterns *)

Lemma span_until_map d : in_alphabet d = true -> forall s,
  span_until d (map rho s)
  = (map rho (fst (span_until d s)), map rho (snd (span_until d s))).
Proof.
  intros Hd. induction s as [|c r IH]; [reflexivity|].
  cbn [map span_until]. rewrite (@swap_amp_eqb_fixed c d Hd).
  destruct (char_eqb c d); [reflexivity|].
  rewrite IH. now destruct (span_until d r).
Qed.

Lemma match_code_map prev s :
  match_code (option_map rho prev) (map rho s) = rename_match rho (match_code prev s).
Proof.
  unfold match_code. destruct s as [|c r]; [reflexivity|]. cbn [map].
  rewrite (@swap_amp_eqb_fixed c BACKTICK eq_refl).
  destruct (char_eqb c BACKTICK); [|reflexivity].
  rewrite (@span_until_map BACKTICK eq_refl).
  destruct (span_until BACKTICK r) as [[|x g] [|c' rest]]; try reflexivity.
  cbn [fst snd map]. rewrite (@swap_amp_eqb_fixed c' BACKTICK eq_refl).
  destruct (char_eqb c' BACKTICK); [|reflexivity].
  unfold rename_match; cbn [option_map fst snd map length]. now rewrite length_map.
Qed.

Lemma match_bold_map prev s :
  match_bold (option_map rho prev) (map rho s) = rename_match rho (match_bold prev s).
Proof.
  unfold match_bold. destruct s as [|c1 [|c2 r]]; try reflexivity. cbn [map].
  rewrite (@swap_amp_eqb_fixed c1 STAR eq_refl), (@swap_amp_eqb_fixed c2 STAR eq_refl).
  destruct (char_eqb c1 STAR && char_eqb c2 STAR); [|reflexivity].
  rewrite (@span_until_map STAR eq_refl).
  destruct (span_until STAR r) as [[|x g] [|d1 [|d2 rest]]]; try reflexivity.
  cbn [fst snd map].
  rewrite (@swap_amp_eqb_fixed d1 STAR eq_refl), (@swap_amp_eqb_fixed d2 STAR eq_refl).
  destruct (char_eqb d1 STAR && char_eqb d2 STAR); [|reflexivity].
  unfold rename_match; cbn [option_map fst snd map length]. now rewrite length_map.
Qed.

Lemma is_star_map o : is_star (option_map rho o) = is_star o.
Proof.
  destruct o as [c|]; [|reflexivity]. cbn [option_map is_star].
  apply (@swap_amp_eqb_fixed c STAR eq_refl).
Qed.

Lemma match_italic_map prev s :
  match_italic (option_map rho prev) (map rho s)
  = rename_match rho (match_italic prev s).
Proof.
  unfold match_italic. destruct s as [|c r]; [reflexivity|]. cbn [map].
  rewrite is_star_map, (@swap_amp_eqb_fixed c STAR eq_refl).
  destruct (negb (is_star prev) && char_eqb c STAR); [|reflexivity].
  rewrite (@span_until_map STAR eq_refl).
  destruct (span_until STAR r) as [[|x g] [|d rest]]; try reflexivity.
  cbn [fst snd map]. rewrite (@swap_amp_eqb_fixed d STAR eq_refl).
  replace (hd_error (map rho rest)) with (option_map rho (hd_error rest))
    by (now destruct rest).
  rewrite is_star_map.
  destruct (char_eqb d STAR && negb (is_star (hd_error rest))); [|reflexivity].
  unfold rename_match; cbn [option_map fst snd map length]. now rewrite length_map.
Qed.

Lemma startswith_map old : forallb in_alphabet old = true -> forall s,
  startswith (map rho s) old = startswith s old.
Proof.
  induction old as [|p old IH]; intros H s; [reflexivity|].
  cbn [forallb] in H. apply andb_prop in H as [Hp Ho].
  destruct s as [|c s]; [reflexivity|]. cbn [map startswith].
  rewrite IH by exact Ho. f_equal.
  unfold char_eqb. rewrite N.eqb_sym, (N.eqb_sym p c).
  apply (@swap_amp_eqb_fixed c p Hp).
Qed.


(** *** The scan *)

Section ScanRenamed.
Variable St : Type.
Variable match_at : option char -> str -> option (str * nat).
Variable repl : St -> str -> St * str.
Variable rename_state : St -> St.

Hypothesis match_renamed : forall prev s,
  match_at (option_map rho prev) (map rho s) = rename_match rho (match_at prev s).

Hypothesis repl_renamed : forall st g,
  repl (rename_state st) (map rho g)
  = (rename_state (fst (repl st g)), map rho (snd (repl st g))).

Lemma re_sub_go_map : forall s k prev st,
  re_sub_go match_at repl k (option_map rho prev) (rename_state st) (map rho s)
  = (rename_state (fst (re_sub_go match_at repl k prev st s)),
     map rho (snd (re_sub_go match_at repl k prev st s))).
Proof.
  induction s as [|c r IH]; intros k prev st; [reflexivity|].
  cbn [map re_sub_go].
  destruct k as [|k]; [|exact (IH k (Some c) st)].
  change (rho c :: map rho r) with (map rho (c :: r)).
  rewrite match_renamed.
  destruct (match_at prev (c :: r)) as [[g len]|];
    unfold rename_match; cbn [option_map fst snd].
  - rewrite repl_renamed. destruct (repl st g) as [st' out]. cbn [fst snd].
    pose proof (IH (len - 1)%nat (Some c) st') as E. cbn [option_map] in E.
    rewrite E.
    destruct (re_sub_go match_at repl (len - 1) (Some c) st' r) as [st'' rest].
    cbn [fst snd]. now rewrite map_app.
  - pose proof (IH 0%nat (Some c) st) as E. cbn [option_map] in E. rewrite E.
    now destruct (re_sub_go match_at repl 0 (Some c) st r).
Qed.

End ScanRenamed.

(** *** The four passes *)

Lemma utf8_decode_in_alphabet bs :
  Forall (fun b => (b < 128)%N /\ in_alphabet b = true) bs ->
  forallb in_alphabet (utf8_decode bs) = true.
Proof.
  induction 1 as [|b bs [Hb Hp] _ IH]; [reflexivity|].
  cbn [utf8_decode]. apply N.ltb_lt in Hb. rewrite Hb.
  cbn [forallb]. now rewrite Hp, IH.
Qed.

Lemma uint_in_alphabet d :
  Forall (fun b => (b < 128)%N /\ in_alphabet b = true)
    (bytes_of_string (DecimalString.NilEmpty.string_of_uint d)).
Proof.
  induction d; simpl; constructor; try exact IHd; split; reflexivity.
Qed.

Lemma str_of_int_in_alphabet i : forallb in_alphabet (str_of_int i) = true.
Proof.
  apply utf8_decode_in_alphabet.
  assert (H : forall d, Forall (fun b => (b < 128)%N /\ in_alphabet b = true)
            (bytes_of_string (DecimalString.NilZero.string_of_uint d))).
  { intros d. unfold DecimalString.NilZero.string_of_uint.
    destruct d; try apply uint_in_alphabet.
    simpl. constructor; [split; reflexivity|constructor]. }
  destruct (Z.to_int i) as [d|d]; simpl; [apply H|].
  constructor; [split; reflexivity|apply H].
Qed.

Lemma code_placeholder_in_alphabet i :
  forallb in_alphabet (code_placeholder i) = true.
Proof.
  unfold code_placeholder. rewrite !forallb_app.
  now rewrite str_of_int_in_alphabet.
Qed.

Lemma code_placeholder_fixed i : map rho (code_placeholder i) = code_placeholder i.
Proof. apply map_fixed, code_placeholder_in_alphabet. Qed.

Lemma extract_code_map s :
  extract_code (map rho s)
  = (map (map rho) (fst (extract_code s)), map rho (snd (extract_code s))).
Proof.
  unfold extract_code, re_sub.
  apply (@re_sub_go_map (list str) match_code _code_repl (map (map rho))
           match_code_map) with (prev := None) (st := []).
  intros st g. unfold _code_repl. cbn [fst snd].
  rewrite map_app. cbn [map]. rewrite !length_app, !length_map.
  now rewrite code_placeholder_fixed.
Qed.

Lemma wrap_map open close s
      (match_at : option char -> str -> option (str * nat)) :
  (forall prev t,
     match_at (option_map rho prev) (map rho t) = rename_match rho (match_at prev t)) ->
  forallb in_alphabet open = true -> forallb in_alphabet close = true ->
  snd (re_sub match_at (wrap open close) tt (map rho s))
  = map rho (snd (re_sub match_at (wrap open close) tt s)).
Proof.
  intros Hm Ho Hc. unfold re_sub.
  rewrite (@re_sub_go_map unit match_at (wrap open close) (fun st => st) Hm)
    with (prev := None) (st := tt); [reflexivity|].
  intros st g. cbn [wrap fst snd]. rewrite !map_app.
  now rewrite (map_fixed _ Ho), (map_fixed _ Hc).
Qed.

Lemma replace_go_map old new : forallb in_alphabet old = true -> forall s k,
  replace_go old (map rho new) k (map rho s) = map rho (replace_go old new k s).
Proof.
  intros Ho. induction s as [|c r IH]; intros k; [reflexivity|].
  cbn [map replace_go]. destruct k as [|k]; [|apply IH].
  change (rho c :: map rho r) with (map rho (c :: r)).
  rewrite (startswith_map _ Ho).
  destruct (startswith (c :: r) old).
  - now rewrite map_app, IH.
  - cbn [map]. now rewrite IH.
Qed.

Lemma replace_map s old new :
  old <> [] -> forallb in_alphabet old = true ->
  replace (map rho s) old (map rho new) = map rho (replace s old new).
Proof.
  intros Hne Ho. unfold replace. destruct old as [|p old]; [congruence|].
  now apply replace_go_map.
Qed.

Lemma restore_code_spans_map : forall code_spans i s,
  restore_code_spans i (map (map rho) code_spans) (map rho s)
  = map rho (restore_code_spans i code_spans s).
Proof.
  induction code_spans as [|code rest IH]; intros i s; [reflexivity|].
  cbn [map restore_code_spans]. rewrite <- IH. f_equal.
  rewrite <- replace_map.
  - f_equal. rewrite !map_app.
    now rewrite (@map_fixed FONT_OPEN eq_refl), (@map_fixed FONT_CLOSE eq_refl).
  - destruct (code_placeholder_shape i) as [mid ->]. discriminate.
  - apply code_placeholder_in_alphabet.
Qed.

(** The insertion of tags commutes with the renaming of [&]. *)
Lemma insert_tags_map s : insert_tags (map rho s) = map rho (insert_tags s).
Proof.
  unfold insert_tags. rewrite extract_code_map.
  destruct (extract_code s) as [code_spans s1]. cbn [fst snd].
  unfold sub_italic, sub_bold.
  rewrite (@wrap_map (u "<b>") (u "</b>") s1 match_bold match_bold_map
             eq_refl eq_refl).
  rewrite (@wrap_map (u "<i>") (u "</i>") _ match_italic match_italic_map
             eq_refl eq_refl).
  apply restore_code_spans_map.
Qed.

End Renaming.

Section InlineClaims.
Import PdfExport RenderParts.

(** C9.  For every line the inline formatter escapes first and inserts
    tags afterwards.  The escaped text has no [<] and no [>] and every [&]
    in it opens one of the three entities; the markup returned is a
    sequence of harmless characters, entities and inserted tags, so that
    every [&] in it opens an entity and every [<] opens an inserted tag.
    The inserted tags are never escaped: the insertion makes no [&] at all
    (a line without [&], [<] and [>] gives markup without [&], whatever is
    inserted), and in a line without backticks the markup has exactly one
    [&] for each [&], [<] and [>] of the line.  The insertion does not
    even tell [&] from another character: writing, for every [&] of the
    escaped line, a character [z] that the insertion neither looks for nor
    writes, and [&] for [z], changes the markup by this renaming only, so
    that what the insertion adds is the same with and without it.  A code
    span between two texts comes out escaped between the two font tags,
    bold and italic text escaped between their tags, all tags as they are;
    for instance with markup characters inside and outside of a code span
    and of bold and italic text. *)
Theorem inline_markup_escaped (s : str) :
  md_inline_to_rl s = insert_tags (esc s)
  /\ escaped_text (esc s)
  /\ well_escaped (md_inline_to_rl s)
  /\ (forall a b, md_inline_to_rl s = a ++ AMP :: b ->
        exists e, In e entities /\ startswith (AMP :: b) e = true)
  /\ (forall a b, md_inline_to_rl s = a ++ LT :: b ->
        exists t, In t tags /\ startswith (LT :: b) t = true)
  /\ (Forall (fun c => is_markup_char c = false) s ->
      ~ In AMP (md_inline_to_rl s))
  /\ (~ In BACKTICK s ->
      count_char AMP (md_inline_to_rl s) = length (filter is_markup_char s))
  /\ (forall z, ~ In z insertion_alphabet ->
        insert_tags (map (swap_amp z) (esc s))
        = map (swap_amp z) (md_inline_to_rl s))
  /\ (forall a g b,
        g <> [] -> ~ In BACKTICK g ->
        ~ In BACKTICK a -> ~ In STAR a -> ~ In AT_SIGN a ->
        ~ In BACKTICK b -> ~ In STAR b -> ~ In AT_SIGN b ->
        md_inline_to_rl (a ++ (BACKTICK :: g ++ [BACKTICK]) ++ b)
        = esc a ++ (FONT_OPEN ++ esc g ++ FONT_CLOSE) ++ esc b)
  /\ (forall x,
        x <> [] -> ~ In STAR x -> ~ In BACKTICK x ->
        md_inline_to_rl (STAR :: STAR :: x ++ [STAR; STAR])
        = u "<b>" ++ esc x ++ u "</b>"
        /\ md_inline_to_rl (STAR :: x ++ [STAR]) = u "<i>" ++ esc x ++ u "</i>")
  /\ md_inline_to_rl (u "**a<b** & *c>d*")
     = u "<b>a&lt;b</b> &amp; <i>c&gt;d</i>"
  /\ md_inline_to_rl (u "x<y & `a<b` **c&d**")
     = u "x&lt;y &amp; " ++ FONT_OPEN ++ u "a&lt;b" ++ FONT_CLOSE
       ++ u " <b>c&amp;d</b>".
Proof.
  assert (H : well_escaped (md_inline_to_rl s)).
  { unfold md_inline_to_rl.
    apply insert_tags_well_escaped, escaped_text_well_escaped, esc_escaped_text. }
  split; [reflexivity|]. split; [apply esc_escaped_text|].
  split; [exact H|]. split; [now apply well_escaped_amp|].
  split; [now apply well_escaped_lt|]. split.
  { intros Hplain Hin. unfold md_inline_to_rl in Hin.
    rewrite esc_plain in Hin by exact Hplain.
    pose proof (insert_tags_no_amp (plain_no_amp Hplain)) as Hno.
    rewrite Forall_forall in Hno. now apply (Hno AMP Hin). }
  split; [apply count_amp_without_code|].
  split; [intros z Hz; now apply insert_tags_map|].
  split; [apply code_span_in_line|].
  split; [apply emphasis_escaped|].
  split; vm_compute; reflexivity.
Qed.

End InlineClaims.
